(** * Annotation synchronisation core of the bias checker web client

    A shallow embedding of
      - [web/src/services/analysisHelpers.ts]
          ([findPhrasePositions], [addCharacterPositions], [limitIndicatorsByKey]),
      - [web/src/extensions/BiasDecorations.ts] and
        [web/src/extensions/LexiconDecorations.ts]
          (the per-edit reconciliation helpers, the plugin's [apply] and the
           editor commands),
    followed by the properties established about them.

    Conventions of the embedding.
      - JavaScript numbers that hold positions, sizes and indices are
        integers ([Z]); array indices that come from a loop counter are [nat].
        Comparisons of such numbers are exact.  Where the code adds to a
        position, the sum is the double nearest to the exact sum
        ([JsNumber.add]); counters that count the elements of an array stay
        far below [2^53] and are incremented exactly.
      - JavaScript strings are sequences of code units.  The modules
        [PhraseLocator], [Filter], [Bootstrap] and [CategoryLimiter] cover
        the code units below 256 (the Latin-1 range) and represent a string
        as [string] / [list ascii]; case mapping and the classes [\w] and
        white space are the restrictions of the ECMAScript ones to that
        range.  The modules [Utf16] and [Utf16Bootstrap] cover every code
        unit: a string is a [list N], and the case mappings of Unicode are
        parameters of the definitions.
      - A plain object literal [{}] used as a dictionary is an association list
        of its own properties in creation order, together with the property
        names it inherits from [Object.prototype].
      - Editor commands are state transformers over the extension storage that
        also return the boolean result and the event they dispatch. *)

From Stdlib Require Import ZArith NArith Bool Ascii String List Lia Arith Permutation.
Import ListNotations.

Local Open Scope Z_scope.

(* ===================================================================== *)
(** * JavaScript array helpers                                            *)
(* ===================================================================== *)

Module Js.

Section Arrays.
Context {A : Type}.

(** [arr.splice(index, 1)] for an index inside the array. *)
Fixpoint splice1 (index : nat) (arr : list A) : list A :=
  match arr with
  | [] => []
  | x :: rest =>
      match index with
      | O => rest
      | S i => x :: splice1 i rest
      end
  end.

(** [arr[index] = f(arr[index])] for an index inside the array. *)
Fixpoint update_at (index : nat) (f : A -> A) (arr : list A) : list A :=
  match arr with
  | [] => []
  | x :: rest =>
      match index with
      | O => f x :: rest
      | S i => x :: update_at i f rest
      end
  end.

(** [arr.slice(0, n)]: a negative [n] counts from the end of the array. *)
Definition slice0 (n : Z) (arr : list A) : list A :=
  if n <? 0
  then firstn (Z.to_nat (Z.max (Z.of_nat (length arr) + n) 0)) arr
  else firstn (Z.to_nat n) arr.

(** The indices [i] (ascending, as the [for] loop meets them) whose element
    satisfies [p]: the contents of the [Set<number>] the loops fill. *)
Fixpoint indices_from (i : nat) (p : A -> bool) (arr : list A) : list nat :=
  match arr with
  | [] => []
  | x :: rest =>
      if p x then i :: indices_from (S i) p rest
      else indices_from (S i) p rest
  end.

Definition indices_where (p : A -> bool) (arr : list A) : list nat :=
  indices_from 0 p arr.
End Arrays.

(** [[...set].sort((a, b) => b - a)]: descending order. *)
Fixpoint insert_desc (x : nat) (l : list nat) : list nat :=
  match l with
  | [] => [x]
  | y :: rest => if (y <=? x)%nat then x :: l else y :: insert_desc x rest
  end.

Definition sort_desc (l : list nat) : list nat :=
  fold_right insert_desc [] l.

End Js.

(* ===================================================================== *)
(** * JavaScript numbers                                                  *)
(* ===================================================================== *)

(** Numbers are IEEE 754 doubles.  A whole number is a double when it has at
    most 53 significant bits: every whole number up to [2^53] in absolute
    value, then the multiples of 2 up to [2^54], the multiples of 4 up to
    [2^55], and so on. *)
Module JsNumber.

(** The exponent of the distance between the doubles around [z]. *)
Definition exponent (z : Z) : Z := Z.max 0 (Z.log2 (Z.abs z) - 52).

(** The double nearest to the whole number [z]; of two doubles that are
    equally near, the one with the even significand. *)
Definition round (z : Z) : Z :=
  let ulp := 2 ^ exponent z in
  let q := z / ulp in
  let r := z mod ulp in
  if 2 * r <? ulp then q * ulp
  else if ulp <? 2 * r then (q + 1) * ulp
  else if Z.even q then q * ulp
  else (q + 1) * ulp.

(** [x + y] on whole doubles whose sum does not overflow; the sums of this
    development add [1] to a double, and no such sum overflows. *)
Definition add (x y : Z) : Z := round (x + y).

(** [Number.isSafeInteger(n)]. *)
Definition safe (n : Z) : Prop := - 2 ^ 53 < n < 2 ^ 53.

End JsNumber.

(* ===================================================================== *)
(** * types.ts                                                            *)
(* ===================================================================== *)

Record Span : Type := mkSpan { start : Z; end_ : Z }.

(** [RawBiasIndicator]: a candidate as the analysis services return it. *)
Record RawBiasIndicator : Type := mkRaw {
  raw_bias_indicator_key : string;
  raw_detected_phrase : string;
  raw_character_positions : option Span;
  raw_confidence : option string
}.

(** [BiasIndicator]: a candidate after [addCharacterPositions]. *)
Record BiasIndicator : Type := mkBias {
  bias_indicator_key : string;
  detected_phrase : string;
  confidence : option string;
  character_positions : Span;
  displayIndex : option Z;
  outdated : option bool
}.

Record LexiconTerm : Type := mkTerm {
  word : string;
  definition : string;
  usage_example : string;
  term_character_positions : Span;
  term_displayIndex : option Z;
  term_outdated : option bool
}.

(** JavaScript truthiness of an optional number ([x || y]) and of an optional
    boolean ([!x]). *)
Definition truthy_number (x : option Z) : bool :=
  match x with
  | Some n => negb (n =? 0)
  | None => false
  end.

Definition truthy_flag (x : option bool) : bool :=
  match x with
  | Some b => b
  | None => false
  end.

(* ===================================================================== *)
(** * analysisHelpers.ts: findPhrasePositions                             *)
(* ===================================================================== *)

Module PhraseLocator.

Local Open Scope nat_scope.

Definition code (c : ascii) : nat := nat_of_ascii c.

Definition in_range (lo hi n : nat) : bool := (lo <=? n) && (n <=? hi).

(** [\w] in a pattern without the [u] flag: [[A-Za-z0-9_]]. *)
Definition is_word_char (c : ascii) : bool :=
  let n := code c in
  in_range 65 90 n || in_range 97 122 n || in_range 48 57 n || (n =? 95).

(** White space and line terminators removed by [String.prototype.trim]. *)
Definition is_white_space (c : ascii) : bool :=
  let n := code c in
  in_range 9 13 n || (n =? 32) || (n =? 160).

(** [Canonicalize] of a case-insensitive pattern without the [u] flag:
    the upper-case mapping when it is a single code unit. *)
Definition canonicalize (c : ascii) : ascii :=
  let n := code c in
  if in_range 97 122 n || (in_range 224 254 n && negb (n =? 247))
  then ascii_of_nat (n - 32)
  else c.

(** [String.prototype.toLowerCase], one code unit at a time. *)
Definition toLowerCase_char (c : ascii) : ascii :=
  let n := code c in
  if in_range 65 90 n || (in_range 192 222 n && negb (n =? 215))
  then ascii_of_nat (n + 32)
  else c.

Definition chars (s : string) : list ascii := list_ascii_of_string s.

Definition toLowerCase (s : string) : string :=
  string_of_list_ascii (map toLowerCase_char (chars s)).

Fixpoint drop_white_space (l : list ascii) : list ascii :=
  match l with
  | [] => []
  | c :: rest => if is_white_space c then drop_white_space rest else l
  end.

Definition trim (l : list ascii) : list ascii :=
  rev (drop_white_space (rev (drop_white_space l))).

(** ** The pattern

    [phrase.replace(/[.*+?^${}()|[\]\\]/g, '\\$&')] puts a backslash before
    every syntax character. *)
Definition is_syntax_char (c : ascii) : bool :=
  existsb (Ascii.eqb c)
    ["."; "*"; "+"; "?"; "^"; "$"; "{"; "}"; "("; ")"; "|"; "["; "]"; "\"]%char.

Fixpoint escape (phrase : list ascii) : list ascii :=
  match phrase with
  | [] => []
  | c :: rest =>
      if is_syntax_char c then "\"%char :: c :: escape rest
      else c :: escape rest
  end.

(** The pattern text between the two look-around assertions is read back as a
    sequence of literal characters: an identity escape [\c] of a syntax
    character stands for [c], any other character but a syntax character
    stands for itself.  Anything else is outside the fragment and is not
    compiled. *)
Fixpoint parse_literals (pattern : list ascii) : option (list ascii) :=
  match pattern with
  | [] => Some []
  | c :: rest =>
      if Ascii.eqb c "\"%char then
        match rest with
        | d :: rest' =>
            if is_syntax_char d
            then option_map (cons d) (parse_literals rest')
            else None
        | [] => None
        end
      else if is_syntax_char c then None
      else option_map (cons c) (parse_literals rest)
  end.

(** ** Matching [(?<!\w) literals (?!\w)] with flags [gi] *)

(** [(?<!\w)] at index [i]: the code unit before [i], if any, is not a word
    character. *)
Definition lookbehind_ok (text : list ascii) (i : nat) : bool :=
  match i with
  | O => true
  | S j =>
      match nth_error text j with
      | Some c => negb (is_word_char c)
      | None => true
      end
  end.

(** The literals against the input, code unit by code unit, up to case;
    returns what follows the match. *)
Fixpoint match_literals (literals input : list ascii) : option (list ascii) :=
  match literals with
  | [] => Some input
  | p :: literals' =>
      match input with
      | [] => None
      | c :: input' =>
          if Ascii.eqb (canonicalize p) (canonicalize c)
          then match_literals literals' input'
          else None
      end
  end.

(** [(?!\w)] on what follows the match. *)
Definition lookahead_ok (rest : list ascii) : bool :=
  match rest with
  | [] => true
  | c :: _ => negb (is_word_char c)
  end.

Definition match_at (text literals : list ascii) (i : nat) : bool :=
  lookbehind_ok text i &&
  match match_literals literals (skipn i text) with
  | Some rest => lookahead_ok rest
  | None => false
  end.

(** The first index at or after [i] where the pattern matches, among the next
    [n] candidates. *)
Fixpoint first_match (text literals : list ascii) (i n : nat) : option nat :=
  match n with
  | O => None
  | S n' =>
      if match_at text literals i then Some i
      else first_match text literals (S i) n'
  end.

(** [regex.exec(text)] with the [g] flag: the search starts at [lastIndex]
    and fails at once when [lastIndex] is past the end of the text. *)
Definition regex_exec (text literals : list ascii) (lastIndex : nat) : option nat :=
  if length text <? lastIndex then None
  else first_match text literals lastIndex (S (length text - lastIndex)).

(** [while ((match = regex.exec(text)) !== null) positions.push(...)]:
    every match moves [lastIndex] to its end.  [None] when the fuel runs
    out before [exec] returns [null]. *)
Fixpoint exec_loop (fuel : nat) (text literals : list ascii) (lastIndex : nat)
  : option (list Span) :=
  match fuel with
  | O => None
  | S fuel' =>
      match regex_exec text literals lastIndex with
      | None => Some []
      | Some index =>
          let stop := index + length literals in
          option_map (cons (mkSpan (Z.of_nat index) (Z.of_nat stop)))
                     (exec_loop fuel' text literals stop)
      end
  end.

Definition is_blank (phrase : string) : bool :=
  match chars phrase with
  | [] => true
  | _ => match trim (chars phrase) with [] => true | _ => false end
  end.

(** [findPhrasePositions(text, phrase)], with the fuel that the loop needs
    made explicit. *)
Definition findPhrasePositions_fuel (fuel : nat) (text phrase : string)
  : option (list Span) :=
  if is_blank phrase then Some []
  else
    match parse_literals (escape (chars phrase)) with
    | Some literals => exec_loop fuel (chars text) literals 0
    | None => None
    end.

Definition findPhrasePositions (text phrase : string) : list Span :=
  match findPhrasePositions_fuel (S (String.length text)) text phrase with
  | Some positions => positions
  | None => []
  end.

End PhraseLocator.

(* ===================================================================== *)
(** * Plain objects used as dictionaries                                  *)
(* ===================================================================== *)

(** How an evaluation ends: with a value or with a thrown error. *)
Inductive Completion (A : Type) : Type :=
| Normal (value : A)
| Throw (error : string).
Arguments Normal {A} value.
Arguments Throw {A} error.

Module JsObject.

(** The property names every object literal inherits from
    [Object.prototype]; each of them reads as a function, or as
    [Object.prototype] itself for [__proto__], and so is truthy. *)
Definition object_prototype_keys : list string :=
  [ "constructor"; "hasOwnProperty"; "isPrototypeOf"; "propertyIsEnumerable";
    "toLocaleString"; "toString"; "valueOf"; "__proto__";
    "__defineGetter__"; "__defineSetter__"; "__lookupGetter__";
    "__lookupSetter__" ]%string.

Definition inherited (key : string) : bool :=
  existsb (String.eqb key) object_prototype_keys.

(** A key is an array index when it is the canonical decimal form of an
    integer below [2^32 - 1]; such keys are enumerated first, in numeric
    order. *)
Definition digit_value (c : ascii) : option N :=
  let n := N_of_ascii c in
  if ((48 <=? n) && (n <=? 57))%N then Some (n - 48)%N else None.

Fixpoint parse_digits (acc : N) (l : list ascii) : option N :=
  match l with
  | [] => Some acc
  | c :: rest =>
      match digit_value c with
      | Some d => parse_digits (10 * acc + d)%N rest
      | None => None
      end
  end.

Definition array_index (key : string) : option N :=
  match list_ascii_of_string key with
  | [] => None
  | ["0"%char] => Some 0%N
  | "0"%char :: _ => None
  | l =>
      match parse_digits 0%N l with
      | Some n => if (n <? 4294967295)%N then Some n else None
      | None => None
      end
  end.

Section Properties.
Context {V : Type}.

(** Own properties, in creation order. *)
Definition t : Type := list (string * V).

Definition empty : t := [].

Fixpoint get_own (key : string) (o : t) : option V :=
  match o with
  | [] => None
  | (k, v) :: rest => if String.eqb key k then Some v else get_own key rest
  end.

(** [o[key] = v] on an own or a new property; a property that exists keeps
    its place in the enumeration order. *)
Fixpoint set_own (key : string) (v : V) (o : t) : t :=
  match o with
  | [] => [(key, v)]
  | (k, w) :: rest =>
      if String.eqb key k then (k, v) :: rest
      else (k, w) :: set_own key v rest
  end.

Fixpoint insert_index (e : N * V) (l : list (N * V)) : list (N * V) :=
  match l with
  | [] => [e]
  | e' :: rest =>
      if (fst e <=? fst e')%N then e :: l else e' :: insert_index e rest
  end.

Fixpoint index_properties (o : t) : list (N * V) :=
  match o with
  | [] => []
  | (k, v) :: rest =>
      match array_index k with
      | Some n => insert_index (n, v) (index_properties rest)
      | None => index_properties rest
      end
  end.

Fixpoint named_properties (o : t) : list V :=
  match o with
  | [] => []
  | (k, v) :: rest =>
      match array_index k with
      | Some _ => named_properties rest
      | None => v :: named_properties rest
      end
  end.

(** [Object.values(o)]: array-index keys in ascending numeric order, then
    the other keys in creation order. *)
Definition values (o : t) : list V :=
  map snd (index_properties o) ++ named_properties o.
End Properties.
Arguments t V : clear implicits.

End JsObject.

(* ===================================================================== *)
(** * analysisHelpers.ts: limitIndicatorsByKey                            *)
(* ===================================================================== *)

Module CategoryLimiter.

(** [new Set(keys).has(key)]. *)
Definition set_has (keys : list string) (key : string) : bool :=
  existsb (String.eqb key) keys.

(** One step of the [reduce] that builds [grouped]:
    [if (!acc[key]) acc[key] = []; acc[key].push(indicator)].
    When [key] names an inherited property, [acc[key]] is truthy and has no
    [push]: the call throws. *)
Definition group_step (acc : JsObject.t (list RawBiasIndicator))
    (indicator : RawBiasIndicator)
  : Completion (JsObject.t (list RawBiasIndicator)) :=
  let key := raw_bias_indicator_key indicator in
  match JsObject.get_own key acc with
  | Some group => Normal (JsObject.set_own key (group ++ [indicator]) acc)
  | None =>
      if JsObject.inherited key
      then Throw "TypeError: acc[key].push is not a function"
      else Normal (JsObject.set_own key [indicator] acc)
  end.

Fixpoint group_by_key (toLimit : list RawBiasIndicator)
    (acc : JsObject.t (list RawBiasIndicator))
  : Completion (JsObject.t (list RawBiasIndicator)) :=
  match toLimit with
  | [] => Normal acc
  | indicator :: rest =>
      match group_step acc indicator with
      | Normal acc' => group_by_key rest acc'
      | Throw e => Throw e
      end
  end.

Definition limitIndicatorsByKey (indicators : list RawBiasIndicator)
    (keysToLimit : option (list string)) (maxPerKey : option Z)
  : Completion (list RawBiasIndicator) :=
  let maxPerKey := match maxPerKey with Some n => n | None => 3 end in
  let keysSet :=
    match keysToLimit with
    | Some (k :: ks) => k :: ks
    | _ => map raw_bias_indicator_key indicators
    end in
  let toLimit :=
    filter (fun ind => set_has keysSet (raw_bias_indicator_key ind)) indicators in
  let others :=
    filter (fun ind => negb (set_has keysSet (raw_bias_indicator_key ind)))
           indicators in
  match group_by_key toLimit JsObject.empty with
  | Normal grouped =>
      Normal (flat_map (fun group => Js.slice0 maxPerKey group)
                       (JsObject.values grouped) ++ others)
  | Throw e => Throw e
  end.

End CategoryLimiter.

(* ===================================================================== *)
(** * analysisHelpers.ts: addCharacterPositions                           *)
(* ===================================================================== *)

Module Bootstrap.

(** What a property of [phraseOccurrenceCount] can read as: a number, [NaN],
    or a function or object inherited from [Object.prototype]. *)
Inductive CounterValue : Type :=
| CNumber (n : Z)
| CNaN
| CInherited.

Definition Counter : Type := JsObject.t CounterValue.

(** [phraseOccurrenceCount[phrase]]; [None] is [undefined]. *)
Definition read (phrase : string) (count : Counter) : option CounterValue :=
  match JsObject.get_own phrase count with
  | Some v => Some v
  | None => if JsObject.inherited phrase then Some CInherited else None
  end.

(** [phraseOccurrenceCount[phrase] = v]: the setter of [__proto__] creates
    no own property (and the values written here leave the prototype as it
    is). *)
Definition write (phrase : string) (v : CounterValue) (count : Counter) : Counter :=
  if String.eqb phrase "__proto__" then count
  else JsObject.set_own phrase v count.

(** [x || 0]. *)
Definition or_zero (x : option CounterValue) : CounterValue :=
  match x with
  | Some (CNumber n) => CNumber n
  | Some CInherited => CInherited
  | Some CNaN | None => CNumber 0
  end.

(** [Math.min(x, n)] for an integer [n]. *)
Definition math_min (x : option CounterValue) (n : Z) : CounterValue :=
  match x with
  | Some (CNumber m) => CNumber (Z.min m n)
  | _ => CNaN
  end.

(** [x + 1] after conversion to a number. *)
Definition increment (x : option CounterValue) : CounterValue :=
  match x with
  | Some (CNumber n) => CNumber (n + 1)
  | _ => CNaN
  end.

(** [positions[index]]; [None] is [undefined]. *)
Definition element (positions : list Span) (index : CounterValue) : option Span :=
  match index with
  | CNumber i => if i <? 0 then None else nth_error positions (Z.to_nat i)
  | _ => None
  end.

(** The body of the [map] callback, threading [phraseOccurrenceCount]. *)
Definition position_indicator (text : string) (count : Counter)
    (indicator : RawBiasIndicator) : RawBiasIndicator * Counter :=
  match raw_character_positions indicator with
  | Some _ => (indicator, count)
  | None =>
      let positions :=
        PhraseLocator.findPhrasePositions text (raw_detected_phrase indicator) in
      if (0 <? length positions)%nat then
        let phrase := PhraseLocator.toLowerCase (raw_detected_phrase indicator) in
        let count1 := write phrase (or_zero (read phrase count)) count in
        let positionIndex :=
          math_min (read phrase count1) (Z.of_nat (length positions) - 1) in
        let count2 := write phrase (increment (read phrase count1)) count1 in
        ({| raw_bias_indicator_key := raw_bias_indicator_key indicator;
            raw_detected_phrase := raw_detected_phrase indicator;
            raw_character_positions := element positions positionIndex;
            raw_confidence := raw_confidence indicator |},
         count2)
      else
        ({| raw_bias_indicator_key := raw_bias_indicator_key indicator;
            raw_detected_phrase := raw_detected_phrase indicator;
            raw_character_positions :=
              Some (mkSpan 0 (Z.max 1 (Z.of_nat
                      (String.length (raw_detected_phrase indicator)))));
            raw_confidence := raw_confidence indicator |},
         count)
  end.

Fixpoint map_indicators (text : string) (count : Counter)
    (indicators : list RawBiasIndicator) : list RawBiasIndicator :=
  match indicators with
  | [] => []
  | indicator :: rest =>
      let '(positioned, count') := position_indicator text count indicator in
      positioned :: map_indicators text count' rest
  end.

(** [addCharacterPositions(indicators, text)].  The result is declared to be
    an array of [BiasIndicator]; what the callback stores in
    [character_positions] can be [undefined], so the field stays optional
    here. *)
Definition addCharacterPositions (indicators : list RawBiasIndicator)
    (text : string) : list RawBiasIndicator :=
  map_indicators text JsObject.empty indicators.

End Bootstrap.

(* ===================================================================== *)
(** * The editor side: selections, transactions, command results          *)
(* ===================================================================== *)

Record Selection : Type := mkSelection { from : Z; to : Z }.

(** [selection.empty]: the selection is a cursor. *)
Definition empty (selection : Selection) : bool :=
  from selection =? to selection.

(** What the plugin reads from a transaction: the meta flag set by the
    extension's own commands, whether the document changed, the position
    mapping of the edit, the selection after it and the size of the new
    document. *)
Record Transaction : Type := mkTransaction {
  getMeta : bool;
  docChanged : bool;
  mapping : Z -> Z;
  selection : option Selection;
  doc_content_size : Z
}.

(** What a command leaves behind: its boolean result, the extension storage
    and the detail of the update event it dispatched, if any. *)
Record Outcome (A : Type) : Type := mkOutcome {
  returned : bool;
  storage : list A;
  dispatched : option (list A)
}.
Arguments mkOutcome {A} returned storage dispatched.
Arguments returned {A} o.
Arguments storage {A} o.
Arguments dispatched {A} o.

(* ===================================================================== *)
(** * extensions/BiasDecorations.ts                                       *)
(* ===================================================================== *)

Module Bias.

Definition with_positions (indicator : BiasIndicator) (s e : Z) : BiasIndicator :=
  {| bias_indicator_key := bias_indicator_key indicator;
     detected_phrase := detected_phrase indicator;
     confidence := confidence indicator;
     character_positions := mkSpan s e;
     displayIndex := displayIndex indicator;
     outdated := outdated indicator |}.

Definition with_outdated (indicator : BiasIndicator) : BiasIndicator :=
  {| bias_indicator_key := bias_indicator_key indicator;
     detected_phrase := detected_phrase indicator;
     confidence := confidence indicator;
     character_positions := character_positions indicator;
     displayIndex := displayIndex indicator;
     outdated := Some true |}.

Definition with_displayIndex (indicator : BiasIndicator) (s e d : Z) : BiasIndicator :=
  {| bias_indicator_key := bias_indicator_key indicator;
     detected_phrase := detected_phrase indicator;
     confidence := confidence indicator;
     character_positions := mkSpan s e;
     displayIndex := Some d;
     outdated := outdated indicator |}.

(** ** Reconciliation helpers *)

(** The loop of [mapIndicatorPositions] from index [0] on. *)
Fixpoint map_loop (mapping : Z -> Z) (indicators : list BiasIndicator)
  : list BiasIndicator * bool :=
  match indicators with
  | [] => ([], false)
  | indicator :: rest =>
      let oldStart := start (character_positions indicator) in
      let oldEnd := end_ (character_positions indicator) in
      let newStart := mapping oldStart in
      let newEnd := mapping oldEnd in
      let '(rest', positionsChanged) := map_loop mapping rest in
      if negb (newStart =? oldStart) || negb (newEnd =? oldEnd)
      then (with_positions indicator newStart newEnd :: rest', true)
      else (indicator :: rest', positionsChanged)
  end.

Definition mapIndicatorPositions (indicators : list BiasIndicator)
    (mapping : Z -> Z) : list BiasIndicator * bool :=
  map_loop mapping indicators.

(** [selection.from > start && selection.from <= end]. *)
Definition cursor_inside (position : Z) (indicator : BiasIndicator) : bool :=
  (start (character_positions indicator) <? position) &&
  (position <=? end_ (character_positions indicator)).

Record EditedResult : Type := mkEdited {
  edited_indicators : list BiasIndicator;
  edited_changed : bool;
  outdatedIndicators : list BiasIndicator
}.

(** One round of the second loop of [removeEditedIndicators]: the indicator
    at [index] is replaced by a copy marked outdated, which is also pushed to
    [outdatedIndicators].  The indices come from the first loop, so they lie
    inside the array. *)
Definition outdate_step (acc : list BiasIndicator * list BiasIndicator)
    (index : nat) : list BiasIndicator * list BiasIndicator :=
  let '(updatedIndicators, outdatedList) := acc in
  match nth_error updatedIndicators index with
  | Some indicator =>
      let outdatedIndicator := with_outdated indicator in
      (Js.update_at index (fun _ => outdatedIndicator) updatedIndicators,
       outdatedList ++ [outdatedIndicator])
  | None => acc
  end.

Definition removeEditedIndicators (indicators : list BiasIndicator)
    (selection : option Selection) : EditedResult :=
  match selection with
  | None => mkEdited indicators false []
  | Some sel =>
      if negb (empty sel) then mkEdited indicators false []
      else
        let updatedIndicators := indicators in
        let indicatorsToOutdate :=
          Js.indices_where (cursor_inside (from sel)) updatedIndicators in
        if (length indicatorsToOutdate =? 0)%nat
        then mkEdited updatedIndicators false []
        else
          let indicesToUpdate := Js.sort_desc indicatorsToOutdate in
          let '(updatedIndicators, outdatedList) :=
            fold_left outdate_step indicesToUpdate (updatedIndicators, []) in
          mkEdited updatedIndicators true outdatedList
  end.

(** [start >= end || start < 1 || end > docSize]. *)
Definition invalid (docSize : Z) (indicator : BiasIndicator) : bool :=
  (end_ (character_positions indicator) <=? start (character_positions indicator))
  || (start (character_positions indicator) <? 1)
  || (docSize <? end_ (character_positions indicator)).

Definition removeInvalidIndicators (indicators : list BiasIndicator)
    (docSize : Z) : list BiasIndicator * bool :=
  let updatedIndicators := indicators in
  let indicatorsToRemove := Js.indices_where (invalid docSize) updatedIndicators in
  if (length indicatorsToRemove =? 0)%nat
  then (updatedIndicators, false)
  else
    let indicesToRemove := Js.sort_desc indicatorsToRemove in
    (fold_left (fun arr index => Js.splice1 index arr)
               indicesToRemove updatedIndicators,
     true).

(** ** The plugin state's [apply]

    The decoration set is a function of the stored indicators and is left
    out; what is kept is the storage after the transaction and the detail of
    the [biasIndicatorsUpdated] event, when one is dispatched. *)
Definition apply (tr : Transaction) (stored : list BiasIndicator)
  : list BiasIndicator * option (list BiasIndicator) :=
  if getMeta tr then (stored, None)
  else if docChanged tr then
    let indicators := stored in
    let mappingResult := mapIndicatorPositions indicators (mapping tr) in
    let indicators := fst mappingResult in
    let indicatorsChanged := snd mappingResult in
    let removalResult := removeEditedIndicators indicators (selection tr) in
    let indicators := edited_indicators removalResult in
    let indicatorsChanged := indicatorsChanged || edited_changed removalResult in
    let invalidResult := removeInvalidIndicators indicators (doc_content_size tr) in
    let indicators := fst invalidResult in
    let indicatorsChanged := indicatorsChanged || snd invalidResult in
    if indicatorsChanged then (indicators, Some indicators)
    else (stored, None)
  else (stored, None).

(** ** Commands *)

(** [[...indicators].sort((a, b) => a.end - b.end)]: a stable sort. *)
Fixpoint insert_by_end (x : BiasIndicator) (l : list BiasIndicator)
  : list BiasIndicator :=
  match l with
  | [] => [x]
  | y :: rest =>
      if end_ (character_positions x) <=? end_ (character_positions y)
      then x :: l
      else y :: insert_by_end x rest
  end.

Definition sort_by_end (l : list BiasIndicator) : list BiasIndicator :=
  fold_right insert_by_end [] l.

(** The [map] callback of [setBiasIndicators], threading
    [nextDisplayIndex]. *)
Fixpoint adjust (normalizeCharacterPositions : bool) (nextDisplayIndex : Z)
    (sortedIndicators : list BiasIndicator) : list BiasIndicator :=
  match sortedIndicators with
  | [] => []
  | indicator :: rest =>
      let s0 := start (character_positions indicator) in
      let e0 := end_ (character_positions indicator) in
      let s := if normalizeCharacterPositions
               then (if s0 =? 0 then 1 else JsNumber.add s0 1)
               else s0 in
      let e := if normalizeCharacterPositions
               then Z.max (JsNumber.add e0 1) (JsNumber.add s 1)
               else e0 in
      if truthy_number (displayIndex indicator)
      then {| bias_indicator_key := bias_indicator_key indicator;
              detected_phrase := detected_phrase indicator;
              confidence := confidence indicator;
              character_positions := mkSpan s e;
              displayIndex := displayIndex indicator;
              outdated := outdated indicator |}
           :: adjust normalizeCharacterPositions nextDisplayIndex rest
      else with_displayIndex indicator s e nextDisplayIndex
           :: adjust normalizeCharacterPositions (nextDisplayIndex + 1) rest
  end.

(** [ind.displayIndex || 0]. *)
Definition displayIndex_or_zero (indicator : BiasIndicator) : Z :=
  match displayIndex indicator with
  | Some n => n
  | None => 0
  end.

Definition setBiasIndicators (indicators : list BiasIndicator)
    (normalizeCharacterPositions : option bool) (stored : list BiasIndicator)
  : Outcome BiasIndicator :=
  let normalizeCharacterPositions :=
    match normalizeCharacterPositions with Some b => b | None => true end in
  (* editor.storage.biasDecorations.indicators = [] *)
  let stored := @nil BiasIndicator in
  let sortedIndicators := sort_by_end indicators in
  let currentIndicators := stored in
  let maxDisplayIndex :=
    fold_left (fun max ind => Z.max max (displayIndex_or_zero ind))
              currentIndicators 0 in
  let nextDisplayIndex := maxDisplayIndex + 1 in
  let adjustedIndicators :=
    adjust normalizeCharacterPositions nextDisplayIndex sortedIndicators in
  mkOutcome true adjustedIndicators (Some adjustedIndicators).

Definition clearBiasIndicators (stored : list BiasIndicator)
  : Outcome BiasIndicator :=
  mkOutcome true [] (Some []).

Definition removeBiasIndicator (index : Z) (stored : list BiasIndicator)
  : Outcome BiasIndicator :=
  let indicators := stored in
  if (0 <=? index) && (index <? Z.of_nat (length indicators)) then
    let indicators := Js.splice1 (Z.to_nat index) indicators in
    mkOutcome true indicators (Some indicators)
  else mkOutcome false stored None.

(** The loop of [removeBiasIndicatorAtPosition]: [count] indices remain to be
    visited, from [count - 1] down to [0]. *)
Fixpoint remove_loop (position : Z) (count : nat)
    (indicators : list BiasIndicator) (indicatorRemoved : bool)
  : list BiasIndicator * bool :=
  match count with
  | O => (indicators, indicatorRemoved)
  | S i =>
      match nth_error indicators i with
      | Some indicator =>
          if (start (character_positions indicator) <=? position) &&
             (position <=? end_ (character_positions indicator))
          then remove_loop position i (Js.splice1 i indicators) true
          else remove_loop position i indicators indicatorRemoved
      | None => remove_loop position i indicators indicatorRemoved
      end
  end.

Definition removeBiasIndicatorAtPosition (position : Z)
    (stored : list BiasIndicator) : Outcome BiasIndicator :=
  let '(indicators, indicatorRemoved) :=
    remove_loop position (length stored) stored false in
  if indicatorRemoved then mkOutcome true indicators (Some indicators)
  else mkOutcome false stored None.

End Bias.

(* ===================================================================== *)
(** * extensions/LexiconDecorations.ts                                    *)
(* ===================================================================== *)

Module Lexicon.

Definition with_positions (term : LexiconTerm) (s e : Z) : LexiconTerm :=
  {| word := word term;
     definition := definition term;
     usage_example := usage_example term;
     term_character_positions := mkSpan s e;
     term_displayIndex := term_displayIndex term;
     term_outdated := term_outdated term |}.

Definition with_outdated (term : LexiconTerm) : LexiconTerm :=
  {| word := word term;
     definition := definition term;
     usage_example := usage_example term;
     term_character_positions := term_character_positions term;
     term_displayIndex := term_displayIndex term;
     term_outdated := Some true |}.

(** ** Reconciliation helpers *)

Fixpoint map_loop (mapping : Z -> Z) (terms : list LexiconTerm)
  : list LexiconTerm * bool :=
  match terms with
  | [] => ([], false)
  | term :: rest =>
      let oldStart := start (term_character_positions term) in
      let oldEnd := end_ (term_character_positions term) in
      let newStart := mapping oldStart in
      let newEnd := mapping oldEnd in
      let '(rest', positionsChanged) := map_loop mapping rest in
      if negb (newStart =? oldStart) || negb (newEnd =? oldEnd)
      then (with_positions term newStart newEnd :: rest', true)
      else (term :: rest', positionsChanged)
  end.

Definition mapTermPositions (terms : list LexiconTerm) (mapping : Z -> Z)
  : list LexiconTerm * bool :=
  map_loop mapping terms.

Definition cursor_inside (position : Z) (term : LexiconTerm) : bool :=
  (start (term_character_positions term) <? position) &&
  (position <=? end_ (term_character_positions term)).

Record EditedResult : Type := mkEdited {
  edited_terms : list LexiconTerm;
  edited_changed : bool;
  outdatedTerms : list LexiconTerm
}.

Definition outdate_step (acc : list LexiconTerm * list LexiconTerm)
    (index : nat) : list LexiconTerm * list LexiconTerm :=
  let '(updatedTerms, outdatedList) := acc in
  match nth_error updatedTerms index with
  | Some term =>
      let outdatedTerm := with_outdated term in
      (Js.update_at index (fun _ => outdatedTerm) updatedTerms,
       outdatedList ++ [outdatedTerm])
  | None => acc
  end.

Definition removeEditedTerms (terms : list LexiconTerm)
    (selection : option Selection) : EditedResult :=
  match selection with
  | None => mkEdited terms false []
  | Some sel =>
      if negb (empty sel) then mkEdited terms false []
      else
        let updatedTerms := terms in
        let termsToOutdate :=
          Js.indices_where (cursor_inside (from sel)) updatedTerms in
        if (length termsToOutdate =? 0)%nat
        then mkEdited updatedTerms false []
        else
          let indicesToUpdate := Js.sort_desc termsToOutdate in
          let '(updatedTerms, outdatedList) :=
            fold_left outdate_step indicesToUpdate (updatedTerms, []) in
          mkEdited updatedTerms true outdatedList
  end.

Definition invalid (docSize : Z) (term : LexiconTerm) : bool :=
  (end_ (term_character_positions term) <=? start (term_character_positions term))
  || (start (term_character_positions term) <? 1)
  || (docSize <? end_ (term_character_positions term)).

Definition removeInvalidTerms (terms : list LexiconTerm) (docSize : Z)
  : list LexiconTerm * bool :=
  let updatedTerms := terms in
  let termsToRemove := Js.indices_where (invalid docSize) updatedTerms in
  if (length termsToRemove =? 0)%nat
  then (updatedTerms, false)
  else
    let indicesToRemove := Js.sort_desc termsToRemove in
    (fold_left (fun arr index => Js.splice1 index arr)
               indicesToRemove updatedTerms,
     true).

Definition apply (tr : Transaction) (stored : list LexiconTerm)
  : list LexiconTerm * option (list LexiconTerm) :=
  if getMeta tr then (stored, None)
  else if docChanged tr then
    let terms := stored in
    let mappingResult := mapTermPositions terms (mapping tr) in
    let terms := fst mappingResult in
    let termsChanged := snd mappingResult in
    let removalResult := removeEditedTerms terms (selection tr) in
    let terms := edited_terms removalResult in
    let termsChanged := termsChanged || edited_changed removalResult in
    let invalidResult := removeInvalidTerms terms (doc_content_size tr) in
    let terms := fst invalidResult in
    let termsChanged := termsChanged || snd invalidResult in
    if termsChanged then (terms, Some terms)
    else (stored, None)
  else (stored, None).

(** ** Commands *)

Fixpoint adjust (nextDisplayIndex : Z) (terms : list LexiconTerm)
  : list LexiconTerm :=
  match terms with
  | [] => []
  | term :: rest =>
      let s0 := start (term_character_positions term) in
      let e0 := end_ (term_character_positions term) in
      let s := if s0 =? 0 then 1 else JsNumber.add s0 1 in
      let e := Z.max (JsNumber.add e0 1) (JsNumber.add s 1) in
      if truthy_number (term_displayIndex term)
      then {| word := word term;
              definition := definition term;
              usage_example := usage_example term;
              term_character_positions := mkSpan s e;
              term_displayIndex := term_displayIndex term;
              term_outdated := term_outdated term |}
           :: adjust nextDisplayIndex rest
      else {| word := word term;
              definition := definition term;
              usage_example := usage_example term;
              term_character_positions := mkSpan s e;
              term_displayIndex := Some nextDisplayIndex;
              term_outdated := term_outdated term |}
           :: adjust (nextDisplayIndex + 1) rest
  end.

Definition displayIndex_or_zero (term : LexiconTerm) : Z :=
  match term_displayIndex term with
  | Some n => n
  | None => 0
  end.

Definition setLexiconTerms (terms : list LexiconTerm)
    (stored : list LexiconTerm) : Outcome LexiconTerm :=
  (* editor.storage.lexiconDecorations.terms = [] *)
  let stored := @nil LexiconTerm in
  let currentTerms := stored in
  let maxDisplayIndex :=
    fold_left (fun max term => Z.max max (displayIndex_or_zero term))
              currentTerms 0 in
  let nextDisplayIndex := maxDisplayIndex + 1 in
  let adjustedTerms := adjust nextDisplayIndex terms in
  mkOutcome true adjustedTerms (Some adjustedTerms).

End Lexicon.

(* ===================================================================== *)
(** * Vocabulary of the properties                                        *)
(* ===================================================================== *)

Module Sequences.

(** [l] can be obtained from [l'] by dropping elements. *)
Inductive subsequence {A : Type} : list A -> list A -> Prop :=
| subsequence_nil : subsequence [] []
| subsequence_keep x l l' : subsequence l l' -> subsequence (x :: l) (x :: l')
| subsequence_drop x l l' : subsequence l l' -> subsequence l (x :: l').

End Sequences.

Module Text.
Import PhraseLocator.
Local Open Scope nat_scope.

(** [text.slice(i, j)]. *)
Definition slice (text : list ascii) (i j : nat) : list ascii :=
  firstn (j - i) (skipn i text).

(** Equality up to case, through [toLowerCase]. *)
Definition equal_ignoring_case (a b : list ascii) : Prop :=
  map toLowerCase_char a = map toLowerCase_char b.

(** The phrase has nothing but white space (the empty phrase included). *)
Definition blank (phrase : string) : bool :=
  forallb is_white_space (chars phrase).

(** A span that locates [phrase] in [text]: it lies inside the text, the text
    it covers is the phrase up to case, and it is not glued to a word
    character on either side. *)
Definition located (text phrase : list ascii) (s : Span) : Prop :=
  exists i : nat,
    start s = Z.of_nat i /\
    end_ s = Z.of_nat (i + length phrase) /\
    i + length phrase <= length text /\
    equal_ignoring_case (slice text i (i + length phrase)) phrase /\
    (forall j c, i = S j -> nth_error text j = Some c -> is_word_char c = false) /\
    (forall c, nth_error text (i + length phrase) = Some c ->
               is_word_char c = false).

(** Spans in ascending order that do not overlap, none of them empty. *)
Inductive ordered : Z -> list Span -> Prop :=
| ordered_nil lo : ordered lo []
| ordered_cons lo s l :
    (lo <= start s)%Z -> (start s < end_ s)%Z -> ordered (end_ s) l ->
    ordered lo (s :: l).

End Text.

Module Lifecycle.

(** The span of an indicator lies inside a document of size [docSize], at or
    after the first valid position, and is not empty. *)
Definition in_bounds (docSize : Z) (indicator : BiasIndicator) : Prop :=
  1 <= start (character_positions indicator)
  /\ start (character_positions indicator) < end_ (character_positions indicator)
  /\ end_ (character_positions indicator) <= docSize.

(** The indicator is rendered: it is not marked outdated. *)
Definition active (indicator : BiasIndicator) : Prop :=
  truthy_flag (outdated indicator) = false.

(** The start of the span can be moved one position to the right, and once
    more, without rounding: it lies between [-2^53] and [2^53 - 2]. *)
Definition start_shifts (indicator : BiasIndicator) : Prop :=
  - 2 ^ 53 <= start (character_positions indicator) < 2 ^ 53 - 1.

(** The position mapping moves one end of the indicator's span. *)
Definition moved (mapping : Z -> Z) (indicator : BiasIndicator) : bool :=
  negb (mapping (start (character_positions indicator))
          =? start (character_positions indicator))
  || negb (mapping (end_ (character_positions indicator))
             =? end_ (character_positions indicator)).

Definition remap (mapping : Z -> Z) (indicator : BiasIndicator) : BiasIndicator :=
  if moved mapping indicator
  then Bias.with_positions indicator
         (mapping (start (character_positions indicator)))
         (mapping (end_ (character_positions indicator)))
  else indicator.

Definition outdate (position : Z) (indicator : BiasIndicator) : BiasIndicator :=
  if Bias.cursor_inside position indicator
  then Bias.with_outdated indicator
  else indicator.

(** The second step of a reconciliation: a cursor outdates what it is
    inside of, a range or a missing selection outdates nothing. *)
Definition outdated_by (selection : option Selection)
    (indicators : list BiasIndicator) : list BiasIndicator :=
  match selection with
  | Some sel =>
      if empty sel then map (outdate (from sel)) indicators else indicators
  | None => indicators
  end.

(** [position >= start && position <= end]. *)
Definition covers (position : Z) (indicator : BiasIndicator) : bool :=
  (start (character_positions indicator) <=? position) &&
  (position <=? end_ (character_positions indicator)).

(** The selection is a cursor that sits inside the indicator. *)
Definition cursor_in (selection : option Selection) (indicator : BiasIndicator)
  : bool :=
  match selection with
  | Some sel => empty sel && Bias.cursor_inside (from sel) indicator
  | None => false
  end.

End Lifecycle.

(** The same vocabulary for lexicon terms. *)
Module TermLifecycle.

Definition moved (mapping : Z -> Z) (term : LexiconTerm) : bool :=
  negb (mapping (start (term_character_positions term))
          =? start (term_character_positions term))
  || negb (mapping (end_ (term_character_positions term))
             =? end_ (term_character_positions term)).

Definition remap (mapping : Z -> Z) (term : LexiconTerm) : LexiconTerm :=
  if moved mapping term
  then Lexicon.with_positions term
         (mapping (start (term_character_positions term)))
         (mapping (end_ (term_character_positions term)))
  else term.

Definition outdate (position : Z) (term : LexiconTerm) : LexiconTerm :=
  if Lexicon.cursor_inside position term
  then Lexicon.with_outdated term
  else term.

End TermLifecycle.

(** The operations of a bias annotation session, as they reach the stored
    collection. *)
Module Session.

Inductive Operation : Type :=
| SetAnnotations (candidates : list BiasIndicator) (normalize : option bool)
| Clear
| RemoveAt (index : Z)
| RemoveAtDocumentPosition (position : Z)
| Reconcile (tr : Transaction).

Definition step (stored : list BiasIndicator) (op : Operation)
  : list BiasIndicator :=
  match op with
  | SetAnnotations candidates normalize =>
      storage (Bias.setBiasIndicators candidates normalize stored)
  | Clear => storage (Bias.clearBiasIndicators stored)
  | RemoveAt index => storage (Bias.removeBiasIndicator index stored)
  | RemoveAtDocumentPosition position =>
      storage (Bias.removeBiasIndicatorAtPosition position stored)
  | Reconcile tr => fst (Bias.apply tr stored)
  end.

(** A session starts with an empty collection. *)
Definition run (ops : list Operation) : list BiasIndicator :=
  fold_left step ops [].

(** An edit: a transaction that changes the document and does not come from
    one of the extension's own commands. *)
Definition edit (mapping : Z -> Z) (selection : option Selection) (docSize : Z)
  : Transaction :=
  {| getMeta := false; docChanged := true; mapping := mapping;
     selection := selection; doc_content_size := docSize |}.

End Session.

Module Limiting.

(** The candidate belongs to the category [key]. *)
Definition has_key (key : string) (indicator : RawBiasIndicator) : bool :=
  String.eqb key (raw_bias_indicator_key indicator).

(** The category [key] is subject to the limit: it is listed in
    [keysToLimit] or, when that list is empty or missing, it is the category
    of some candidate. *)
Definition limited (keysToLimit : option (list string))
    (indicators : list RawBiasIndicator) (key : string) : bool :=
  match keysToLimit with
  | Some (k :: ks) => CategoryLimiter.set_has (k :: ks) key
  | _ => CategoryLimiter.set_has (map raw_bias_indicator_key indicators) key
  end.

(** How many of the groups contribute something under [h]. *)
Fixpoint contributing {A B : Type} (h : A -> list B) (groups : list A) : nat :=
  match groups with
  | [] => 0
  | g :: rest =>
      match h g with
      | [] => contributing h rest
      | _ => S (contributing h rest)
      end
  end.

(** What [grouped] holds once the candidates [seen] have gone through the
    [reduce]: one property per category, with that category's candidates in
    input order. *)
Definition groups_of (seen : list RawBiasIndicator)
    (grouped : JsObject.t (list RawBiasIndicator)) : Prop :=
  NoDup (map fst grouped) /\
  forall key,
    JsObject.get_own key grouped
    = match filter (has_key key) seen with
      | [] => None
      | group => Some group
      end.

End Limiting.

(** What the two engines have in common: the span and the outdated flag of an
    annotation, whatever else it carries. *)
Module View.

Record t : Type := mk { span : Span; flag : option bool }.

Definition of_indicator (a : BiasIndicator) : t :=
  mk (character_positions a) (outdated a).

Definition of_term (a : LexiconTerm) : t :=
  mk (term_character_positions a) (term_outdated a).

End View.

Module Correspondence.

(** An indicator and a term with the same span and the same flag. *)
Definition alike (a : BiasIndicator) (x : LexiconTerm) : Prop :=
  View.of_indicator a = View.of_term x.

End Correspondence.

Module Occurrences.

(** The case-folded phrase of a candidate: the key of its counter. *)
Definition folded (c : RawBiasIndicator) : string :=
  PhraseLocator.toLowerCase (raw_detected_phrase c).

(** The candidate arrives without a span and its folded phrase is [q]. *)
Definition counts (q : string) (c : RawBiasIndicator) : bool :=
  match raw_character_positions c with
  | Some _ => false
  | None => String.eqb (folded c) q
  end.

(** How many candidates of [l] arrive without a span for the folded phrase
    [q]. *)
Definition occurrences (q : string) (l : list RawBiasIndicator) : nat :=
  length (filter (counts q) l).

(** The span the occurrence rule gives to the [i]-th candidate (counted from
    1) of a phrase: the match number [min i k] of its [k >= 1] matches, or
    the fallback span when there is no match. *)
Definition assigned (text : string) (phrase : string) (i : nat) : option Span :=
  let positions := PhraseLocator.findPhrasePositions text phrase in
  match positions with
  | [] => Some (mkSpan 0 (Z.max 1 (Z.of_nat (String.length phrase))))
  | _ => nth_error positions (Nat.min i (length positions) - 1)
  end.

(** After the candidates [seen], the counter of a folded phrase that has
    matches, and is no inherited name, holds the number of candidates seen
    without a span for it; it is [undefined] as long as there was none. *)
Definition counted (text : string) (seen : list RawBiasIndicator)
    (count : Bootstrap.Counter) : Prop :=
  forall c,
    JsObject.inherited (folded c) = false ->
    PhraseLocator.findPhrasePositions text (raw_detected_phrase c) <> [] ->
    Bootstrap.read (folded c) count
    = match occurrences (folded c) seen with
      | O => None
      | S n => Some (Bootstrap.CNumber (Z.of_nat (S n)))
      end.

End Occurrences.


(* ===================================================================== *)
(** * analysisHelpers.ts on strings of any script

    The strings of the modules above hold code units below 256, for which
    the case mappings are written out.  The client offers Greek, Finnish,
    Portuguese and Czech besides English.  In this module a string is a
    sequence of UTF-16 code units of any script, and the two case mappings
    that the code uses come from outside, as the Unicode tables do:
      - the upper-case mapping of a one-character string, from which a
        pattern with the flag [i] and without the flag [u] builds its
        [Canonicalize];
      - [String.prototype.toLowerCase], which maps whole strings (it looks
        at the context of a letter and may change the length).
    Everything that is proved about the definitions of this module holds for
    every such pair of mappings. *)
(* ===================================================================== *)

Module Utf16.

Local Open Scope nat_scope.

(** The code units of a string written in the notation of this file. *)
Definition code_units (s : string) : list N :=
  map N_of_ascii (list_ascii_of_string s).

Definition in_range (lo hi n : N) : bool := ((lo <=? n) && (n <=? hi))%N.

(** The characters of [\w]: [[A-Za-z0-9_]]. *)
Definition is_basic_word_char (ch : N) : bool :=
  in_range 65 90 ch || in_range 97 122 ch || in_range 48 57 ch || (ch =? 95)%N.

Definition basic_word_chars : list N :=
  map N.of_nat (seq 48 10 ++ seq 65 26 ++ [95] ++ seq 97 26).

(** White space and line terminators, which [String.prototype.trim]
    removes: TAB to CR, SP, NBSP, U+1680, U+2000 to U+200A, LS, PS, U+202F,
    U+205F, U+3000 and U+FEFF. *)
Definition is_white_space (ch : N) : bool :=
  in_range 9 13 ch || (ch =? 32)%N || (ch =? 160)%N || (ch =? 5760)%N
  || in_range 8192 8202 ch || (ch =? 8232)%N || (ch =? 8233)%N
  || (ch =? 8239)%N || (ch =? 8287)%N || (ch =? 12288)%N || (ch =? 65279)%N.

Fixpoint drop_white_space (l : list N) : list N :=
  match l with
  | [] => []
  | c :: rest => if is_white_space c then drop_white_space rest else l
  end.

Definition trim (l : list N) : list N :=
  rev (drop_white_space (rev (drop_white_space l))).

(** [!phrase || phrase.trim() === '']. *)
Definition is_blank (phrase : list N) : bool :=
  match phrase with
  | [] => true
  | _ => match trim phrase with [] => true | _ => false end
  end.

(** ** The pattern

    The characters of [[.*+?^${}()|[\]\\]], which
    [phrase.replace(..., '\\$&')] puts a backslash (92) before. *)
Definition is_syntax_char (ch : N) : bool :=
  existsb (N.eqb ch)
    [46; 42; 43; 63; 94; 36; 123; 125; 40; 41; 124; 91; 93; 92]%N.

Fixpoint escape (phrase : list N) : list N :=
  match phrase with
  | [] => []
  | c :: rest =>
      if is_syntax_char c then 92%N :: c :: escape rest
      else c :: escape rest
  end.

(** The pattern text between the two look-around assertions, read back as a
    sequence of literal characters: [\c] for a syntax character [c] stands
    for [c], any other code unit but a syntax character stands for itself.
    Anything else is outside the fragment and is not compiled. *)
Fixpoint parse_literals (pattern : list N) : option (list N) :=
  match pattern with
  | [] => Some []
  | c :: rest =>
      if (c =? 92)%N then
        match rest with
        | d :: rest' =>
            if is_syntax_char d
            then option_map (cons d) (parse_literals rest')
            else None
        | [] => None
        end
      else if is_syntax_char c then None
      else option_map (cons c) (parse_literals rest)
  end.

Section CaseTables.

(** [toUppercase ch]: the code units of the upper-case form that the
    Unicode Default Case Conversion gives to the string that consists of
    the code unit [ch]. *)
Variable toUppercase : N -> list N.

(** [Canonicalize(ch)] for a pattern with the flag [i] and without the flag
    [u]: the upper-case form when it is a single code unit, unless it would
    take a code unit from 128 on to one below 128. *)
Definition canonicalize (ch : N) : N :=
  match toUppercase ch with
  | [cu] => if ((128 <=? ch) && (cu <? 128))%N then ch else cu
  | _ => ch
  end.

(** [\w] against the code unit [ch], with the flag [i]: some character of
    the class has the canonical form of [ch]. *)
Definition word_matches (ch : N) : bool :=
  existsb (fun a => (canonicalize a =? canonicalize ch)%N) basic_word_chars.

(** [(?<!\w)] at index [i]. *)
Definition lookbehind_ok (text : list N) (i : nat) : bool :=
  match i with
  | O => true
  | S j =>
      match nth_error text j with
      | Some c => negb (word_matches c)
      | None => true
      end
  end.

(** The literals against the input, code unit by code unit; returns what
    follows the match. *)
Fixpoint match_literals (literals input : list N) : option (list N) :=
  match literals with
  | [] => Some input
  | p :: literals' =>
      match input with
      | [] => None
      | c :: input' =>
          if (canonicalize p =? canonicalize c)%N
          then match_literals literals' input'
          else None
      end
  end.

(** [(?!\w)] on what follows the match. *)
Definition lookahead_ok (rest : list N) : bool :=
  match rest with
  | [] => true
  | c :: _ => negb (word_matches c)
  end.

Definition match_at (text literals : list N) (i : nat) : bool :=
  lookbehind_ok text i &&
  match match_literals literals (skipn i text) with
  | Some rest => lookahead_ok rest
  | None => false
  end.

Fixpoint first_match (text literals : list N) (i n : nat) : option nat :=
  match n with
  | O => None
  | S n' =>
      if match_at text literals i then Some i
      else first_match text literals (S i) n'
  end.

(** [regex.exec(text)] with the flag [g], from [lastIndex]. *)
Definition regex_exec (text literals : list N) (lastIndex : nat) : option nat :=
  if length text <? lastIndex then None
  else first_match text literals lastIndex (S (length text - lastIndex)).

(** [while ((match = regex.exec(text)) !== null) positions.push(...)];
    [None] when the fuel runs out before [exec] returns [null]. *)
Fixpoint exec_loop (fuel : nat) (text literals : list N) (lastIndex : nat)
  : option (list Span) :=
  match fuel with
  | O => None
  | S fuel' =>
      match regex_exec text literals lastIndex with
      | None => Some []
      | Some index =>
          let stop := index + length literals in
          option_map (cons (mkSpan (Z.of_nat index) (Z.of_nat stop)))
                     (exec_loop fuel' text literals stop)
      end
  end.

Definition findPhrasePositions_fuel (fuel : nat) (text phrase : list N)
  : option (list Span) :=
  if is_blank phrase then Some []
  else
    match parse_literals (escape phrase) with
    | Some literals => exec_loop fuel text literals 0
    | None => None
    end.

Definition findPhrasePositions (text phrase : list N) : list Span :=
  match findPhrasePositions_fuel (S (length text)) text phrase with
  | Some positions => positions
  | None => []
  end.

End CaseTables.

(** ** filterIndicatorsInText *)

(** [RawBiasIndicator]: a candidate as the analysis services return it. *)
Record RawBiasIndicator : Type := mkRaw {
  bias_indicator_key : list N;
  detected_phrase : list N;
  character_positions : option Span;
  confidence : option (list N)
}.

Fixpoint starts_with (text search : list N) {struct search} : bool :=
  match search with
  | [] => true
  | s :: search' =>
      match text with
      | [] => false
      | c :: text' => (c =? s)%N && starts_with text' search'
      end
  end.

(** [text.includes(search)]. *)
Fixpoint includes (text search : list N) : bool :=
  starts_with text search ||
  match text with
  | [] => false
  | _ :: rest => includes rest search
  end.

Section Filtering.

(** [String.prototype.toLowerCase]. *)
Variable toLowerCase : list N -> list N.

(** The callback of the [filter]. *)
Definition keeps (text : list N) (indicator : RawBiasIndicator) : bool :=
  match character_positions indicator with
  | Some _ => true
  | None =>
      if is_blank (detected_phrase indicator) then false
      else
        let lowerText := toLowerCase text in
        let lowerPhrase := toLowerCase (detected_phrase indicator) in
        includes lowerText lowerPhrase
  end.

Definition filterIndicatorsInText (indicators : list RawBiasIndicator)
    (text : list N) : list RawBiasIndicator :=
  filter (keeps text) indicators.

End Filtering.

End Utf16.

(** [addCharacterPositions] on strings of code units.  The values that a
    property of [phraseOccurrenceCount] can read as, and the arithmetic on
    them, are those of the module [Bootstrap]. *)
Module Utf16Bootstrap.
Import Utf16.
Local Open Scope nat_scope.

(** [a === b] on strings. *)
Fixpoint same_string (a b : list N) : bool :=
  match a, b with
  | [], [] => true
  | x :: a', y :: b' => (x =? y)%N && same_string a' b'
  | _, _ => false
  end.

(** The key is a property name that every object literal inherits. *)
Definition inherited (key : list N) : bool :=
  existsb (fun name => same_string key (code_units name))
          JsObject.object_prototype_keys.

(** The own properties of [phraseOccurrenceCount]. *)
Definition Counter : Type := list (list N * Bootstrap.CounterValue).

Fixpoint get_own (key : list N) (o : Counter) : option Bootstrap.CounterValue :=
  match o with
  | [] => None
  | (k, v) :: rest => if same_string key k then Some v else get_own key rest
  end.

Fixpoint set_own (key : list N) (v : Bootstrap.CounterValue) (o : Counter)
  : Counter :=
  match o with
  | [] => [(key, v)]
  | (k, w) :: rest =>
      if same_string key k then (k, v) :: rest
      else (k, w) :: set_own key v rest
  end.

(** [phraseOccurrenceCount[phrase]]; [None] is [undefined]. *)
Definition read (phrase : list N) (count : Counter)
  : option Bootstrap.CounterValue :=
  match get_own phrase count with
  | Some v => Some v
  | None => if inherited phrase then Some Bootstrap.CInherited else None
  end.

(** [phraseOccurrenceCount[phrase] = v]: the setter of [__proto__] creates
    no own property. *)
Definition write (phrase : list N) (v : Bootstrap.CounterValue)
    (count : Counter) : Counter :=
  if same_string phrase (code_units "__proto__") then count
  else set_own phrase v count.

Section CaseTables.
Variable toUppercase : N -> list N.
Variable toLowerCase : list N -> list N.

(** The body of the [map] callback, threading [phraseOccurrenceCount]. *)
Definition position_indicator (text : list N) (count : Counter)
    (indicator : RawBiasIndicator) : RawBiasIndicator * Counter :=
  match character_positions indicator with
  | Some _ => (indicator, count)
  | None =>
      let positions :=
        findPhrasePositions toUppercase text (detected_phrase indicator) in
      if 0 <? length positions then
        let phrase := toLowerCase (detected_phrase indicator) in
        let count1 := write phrase (Bootstrap.or_zero (read phrase count)) count in
        let positionIndex :=
          Bootstrap.math_min (read phrase count1)
                             (Z.of_nat (length positions) - 1) in
        let count2 :=
          write phrase (Bootstrap.increment (read phrase count1)) count1 in
        ({| bias_indicator_key := bias_indicator_key indicator;
            detected_phrase := detected_phrase indicator;
            character_positions := Bootstrap.element positions positionIndex;
            confidence := confidence indicator |},
         count2)
      else
        ({| bias_indicator_key := bias_indicator_key indicator;
            detected_phrase := detected_phrase indicator;
            character_positions :=
              Some (mkSpan 0 (Z.max 1 (Z.of_nat
                      (length (detected_phrase indicator)))));
            confidence := confidence indicator |},
         count)
  end.

Fixpoint map_indicators (text : list N) (count : Counter)
    (indicators : list RawBiasIndicator) : list RawBiasIndicator :=
  match indicators with
  | [] => []
  | indicator :: rest =>
      let '(positioned, count') := position_indicator text count indicator in
      positioned :: map_indicators text count' rest
  end.

(** [addCharacterPositions(indicators, text)]; what the callback stores in
    [character_positions] can be [undefined], so the field stays
    optional. *)
Definition addCharacterPositions (indicators : list RawBiasIndicator)
    (text : list N) : list RawBiasIndicator :=
  map_indicators text [] indicators.

(** The candidate arrives without a span, its phrase has a match in the
    text, and the lower-case form of its phrase is [q]: it is one of those
    that the counter of [q] counts. *)
Definition counts (text q : list N) (c : RawBiasIndicator) : bool :=
  match character_positions c with
  | Some _ => false
  | None =>
      same_string (toLowerCase (detected_phrase c)) q &&
      (0 <? length (findPhrasePositions toUppercase text (detected_phrase c)))
  end.

Definition occurrences (text q : list N) (l : list RawBiasIndicator) : nat :=
  length (filter (counts text q) l).

(** After the candidates [seen], the counter of a key that is no inherited
    name holds the number of candidates that it counts; it is [undefined]
    as long as there was none. *)
Definition counted (text : list N) (seen : list RawBiasIndicator)
    (count : Counter) : Prop :=
  forall q,
    inherited q = false ->
    read q count
    = match occurrences text q seen with
      | O => None
      | S n => Some (Bootstrap.CNumber (Z.of_nat (S n)))
      end.

End CaseTables.

End Utf16Bootstrap.

(** Vocabulary for strings of code units. *)
Module Utf16Text.
Import Utf16.
Local Open Scope nat_scope.

(** [text.slice(i, j)]. *)
Definition slice (text : list N) (i j : nat) : list N :=
  firstn (j - i) (skipn i text).

(** The phrase has nothing but white space (the empty phrase included). *)
Definition blank (phrase : list N) : bool := forallb is_white_space phrase.

Section CaseTables.
Variable toUppercase : N -> list N.

(** Equality up to case as a pattern with the flag [i] sees it: the two
    strings have the same canonical form, code unit by code unit. *)
Definition equal_under_case (a b : list N) : Prop :=
  map (canonicalize toUppercase) a = map (canonicalize toUppercase) b.

(** No word character: [\w] does not match the code unit, which is then none
    of [[A-Za-z0-9_]]. *)
Definition no_word_char (c : N) : Prop :=
  word_matches toUppercase c = false /\ is_basic_word_char c = false.

(** A span that locates [phrase] in [text]: it lies inside the text, the
    text it covers is the phrase up to case, and no word character touches
    it on either side. *)
Definition located (text phrase : list N) (s : Span) : Prop :=
  exists i : nat,
    start s = Z.of_nat i /\
    end_ s = Z.of_nat (i + length phrase) /\
    i + length phrase <= length text /\
    equal_under_case (slice text i (i + length phrase)) phrase /\
    (forall j c, i = S j -> nth_error text j = Some c -> no_word_char c) /\
    (forall c, nth_error text (i + length phrase) = Some c -> no_word_char c).

(** The phrase occurs at offset [i], up to case, and [\w] matches neither
    the code unit before the occurrence nor the one after it. *)
Definition bounded_at (text phrase : list N) (i : nat) : Prop :=
  i + length phrase <= length text /\
  equal_under_case (slice text i (i + length phrase)) phrase /\
  (forall j c, i = S j -> nth_error text j = Some c ->
               word_matches toUppercase c = false) /\
  (forall c, nth_error text (i + length phrase) = Some c ->
             word_matches toUppercase c = false).

End CaseTables.

(** [search] is a block of [text], at offset [i]. *)
Definition block_at (text search : list N) (i : nat) : Prop :=
  i + length search <= length text /\
  slice text i (i + length search) = search.

(** Upper-casing treats Basic Latin as ASCII does. *)
Definition basic_latin (toUppercase : N -> list N) : Prop :=
  forall ch, (ch < 128)%N ->
    toUppercase ch = [if in_range 97 122 ch then (ch - 32)%N else ch].

(** A table for examples: the capitals of the small letters of Basic Latin
    and of those small letters of modern Greek (U+03AC to U+03CE) that have
    a capital of one code unit, the final sigma (962) going to the capital
    sigma (931) as the sigma (963) does, and the capital S (83) of the
    long s (383); every other code unit is left alone. *)
Definition sample_toUppercase (ch : N) : list N :=
  if in_range 97 122 ch then [ch - 32]%N
  else if (ch =? 383)%N then [83]%N
  else if in_range 945 961 ch then [ch - 32]%N
  else if (ch =? 962)%N then [931]%N
  else if in_range 963 971 ch then [ch - 32]%N
  else if (ch =? 940)%N then [902]%N
  else if in_range 941 943 ch then [ch - 37]%N
  else if (ch =? 972)%N then [908]%N
  else if in_range 973 974 ch then [ch - 63]%N
  else [ch].

(** Lower-casing for examples: the capitals of Basic Latin go to their small
    letters and every other code unit is left alone, as
    [String.prototype.toLowerCase] does on a string that has no capital
    outside Basic Latin. *)
Definition sample_lower (ch : N) : N :=
  if in_range 65 90 ch then (ch + 32)%N else ch.

Definition sample_toLowerCase (s : list N) : list N := map sample_lower s.

End Utf16Text.

(* ===================================================================== *)
(** * Further parts of the client

    The embedding continues with what surrounds the functions above:
      - [filterIndicatorsInText] of [web/src/services/analysisHelpers.ts];
      - what [analyzeBiasIndicators] ([web/src/services/biasAnalysis.ts]),
        [analyzeLLMIndicators] and [analyzeLexiconTerms] do with the answer
        of their service, once it has arrived;
      - the remaining commands of [web/src/extensions/LexiconDecorations.ts];
      - [createDecorations] of [web/src/extensions/BiasDecorations.ts];
      - the hover test of [web/src/extensions/BiasTextHover.ts];
      - [escapeHtml] of [web/src/utils/pdfExtractor.ts].
    Requests to the services, the DOM and the editor view are left out. *)
(* ===================================================================== *)

From Stdlib Require Import Sorted.

(* ===================================================================== *)
(** * analysisHelpers.ts: filterIndicatorsInText                          *)
(* ===================================================================== *)

Module Filter.
Import PhraseLocator.

(** [text.startsWith(search)], the test [includes] makes at each position. *)
Fixpoint starts_with (text search : list ascii) {struct search} : bool :=
  match search with
  | [] => true
  | s :: search' =>
      match text with
      | [] => false
      | c :: text' => Ascii.eqb c s && starts_with text' search'
      end
  end.

(** [text.includes(search)]. *)
Fixpoint includes (text search : list ascii) : bool :=
  starts_with text search ||
  match text with
  | [] => false
  | _ :: rest => includes rest search
  end.

(** The callback of the [filter]. *)
Definition keeps (text : string) (indicator : RawBiasIndicator) : bool :=
  match raw_character_positions indicator with
  | Some _ => true
  | None =>
      if is_blank (raw_detected_phrase indicator) then false
      else
        let lowerText := toLowerCase text in
        let lowerPhrase := toLowerCase (raw_detected_phrase indicator) in
        includes (chars lowerText) (chars lowerPhrase)
  end.

Definition filterIndicatorsInText (indicators : list RawBiasIndicator)
    (text : string) : list RawBiasIndicator :=
  filter (keeps text) indicators.

End Filter.

(* ===================================================================== *)
(** * The analysis services: what happens to the candidates received      *)
(* ===================================================================== *)

Module Analysis.
Import CategoryLimiter Bootstrap Filter.

(** [biasAnalysis.ts], [analyzeBiasIndicators], from the point where
    [rawData] holds the candidates the service answered with. *)
Definition analyzeBiasIndicators (rawData : list RawBiasIndicator)
    (text : string) : Completion (list RawBiasIndicator) :=
  match limitIndicatorsByKey rawData (Some ["sarcasm"; "passiveVoice"]%string)
                             (Some 3) with
  | Normal finalData => Normal (addCharacterPositions finalData text)
  | Throw e => Throw e
  end.

(** [set.add(key)] on the elements of a [Set] in insertion order. *)
Definition set_add (elements : list string) (key : string) : list string :=
  if set_has elements key then elements else elements ++ [key].

(** [[...new Set(keys)]]. *)
Definition spread_new_Set (keys : list string) : list string :=
  fold_left set_add keys [].

(** [analyzeLLMIndicators], from the point where [rawData] holds the
    candidates the service answered with; the result is the [indicators]
    field of the object it returns. *)
Definition analyzeLLMIndicators (rawData : list RawBiasIndicator)
    (text : string) : Completion (list RawBiasIndicator) :=
  let filteredBiasIndicators := filterIndicatorsInText rawData text in
  let allIndicatorKeys :=
    spread_new_Set (map raw_bias_indicator_key filteredBiasIndicators) in
  match limitIndicatorsByKey filteredBiasIndicators (Some allIndicatorKeys)
                             (Some 3) with
  | Normal limitedBiasIndicators =>
      Normal (addCharacterPositions limitedBiasIndicators text)
  | Throw e => Throw e
  end.

End Analysis.

(* ===================================================================== *)
(** * extensions/LexiconDecorations.ts: the other commands                *)
(* ===================================================================== *)

Module LexiconCommands.

Definition clearLexiconTerms (stored : list LexiconTerm) : Outcome LexiconTerm :=
  mkOutcome true [] (Some []).

Definition removeLexiconTerm (index : Z) (stored : list LexiconTerm)
  : Outcome LexiconTerm :=
  let terms := stored in
  if (0 <=? index) && (index <? Z.of_nat (length terms)) then
    let terms := Js.splice1 (Z.to_nat index) terms in
    mkOutcome true terms (Some terms)
  else mkOutcome false stored None.

(** The loop of [removeLexiconTermAtPosition]: [count] indices remain to be
    visited, from [count - 1] down to [0]. *)
Fixpoint remove_loop (position : Z) (count : nat) (terms : list LexiconTerm)
    (termRemoved : bool) : list LexiconTerm * bool :=
  match count with
  | O => (terms, termRemoved)
  | S i =>
      match nth_error terms i with
      | Some term =>
          if (start (term_character_positions term) <=? position) &&
             (position <=? end_ (term_character_positions term))
          then remove_loop position i (Js.splice1 i terms) true
          else remove_loop position i terms termRemoved
      | None => remove_loop position i terms termRemoved
      end
  end.

Definition removeLexiconTermAtPosition (position : Z)
    (stored : list LexiconTerm) : Outcome LexiconTerm :=
  let '(terms, termRemoved) :=
    remove_loop position (length stored) stored false in
  if termRemoved then mkOutcome true terms (Some terms)
  else mkOutcome false stored None.

End LexiconCommands.

(* ===================================================================== *)
(** * The lexicon service: the order of the terms it returns             *)
(* ===================================================================== *)

Module LexiconService.

(** [data.sort((a, b) => a.character_positions.start -
    b.character_positions.start)]: a stable sort. *)
Fixpoint insert_by_start (x : LexiconTerm) (l : list LexiconTerm)
  : list LexiconTerm :=
  match l with
  | [] => [x]
  | y :: rest =>
      if start (term_character_positions x) <=? start (term_character_positions y)
      then x :: l
      else y :: insert_by_start x rest
  end.

Definition sort_by_start (l : list LexiconTerm) : list LexiconTerm :=
  fold_right insert_by_start [] l.

(** [analyzeLexiconTerms], from the point where [data] holds the terms the
    service answered with. *)
Definition analyzeLexiconTerms (data : list LexiconTerm) : list LexiconTerm :=
  sort_by_start data.

End LexiconService.

(* ===================================================================== *)
(** * extensions/BiasDecorations.ts: createDecorations                    *)
(* ===================================================================== *)

Module Rendering.

(** What [createDecorations] builds: an inline decoration over a span, with
    its [data-bias-index] attribute, and a widget at a position, whose
    marker is drawn from the indicator when the editor renders it. *)
Inductive Decoration : Type :=
| Inline (from to : Z) (data_bias_index : nat)
| Widget (pos : Z) (indicator : BiasIndicator).

(** [.map((indicator, index) => ({ indicator, index }))] from [index] on. *)
Fixpoint with_index (index : nat) (l : list BiasIndicator)
  : list (BiasIndicator * nat) :=
  match l with
  | [] => []
  | indicator :: rest => (indicator, index) :: with_index (S index) rest
  end.

(** [allIndicators.sort((a, b) => a.indicator.character_positions.start -
    b.indicator.character_positions.start)]: a stable sort. *)
Fixpoint insert_by_start (x : BiasIndicator * nat)
    (l : list (BiasIndicator * nat)) : list (BiasIndicator * nat) :=
  match l with
  | [] => [x]
  | y :: rest =>
      if start (character_positions (fst x)) <=? start (character_positions (fst y))
      then x :: l
      else y :: insert_by_start x rest
  end.

Definition sort_by_start (l : list (BiasIndicator * nat))
  : list (BiasIndicator * nat) :=
  fold_right insert_by_start [] l.

(** The two decorations pushed for one entry of [allIndicators]. *)
Definition decorate (entry : BiasIndicator * nat) : list Decoration :=
  let '(indicator, index) := entry in
  let from := start (character_positions indicator) in
  let to := end_ (character_positions indicator) in
  [Inline from to index; Widget to indicator].

Definition createDecorations (indicators : list BiasIndicator)
  : list Decoration :=
  match indicators with
  | [] => []
  | _ =>
      let allIndicators :=
        with_index 0
          (filter (fun indicator => negb (truthy_flag (outdated indicator)))
                  indicators) in
      let allIndicators := sort_by_start allIndicators in
      flat_map decorate allIndicators
  end.

(** The body of a widget, when it is rendered:
    [indicator.displayIndex || nextAvailableIndex++].  Returns the number
    shown in the marker and the new value of [nextAvailableIndex]. *)
Definition marker (indicator : BiasIndicator) (nextAvailableIndex : Z) : Z * Z :=
  match displayIndex indicator with
  | Some d => if negb (d =? 0) then (d, nextAvailableIndex)
              else (nextAvailableIndex, nextAvailableIndex + 1)
  | None => (nextAvailableIndex, nextAvailableIndex + 1)
  end.

End Rendering.

(* ===================================================================== *)
(** * extensions/BiasTextHover.ts                                         *)
(* ===================================================================== *)

Module Hover.

(** The indicators that contain the hover position. *)
Definition hoveredIndicators (hoverPos : Z) (biasIndicators : list BiasIndicator)
  : list BiasIndicator :=
  filter (fun indicator =>
            let start := start (character_positions indicator) in
            let end_ := end_ (character_positions indicator) in
            (start <=? hoverPos) && (hoverPos <=? end_))
         biasIndicators.

(** [hoveredIndicators.some(ind => ind.displayIndex === displayIndex)] for
    the number read from a marker. *)
Definition isHovered (hoveredIndicators : list BiasIndicator) (displayIndex' : Z)
  : bool :=
  existsb (fun ind => match displayIndex ind with
                      | Some d => d =? displayIndex'
                      | None => false
                      end)
          hoveredIndicators.

End Hover.

(* ===================================================================== *)
(** * utils/pdfExtractor.ts: escapeHtml                                   *)
(* ===================================================================== *)

Module PdfExtractor.

(** [text.replace(/c/g, replacement)] for a pattern that is the single
    character [c]. *)
Definition replace_all (c : ascii) (replacement : string) (text : list ascii)
  : list ascii :=
  flat_map (fun x => if Ascii.eqb x c then list_ascii_of_string replacement
                     else [x])
           text.

(** The five passes, in the order of the source; ["034"] is the double
    quote. *)
Definition escapeHtml (text : string) : string :=
  string_of_list_ascii
    (replace_all "'" "&#039;"
      (replace_all "034" "&quot;"
        (replace_all ">" "&gt;"
          (replace_all "<" "&lt;"
            (replace_all "&" "&amp;" (list_ascii_of_string text)))))).

End PdfExtractor.

(* ===================================================================== *)
(** * Vocabulary of the further properties                                *)
(* ===================================================================== *)

Module Occurrence.
Import PhraseLocator Text.
Local Open Scope nat_scope.

(** The phrase occurs in the text at offset [i], up to case. *)
Definition occurs_at (text phrase : list ascii) (i : nat) : Prop :=
  i + length phrase <= length text /\
  equal_ignoring_case (slice text i (i + length phrase)) phrase.

End Occurrence.

Module Counters.
Import Bootstrap.

(** Every own property of the occurrence counter holds a count that is not
    negative, unless its name is one that every object inherits. *)
Definition sane (count : Counter) : Prop :=
  forall key v,
    JsObject.get_own key count = Some v ->
    JsObject.inherited key = true \/ exists n, v = CNumber n /\ 0 <= n.

(** The span given to a candidate whose phrase has no match. *)
Definition fallback (phrase : string) : Span :=
  mkSpan 0 (Z.max 1 (Z.of_nat (String.length phrase))).

(** [r] is the candidate [c], but for its span. *)
Definition same_candidate (r c : RawBiasIndicator) : Prop :=
  raw_bias_indicator_key r = raw_bias_indicator_key c /\
  raw_detected_phrase r = raw_detected_phrase c /\
  raw_confidence r = raw_confidence c.

End Counters.

Module Collections.

(** [a] does not end after [b]: the order [setBiasIndicators] sorts by. *)
Definition by_end (a b : BiasIndicator) : Prop :=
  end_ (character_positions a) <= end_ (character_positions b).

Definition ends_at (e : Z) (a : BiasIndicator) : bool :=
  end_ (character_positions a) =? e.

(** The span is a span of text offsets: it starts at or after [0], is not
    empty and ends below [2^53], so that adding one to its ends is exact. *)
Definition text_span (a : BiasIndicator) : Prop :=
  0 <= start (character_positions a)
  /\ start (character_positions a) < end_ (character_positions a)
  /\ end_ (character_positions a) < 2 ^ 53.

(** The indicator has a display index that [||] takes as given. *)
Definition numbered (a : BiasIndicator) : bool :=
  truthy_number (displayIndex a).

Definition unnumbered (a : BiasIndicator) : bool := negb (numbered a).

(** [a] is what has become of the stored indicator [b]: the same category,
    phrase, confidence and display index, and outdated if [b] was. *)
Definition descends (a b : BiasIndicator) : Prop :=
  bias_indicator_key a = bias_indicator_key b /\
  detected_phrase a = detected_phrase b /\
  confidence a = confidence b /\
  displayIndex a = displayIndex b /\
  (truthy_flag (outdated b) = true -> truthy_flag (outdated a) = true).

(** Candidates as the analysis services send them: none has a display
    index. *)
Definition fresh (candidates : list BiasIndicator) : Prop :=
  Forall (fun a => numbered a = false) candidates.

(** Candidates that all carry a display index, no two of them the same:
    a stored collection that is submitted again. *)
Definition labelled (candidates : list BiasIndicator) : Prop :=
  Forall (fun a => numbered a = true) candidates /\
  NoDup (map displayIndex candidates).

(** The operation does not mix candidates that have a display index with
    candidates that lack one. *)
Definition unmixed (op : Session.Operation) : Prop :=
  match op with
  | Session.SetAnnotations candidates _ => fresh candidates \/ labelled candidates
  | _ => True
  end.

End Collections.

Module CommandCorrespondence.
Import Correspondence.

(** Two command results that agree: the same boolean, and collections and
    notifications that are alike element by element. *)
Definition outcomes_agree (o : Outcome BiasIndicator) (o' : Outcome LexiconTerm)
  : Prop :=
  returned o = returned o' /\
  Forall2 alike (storage o) (storage o') /\
  match dispatched o, dispatched o' with
  | Some d, Some d' => Forall2 alike d d'
  | None, None => True
  | _, _ => False
  end.

End CommandCorrespondence.

Module Terms.

(** [a] does not start after [b]. *)
Definition by_start (a b : LexiconTerm) : Prop :=
  start (term_character_positions a) <= start (term_character_positions b).

Definition starts_at (s : Z) (a : LexiconTerm) : bool :=
  start (term_character_positions a) =? s.

(** The span is a span of text offsets: it starts at or after [0], is not
    empty and ends below [2^53], so that adding one to its ends is exact. *)
Definition in_text (a : LexiconTerm) : Prop :=
  0 <= start (term_character_positions a)
  /\ start (term_character_positions a) < end_ (term_character_positions a)
  /\ end_ (term_character_positions a) < 2 ^ 53.

(** [1; 2; ...; n] as display indices. *)
Definition numbers (n : nat) : list (option Z) :=
  map (fun i => Some (Z.of_nat i)) (seq 1 n).

End Terms.

Module Decorations.
Import Rendering.

(** The entry [a] does not start after the entry [b]. *)
Definition entry_by_start (a b : BiasIndicator * nat) : Prop :=
  start (character_positions (fst a)) <= start (character_positions (fst b)).

Definition shown (a : BiasIndicator) : bool := negb (truthy_flag (outdated a)).

End Decorations.

Module Html.

(** The entity that stands for a character in escaped text. *)
Definition entity (c : ascii) : list ascii :=
  if Ascii.eqb c "&" then list_ascii_of_string "&amp;"
  else if Ascii.eqb c "<" then list_ascii_of_string "&lt;"
  else if Ascii.eqb c ">" then list_ascii_of_string "&gt;"
  else if Ascii.eqb c "034" then list_ascii_of_string "&quot;"
  else if Ascii.eqb c "'" then list_ascii_of_string "&#039;"
  else [c].

(** The characters that open or close markup or an attribute value. *)
Definition is_markup (c : ascii) : bool :=
  Ascii.eqb c "<" || Ascii.eqb c ">" || Ascii.eqb c "034" || Ascii.eqb c "'".

(** The passes of [escapeHtml] on a sequence of characters. *)
Definition five_passes (l : list ascii) : list ascii :=
  PdfExtractor.replace_all "'" "&#039;"
    (PdfExtractor.replace_all "034" "&quot;"
      (PdfExtractor.replace_all ">" "&gt;"
        (PdfExtractor.replace_all "<" "&lt;"
          (PdfExtractor.replace_all "&" "&amp;" l)))).

End Html.

(** The own properties of an object in the order [Object.values] visits
    them, with their names. *)
Module Enumeration.
Import JsObject.

Section Entries.
Context {V : Type}.

Fixpoint insert_entry (e : N * (string * V)) (l : list (N * (string * V)))
  : list (N * (string * V)) :=
  match l with
  | [] => [e]
  | e' :: rest =>
      if (fst e <=? fst e')%N then e :: l else e' :: insert_entry e rest
  end.

(** The properties whose name is an array index, in ascending order. *)
Fixpoint index_entries (o : t V) : list (N * (string * V)) :=
  match o with
  | [] => []
  | (k, v) :: rest =>
      match array_index k with
      | Some n => insert_entry (n, (k, v)) (index_entries rest)
      | None => index_entries rest
      end
  end.

Definition is_named (entry : string * V) : bool :=
  match array_index (fst entry) with
  | Some _ => false
  | None => true
  end.

(** The other properties, in creation order. *)
Definition named_entries (o : t V) : list (string * V) := filter is_named o.

Definition enumerate (o : t V) : list (string * V) :=
  map snd (index_entries o) ++ named_entries o.

Definition by_index (a b : N * (string * V)) : Prop := (fst a <= fst b)%N.

(** The number of an indexed entry is the array index its name stands
    for. *)
Definition indexed (e : N * (string * V)) : Prop :=
  array_index (fst (snd e)) = Some (fst e).

End Entries.

(** What a group contributes under a limit, with its category; the groups
    that contribute nothing are left out. *)
Definition cut (maxPerKey : Z) (entry : string * list RawBiasIndicator)
  : string * list RawBiasIndicator :=
  (fst entry, Js.slice0 maxPerKey (snd entry)).

Definition contributes (entry : string * list RawBiasIndicator) : bool :=
  match snd entry with
  | [] => false
  | _ => true
  end.

(** A block of candidates of one category, which is no inherited name. *)
Definition block (entry : string * list RawBiasIndicator) : Prop :=
  snd entry <> [] /\
  inherited (fst entry) = false /\
  Forall (fun x => raw_bias_indicator_key x = fst entry) (snd entry).

End Enumeration.
(* ===================================================================== *)
(** * Facts about sums of doubles                                         *)
(* ===================================================================== *)

Module JsNumberFacts.
Import JsNumber.

(** Whole numbers up to [2^53] in absolute value are doubles. *)
Lemma round_exact z : - 2 ^ 53 <= z <= 2 ^ 53 -> round z = z.
Proof.
  intros H.
  destruct (Z.eq_dec z (2 ^ 53)) as [->|Hhi]; [vm_compute; reflexivity|].
  destruct (Z.eq_dec z (- 2 ^ 53)) as [->|Hlo]; [vm_compute; reflexivity|].
  assert (E : exponent z = 0).
  { unfold exponent. apply Z.max_l.
    destruct (Z.eq_dec (Z.abs z) 0) as [->|N]; [simpl; lia|].
    assert (Z.log2 (Z.abs z) < 53) by (apply Z.log2_lt_pow2; lia).
    lia. }
  unfold round. rewrite E. change (2 ^ 0) with 1.
  rewrite Z.div_1_r, Z.mod_1_r. simpl. lia.
Qed.

(** Adding one is exact as long as the sum is at most [2^53]. *)
Lemma add_one_exact x : - 2 ^ 53 <= x + 1 <= 2 ^ 53 -> add x 1 = x + 1.
Proof. intros H. unfold add. now apply round_exact. Qed.

(** At [2^53] it is not: the sum falls back on [2^53]. *)
Lemma add_one_at_limit : add (2 ^ 53) 1 = 2 ^ 53.
Proof. vm_compute. reflexivity. Qed.

End JsNumberFacts.

(* ===================================================================== *)
(** * Facts about the array helpers                                       *)
(* ===================================================================== *)

Module JsFacts.
Import Js.

Section Arrays.
Context {A : Type}.
Implicit Types (l pre : list A) (p : A -> bool).

Lemma splice1_app pre x l :
  splice1 (length pre) (pre ++ x :: l) = pre ++ l.
Proof.
  induction pre as [|y pre IH]; simpl; [reflexivity | now rewrite IH].
Qed.

Lemma update_at_app pre x l (f : A -> A) :
  update_at (length pre) f (pre ++ x :: l) = pre ++ f x :: l.
Proof.
  induction pre as [|y pre IH]; simpl; [reflexivity | now rewrite IH].
Qed.

Lemma nth_error_middle pre x l :
  nth_error (pre ++ x :: l) (length pre) = Some x.
Proof.
  induction pre as [|y pre IH]; simpl; [reflexivity | exact IH].
Qed.

Lemma splice1_firstn_skipn i l :
  splice1 i l = firstn i l ++ skipn (S i) l.
Proof.
  revert i; induction l as [|x l IH]; intros [|i]; simpl; try reflexivity.
  now rewrite IH.
Qed.

Lemma indices_from_lower i p l :
  Forall (fun j => (i <= j)%nat) (indices_from i p l).
Proof.
  revert i; induction l as [|x l IH]; intros i; simpl.
  - constructor.
  - assert (H : Forall (fun j => (i <= j)%nat) (indices_from (S i) p l)).
    { eapply Forall_impl; [|apply IH]. simpl. intros; lia. }
    destruct (p x); [constructor; [lia | exact H] | exact H].
Qed.

Lemma indices_from_nil i p l :
  indices_from i p l = [] <-> existsb p l = false.
Proof.
  revert i; induction l as [|x l IH]; intros i; simpl.
  - tauto.
  - destruct (p x); simpl.
    + split; discriminate.
    + apply IH.
Qed.

Lemma filter_none p l :
  existsb p l = false -> filter (fun x => negb (p x)) l = l.
Proof.
  induction l as [|x l IH]; simpl; [reflexivity|].
  destruct (p x); simpl; [discriminate|].
  intros H. now rewrite IH.
Qed.

Lemma map_none p (f : A -> A) l :
  existsb p l = false -> map (fun x => if p x then f x else x) l = l.
Proof.
  induction l as [|x l IH]; simpl; [reflexivity|].
  destruct (p x); simpl; [discriminate|].
  intros H. now rewrite IH.
Qed.

(** Splicing out, from the highest index down, the indices whose element
    satisfies [p] leaves the elements that do not. *)
Lemma splice_indices p pre l :
  fold_right (fun index arr => splice1 index arr) (pre ++ l)
             (indices_from (length pre) p l)
  = pre ++ filter (fun x => negb (p x)) l.
Proof.
  revert pre; induction l as [|x l IH]; intros pre; simpl.
  - reflexivity.
  - specialize (IH (pre ++ [x])).
    rewrite length_app, <- app_assoc in IH. simpl in IH.
    replace (length pre + 1)%nat with (S (length pre)) in IH by lia.
    destruct (p x); simpl.
    + rewrite IH, <- app_assoc. simpl. apply splice1_app.
    + rewrite IH, <- app_assoc. reflexivity.
Qed.
End Arrays.

Lemma insert_desc_last x l :
  Forall (fun y => (x < y)%nat) l -> insert_desc x l = l ++ [x].
Proof.
  induction 1 as [|y l Hy _ IH]; simpl; [reflexivity|].
  destruct (Nat.leb_spec y x); [lia | now rewrite IH].
Qed.

(** The index sets are filled in ascending order, so sorting them in
    descending order reverses them. *)
Lemma sort_desc_indices {A} i (p : A -> bool) l :
  sort_desc (indices_from i p l) = rev (indices_from i p l).
Proof.
  revert i; induction l as [|x l IH]; intros i; simpl; [reflexivity|].
  destruct (p x); [|apply IH].
  simpl. rewrite IH. apply insert_desc_last.
  apply Forall_rev. eapply Forall_impl; [|apply (indices_from_lower (S i))].
  simpl; intros; lia.
Qed.

Lemma fold_left_rev {A B} (f : A -> B -> A) l a :
  fold_left f (rev l) a = fold_right (fun x acc => f acc x) a l.
Proof.
  rewrite <- (rev_involutive l) at 2. now rewrite fold_left_rev_right.
Qed.

Lemma splice_sorted_indices {A} (p : A -> bool) l :
  fold_left (fun arr index => splice1 index arr)
            (sort_desc (indices_where p l)) l
  = filter (fun x => negb (p x)) l.
Proof.
  unfold indices_where. rewrite sort_desc_indices, fold_left_rev.
  exact (splice_indices p [] l).
Qed.

Lemma slice0_nonneg {A} n (l : list A) :
  0 <= n -> slice0 n l = firstn (Z.to_nat n) l.
Proof.
  intros H. unfold slice0. destruct (Z.ltb_spec n 0); [lia | reflexivity].
Qed.

End JsFacts.

(* ===================================================================== *)
(** * The phrase locator                                                  *)
(* ===================================================================== *)

Module PhraseLocatorFacts.
Import PhraseLocator Text.
Local Open Scope nat_scope.

(** ** Code units, one by one *)

Ltac each_code_unit c :=
  destruct c as [[] [] [] [] [] [] [] []]; vm_compute; reflexivity.

Lemma canonicalize_toLowerCase c :
  canonicalize (toLowerCase_char c) = canonicalize c.
Proof. each_code_unit c. Qed.

Lemma toLowerCase_canonicalize c :
  toLowerCase_char (canonicalize c) = toLowerCase_char c.
Proof. each_code_unit c. Qed.

(** The pattern's notion of equality up to case is that of [toLowerCase]. *)
Lemma canonicalize_eq_iff a b :
  canonicalize a = canonicalize b <-> toLowerCase_char a = toLowerCase_char b.
Proof.
  split; intros H.
  - rewrite <- (toLowerCase_canonicalize a), H. apply toLowerCase_canonicalize.
  - rewrite <- (canonicalize_toLowerCase a), H. apply canonicalize_toLowerCase.
Qed.

Lemma syntax_char_not_backslash c :
  is_syntax_char c = false -> Ascii.eqb c "\"%char = false.
Proof.
  destruct (Ascii.eqb_spec c "\"%char) as [->|]; [discriminate | reflexivity].
Qed.

(** ** The pattern denotes the phrase *)

Lemma parse_escape phrase : parse_literals (escape phrase) = Some phrase.
Proof.
  induction phrase as [|c phrase IH]; [reflexivity|].
  cbn [escape]. destruct (is_syntax_char c) eqn:Hc.
  - cbn [parse_literals]. rewrite Hc, IH. reflexivity.
  - cbn [parse_literals]. rewrite (syntax_char_not_backslash c Hc), Hc, IH.
    reflexivity.
Qed.

(** ** White space *)

Lemma drop_white_space_nil l :
  drop_white_space l = [] <-> forallb is_white_space l = true.
Proof.
  induction l as [|c l IH]; simpl; [tauto|].
  destruct (is_white_space c); simpl; [exact IH|].
  split; discriminate.
Qed.

Lemma forallb_drop_white_space l :
  forallb is_white_space (drop_white_space l) = forallb is_white_space l.
Proof.
  induction l as [|c l IH]; simpl; [reflexivity|].
  destruct (is_white_space c) eqn:Hc; simpl; [exact IH|].
  now rewrite Hc.
Qed.

Lemma forallb_rev {A} (f : A -> bool) l : forallb f (rev l) = forallb f l.
Proof.
  induction l as [|x l IH]; simpl; [reflexivity|].
  rewrite forallb_app, IH. simpl. rewrite andb_true_r. apply andb_comm.
Qed.

Lemma trim_nil l : trim l = [] <-> forallb is_white_space l = true.
Proof.
  unfold trim. split.
  - intros H. apply (f_equal (@rev ascii)) in H.
    rewrite rev_involutive in H. simpl in H.
    apply drop_white_space_nil in H.
    now rewrite forallb_rev, forallb_drop_white_space in H.
  - intros H.
    assert (H' : drop_white_space (rev (drop_white_space l)) = []).
    { apply drop_white_space_nil.
      now rewrite forallb_rev, forallb_drop_white_space. }
    now rewrite H'.
Qed.

(** [!phrase || phrase.trim() === ''] says that the phrase is blank. *)
Lemma is_blank_blank phrase : is_blank phrase = blank phrase.
Proof.
  unfold is_blank, blank. destruct (chars phrase) as [|c l] eqn:E; [reflexivity|].
  destruct (trim (c :: l)) eqn:T.
  - symmetry. now apply trim_nil.
  - destruct (forallb is_white_space (c :: l)) eqn:F; [|reflexivity].
    apply trim_nil in F. congruence.
Qed.

(** ** One match *)

Lemma match_literals_sound literals input rest :
  match_literals literals input = Some rest ->
  exists matched,
    input = matched ++ rest /\
    length matched = length literals /\
    map canonicalize matched = map canonicalize literals.
Proof.
  revert input; induction literals as [|p literals IH]; intros input H.
  - exists []. simpl in H. injection H as <-. auto.
  - destruct input as [|c input]; simpl in H; [discriminate|].
    destruct (Ascii.eqb_spec (canonicalize p) (canonicalize c)) as [E|];
      [|discriminate].
    destruct (IH _ H) as (m & -> & Hl & Hm).
    exists (c :: m). simpl. rewrite Hl, Hm, E. auto.
Qed.

Lemma map_canonicalize_eq a b :
  map canonicalize a = map canonicalize b -> equal_ignoring_case a b.
Proof.
  unfold equal_ignoring_case.
  revert b; induction a as [|x a IH]; intros [|y b] H; simpl in *;
    try discriminate; [reflexivity|].
  injection H as Hxy Hab. f_equal; [now apply canonicalize_eq_iff | auto].
Qed.

Lemma match_at_sound text literals i :
  i <= length text ->
  match_at text literals i = true ->
  i + length literals <= length text /\
  equal_ignoring_case (slice text i (i + length literals)) literals /\
  (forall j c, i = S j -> nth_error text j = Some c -> is_word_char c = false) /\
  (forall c, nth_error text (i + length literals) = Some c ->
             is_word_char c = false).
Proof.
  unfold match_at. intros Hi H. apply andb_prop in H as [Hb H].
  destruct (match_literals literals (skipn i text)) as [rest|] eqn:M;
    [|discriminate].
  destruct (match_literals_sound _ _ _ M) as (m & Hs & Hl & Hm).
  assert (Hlen : length (skipn i text) = length m + length rest)
    by (rewrite Hs; apply length_app).
  rewrite length_skipn in Hlen.
  assert (Hn : forall k, nth_error text (i + k) = nth_error (m ++ rest) k).
  { intros k. rewrite <- Hs. symmetry. apply nth_error_skipn. }
  repeat split.
  - lia.
  - unfold slice. replace (i + length literals - i) with (length m) by lia.
    rewrite Hs, firstn_app, Nat.sub_diag, firstn_all. simpl.
    rewrite app_nil_r. now apply map_canonicalize_eq.
  - intros j c -> Hj. simpl in Hb. rewrite Hj in Hb.
    now apply negb_true_iff in Hb.
  - intros c Hc. rewrite <- Hl, Hn in Hc.
    rewrite nth_error_app2, Nat.sub_diag in Hc by lia.
    destruct rest as [|d rest]; simpl in Hc; [discriminate|].
    injection Hc as ->. simpl in H. now apply negb_true_iff in H.
Qed.

(** ** The search and the loop *)

Lemma first_match_sound text literals i n k :
  first_match text literals i n = Some k ->
  i <= k < i + n /\ match_at text literals k = true.
Proof.
  revert i; induction n as [|n IH]; intros i H; simpl in H; [discriminate|].
  destruct (match_at text literals i) eqn:M.
  - injection H as <-. split; [lia | exact M].
  - destruct (IH _ H). split; [lia | assumption].
Qed.

Lemma regex_exec_sound text literals lastIndex k :
  regex_exec text literals lastIndex = Some k ->
  lastIndex <= k <= length text /\ match_at text literals k = true.
Proof.
  unfold regex_exec. intros H.
  destruct (Nat.ltb_spec (length text) lastIndex); [discriminate|].
  destruct (first_match_sound _ _ _ _ _ H). split; [lia | assumption].
Qed.

Lemma option_map_some {A B} (f : A -> B) o y :
  option_map f o = Some y -> exists x, o = Some x /\ y = f x.
Proof. destruct o; simpl; [|discriminate]. intros [= <-]. eauto. Qed.

Lemma exec_loop_sound fuel text literals lastIndex positions :
  literals <> [] ->
  exec_loop fuel text literals lastIndex = Some positions ->
  Forall (located text literals) positions /\
  ordered (Z.of_nat lastIndex) positions.
Proof.
  intros Hne. revert lastIndex positions.
  induction fuel as [|fuel IH]; intros lastIndex positions H; simpl in H;
    [discriminate|].
  destruct (regex_exec text literals lastIndex) as [k|] eqn:E.
  - apply option_map_some in H as (rest & Hrest & ->).
    destruct (regex_exec_sound _ _ _ _ E) as [Hk M].
    destruct (match_at_sound _ _ _ (proj2 Hk) M) as (Hin & Heq & Hb & Ha).
    destruct (IH _ _ Hrest) as [Hall Hord].
    assert (0 < length literals) by (destruct literals; simpl; [easy | lia]).
    split.
    + constructor; [|exact Hall]. exists k. simpl. repeat split; auto.
    + constructor; simpl; [lia | lia | exact Hord].
  - injection H as <-. split; constructor.
Qed.

(** The loop stops: every round moves [lastIndex] forward, and it never
    passes the end of the text. *)
Lemma exec_loop_stops fuel text literals lastIndex :
  literals <> [] ->
  lastIndex <= length text ->
  length text - lastIndex < fuel ->
  exists positions, exec_loop fuel text literals lastIndex = Some positions.
Proof.
  intros Hne. revert lastIndex.
  induction fuel as [|fuel IH]; intros lastIndex Hle Hfuel; [lia|].
  simpl. destruct (regex_exec text literals lastIndex) as [k|] eqn:E.
  - destruct (regex_exec_sound _ _ _ _ E) as [Hk M].
    destruct (match_at_sound _ _ _ (proj2 Hk) M) as (Hin & _).
    assert (0 < length literals) by (destruct literals; simpl; [easy | lia]).
    destruct (IH (k + length literals)) as [rest ->]; [lia | lia |].
    simpl. eauto.
  - eauto.
Qed.

Lemma chars_length s : length (chars s) = String.length s.
Proof.
  unfold chars. induction s as [|c s IH]; simpl; [reflexivity | now rewrite IH].
Qed.

Lemma blank_false_nonempty phrase : blank phrase = false -> chars phrase <> [].
Proof. unfold blank. intros H E. rewrite E in H. discriminate. Qed.

(** [findPhrasePositions] returns: the fuel it is given is enough. *)
Lemma findPhrasePositions_returns text phrase :
  findPhrasePositions_fuel (S (String.length text)) text phrase
  = Some (findPhrasePositions text phrase).
Proof.
  unfold findPhrasePositions.
  destruct (findPhrasePositions_fuel _ text phrase) eqn:E; [reflexivity|].
  exfalso. unfold findPhrasePositions_fuel in E.
  rewrite is_blank_blank in E. destruct (blank phrase) eqn:B; [discriminate|].
  rewrite parse_escape in E.
  destruct (exec_loop_stops (S (String.length text)) (chars text) (chars phrase) 0)
    as [positions Hp].
  - now apply blank_false_nonempty.
  - lia.
  - rewrite chars_length. lia.
  - congruence.
Qed.

Lemma findPhrasePositions_blank text phrase :
  blank phrase = true -> findPhrasePositions text phrase = [].
Proof.
  intros B. unfold findPhrasePositions, findPhrasePositions_fuel.
  now rewrite is_blank_blank, B.
Qed.

Lemma findPhrasePositions_sound text phrase :
  blank phrase = false ->
  Forall (located (chars text) (chars phrase)) (findPhrasePositions text phrase) /\
  ordered 0 (findPhrasePositions text phrase).
Proof.
  intros B. pose proof (findPhrasePositions_returns text phrase) as R.
  unfold findPhrasePositions_fuel in R.
  rewrite is_blank_blank, B, parse_escape in R.
  apply (exec_loop_sound _ _ _ 0 _ (blank_false_nonempty _ B) R).
Qed.

End PhraseLocatorFacts.

(* ===================================================================== *)
(** * The reconciliation helpers, as maps and filters                     *)
(* ===================================================================== *)

Module BiasFacts.
Import Js JsFacts Bias Lifecycle.

Lemma mapIndicatorPositions_spec indicators mapping :
  mapIndicatorPositions indicators mapping
  = (map (remap mapping) indicators, existsb (moved mapping) indicators).
Proof.
  unfold mapIndicatorPositions.
  induction indicators as [|a l IH]; [reflexivity|].
  cbn [map_loop map existsb]. rewrite IH. unfold remap, moved.
  destruct (negb _ || negb _); reflexivity.
Qed.

Lemma outdate_indices position pre l :
  fold_right (fun index acc => outdate_step acc index) (pre ++ l, [])
             (indices_from (length pre) (cursor_inside position) l)
  = (pre ++ map (outdate position) l,
     rev (map with_outdated (filter (cursor_inside position) l))).
Proof.
  revert pre; induction l as [|x l IH]; intros pre; simpl.
  - reflexivity.
  - specialize (IH (pre ++ [x])).
    rewrite length_app, <- !app_assoc in IH. simpl in IH.
    replace (length pre + 1)%nat with (S (length pre)) in IH by lia.
    unfold outdate at 1. destruct (cursor_inside position x); simpl.
    + rewrite IH. unfold outdate_step.
      rewrite nth_error_middle, update_at_app. reflexivity.
    + exact IH.
Qed.

Lemma length_zero_iff_nil' {A} (l : list A) :
  (length l =? 0)%nat = true <-> l = [].
Proof. destruct l; simpl; split; congruence. Qed.

Lemma removeEditedIndicators_cursor indicators sel :
  empty sel = true ->
  removeEditedIndicators indicators (Some sel)
  = {| edited_indicators := map (outdate (from sel)) indicators;
       edited_changed := existsb (cursor_inside (from sel)) indicators;
       outdatedIndicators :=
         rev (map with_outdated
                  (filter (cursor_inside (from sel)) indicators)) |}.
Proof.
  intros E. unfold removeEditedIndicators. rewrite E. cbn [negb].
  destruct (length (indices_where (cursor_inside (from sel)) indicators) =? 0)%nat
    eqn:L.
  - apply length_zero_iff_nil' in L. unfold indices_where in L.
    pose proof (proj1 (indices_from_nil _ _ _) L) as N.
    rewrite N. unfold outdate. rewrite (map_none _ with_outdated _ N).
    f_equal. clear L. induction indicators as [|a l IH]; [reflexivity|].
    simpl in *. destruct (cursor_inside (from sel) a); [discriminate|].
    now apply IH.
  - unfold indices_where in *. rewrite sort_desc_indices, fold_left_rev.
    pose proof (outdate_indices (from sel) [] indicators) as H.
    cbn [app length] in H. rewrite H.
    f_equal. destruct (existsb _ indicators) eqn:X; [reflexivity|].
    apply indices_from_nil with (i := 0%nat) in X. rewrite X in L. discriminate.
Qed.

Lemma removeEditedIndicators_range indicators sel :
  empty sel = false ->
  removeEditedIndicators indicators (Some sel)
  = {| edited_indicators := indicators; edited_changed := false;
       outdatedIndicators := [] |}.
Proof. intros E. unfold removeEditedIndicators. now rewrite E. Qed.

Lemma removeInvalidIndicators_spec indicators docSize :
  removeInvalidIndicators indicators docSize
  = (filter (fun a => negb (invalid docSize a)) indicators,
     existsb (invalid docSize) indicators).
Proof.
  unfold removeInvalidIndicators.
  destruct (length (indices_where (invalid docSize) indicators) =? 0)%nat eqn:L.
  - apply length_zero_iff_nil' in L. unfold indices_where in L.
    apply indices_from_nil in L. now rewrite L, filter_none.
  - rewrite splice_sorted_indices. f_equal.
    destruct (existsb _ indicators) eqn:X; [reflexivity|].
    apply indices_from_nil with (i := 0%nat) in X.
    unfold indices_where in L. rewrite X in L. discriminate.
Qed.

Lemma invalid_false_in_bounds docSize a :
  invalid docSize a = false <-> in_bounds docSize a.
Proof.
  unfold invalid, in_bounds. rewrite !orb_false_iff.
  rewrite Z.leb_gt, !Z.ltb_ge. lia.
Qed.

(** The loop of [removeBiasIndicatorAtPosition], from the last index down. *)
Lemma remove_loop_spec position pre suffix removed :
  remove_loop position (length pre) (pre ++ suffix) removed
  = (filter (fun a => negb (covers position a)) pre ++ suffix,
     removed || existsb (covers position) pre).
Proof.
  revert suffix removed. induction pre as [|x pre IH] using rev_ind;
    intros suffix removed.
  - simpl. now rewrite orb_false_r.
  - rewrite length_app. simpl. rewrite Nat.add_1_r. cbn [remove_loop].
    rewrite <- app_assoc. simpl. rewrite nth_error_middle.
    rewrite filter_app, existsb_app. simpl. fold (covers position x).
    destruct (covers position x); simpl.
    + rewrite splice1_app, IH, app_nil_r. f_equal.
      now rewrite orb_true_r, orb_true_r.
    + rewrite IH, <- app_assoc. simpl. now rewrite orb_false_r.
Qed.

Lemma removeBiasIndicatorAtPosition_spec position stored :
  removeBiasIndicatorAtPosition position stored
  = if existsb (covers position) stored
    then let kept := filter (fun a => negb (covers position a)) stored in
         mkOutcome true kept (Some kept)
    else mkOutcome false stored None.
Proof.
  unfold removeBiasIndicatorAtPosition.
  pose proof (remove_loop_spec position stored [] false) as H.
  rewrite !app_nil_r in H. rewrite H. simpl.
  destruct (existsb (covers position) stored); reflexivity.
Qed.

End BiasFacts.

(* ===================================================================== *)
(** * The annotation lifecycle                                            *)
(* ===================================================================== *)

Module LifecycleFacts.
Import Js JsFacts Bias Lifecycle BiasFacts Session Sequences.

(** ** Reconciliation as a whole *)

Lemma removeEditedIndicators_spec indicators selection :
  edited_indicators (removeEditedIndicators indicators selection)
    = outdated_by selection indicators /\
  edited_changed (removeEditedIndicators indicators selection)
    = existsb (cursor_in selection) indicators.
Proof.
  destruct selection as [sel|]; cbn [outdated_by cursor_in].
  - destruct (empty sel) eqn:E.
    + rewrite (removeEditedIndicators_cursor _ _ E). simpl. split; [reflexivity|].
      induction indicators as [|a l IH]; simpl; [reflexivity|].
      now rewrite IH, E.
    + rewrite (removeEditedIndicators_range _ _ E). simpl. split; [reflexivity|].
      induction indicators as [|a l IH]; simpl; [reflexivity|].
      now rewrite <- IH, E.
  - split; [reflexivity|].
    induction indicators as [|a l IH]; simpl; [reflexivity | exact IH].
Qed.

Lemma apply_edit tr stored :
  getMeta tr = false -> docChanged tr = true ->
  let mapped := map (remap (mapping tr)) stored in
  let edited := outdated_by (selection tr) mapped in
  let kept := filter (fun a => negb (invalid (doc_content_size tr) a)) edited in
  apply tr stored =
    if existsb (moved (mapping tr)) stored
       || existsb (cursor_in (selection tr)) mapped
       || existsb (invalid (doc_content_size tr)) edited
    then (kept, Some kept)
    else (stored, None).
Proof.
  intros M D. unfold apply. rewrite M, D.
  rewrite mapIndicatorPositions_spec. cbn [fst snd].
  destruct (removeEditedIndicators_spec (map (remap (mapping tr)) stored)
              (selection tr)) as [-> ->].
  rewrite removeInvalidIndicators_spec. reflexivity.
Qed.

Lemma existsb_false_forall {A} (p : A -> bool) l :
  existsb p l = false <-> forall a, In a l -> p a = false.
Proof.
  split.
  - intros H a Ha. destruct (p a) eqn:E; [|reflexivity].
    assert (existsb p l = true) by (apply existsb_exists; eauto). congruence.
  - intros H. destruct (existsb p l) eqn:E; [|reflexivity].
    apply existsb_exists in E as (a & Ha & Hp). rewrite (H a Ha) in Hp.
    discriminate.
Qed.

Lemma map_unchanged {A} (f : A -> A) l :
  (forall a, In a l -> f a = a) -> map f l = l.
Proof.
  induction l as [|x l IH]; simpl; intros H; [reflexivity|].
  rewrite H, IH by auto. reflexivity.
Qed.

Lemma remap_unmoved mapping a : moved mapping a = false -> remap mapping a = a.
Proof. unfold remap. now intros ->. Qed.

Lemma outdated_by_unchanged selection l :
  existsb (cursor_in selection) l = false -> outdated_by selection l = l.
Proof.
  intros H. destruct selection as [sel|]; simpl; [|reflexivity].
  destruct (empty sel) eqn:E; [|reflexivity].
  apply map_unchanged. intros a Ha.
  rewrite existsb_false_forall in H. specialize (H a Ha). simpl in H.
  rewrite E in H. simpl in H. unfold outdate. now rewrite H.
Qed.

(** After an edit has been reconciled, every stored indicator is inside the
    new document. *)
Lemma apply_edit_in_bounds tr stored :
  getMeta tr = false -> docChanged tr = true ->
  Forall (in_bounds (doc_content_size tr)) (fst (apply tr stored)).
Proof.
  intros M D. rewrite (apply_edit tr stored M D).
  destruct (existsb (moved (mapping tr)) stored) eqn:E1; cbn [orb fst].
  - apply Forall_forall. intros a Ha. apply filter_In in Ha as [_ Ha].
    apply invalid_false_in_bounds. now apply negb_true_iff.
  - destruct (existsb (cursor_in (selection tr)) _) eqn:E2; cbn [orb fst].
    + apply Forall_forall. intros a Ha. apply filter_In in Ha as [_ Ha].
      apply invalid_false_in_bounds. now apply negb_true_iff.
    + destruct (existsb (invalid _) _) eqn:E3; cbn [fst].
      * apply Forall_forall. intros a Ha. apply filter_In in Ha as [_ Ha].
        apply invalid_false_in_bounds. now apply negb_true_iff.
      * rewrite (outdated_by_unchanged _ _ E2) in E3.
        rewrite (map_unchanged (remap (mapping tr))) in E3.
        -- apply Forall_forall. intros a Ha. apply invalid_false_in_bounds.
           rewrite existsb_false_forall in E3. auto.
        -- intros a Ha. apply remap_unmoved.
           rewrite existsb_false_forall in E1. auto.
Qed.

Lemma splice1_incl {A} i (l : list A) a : In a (splice1 i l) -> In a l.
Proof.
  revert i; induction l as [|x l IH]; intros [|i]; simpl; auto.
  intros [H|H]; eauto.
Qed.

Lemma insert_by_end_Forall (P : BiasIndicator -> Prop) x l :
  P x -> Forall P l -> Forall P (insert_by_end x l).
Proof.
  intros Hx H. induction H as [|y l Hy H IH]; simpl; [now repeat constructor|].
  destruct (_ <=? _); repeat constructor; auto.
Qed.

Lemma sort_by_end_Forall (P : BiasIndicator -> Prop) l :
  Forall P l -> Forall P (sort_by_end l).
Proof.
  induction 1 as [|x l Hx _ IH]; simpl; [constructor|].
  now apply insert_by_end_Forall.
Qed.

Lemma normalized_span_nonempty s0 e0 :
  - 2 ^ 53 <= s0 < 2 ^ 53 - 1 ->
  let s := if s0 =? 0 then 1 else JsNumber.add s0 1 in
  s < Z.max (JsNumber.add e0 1) (JsNumber.add s 1).
Proof.
  intros H s.
  assert (Es : s = s0 + 1).
  { unfold s. destruct (Z.eqb_spec s0 0) as [->|N]; [reflexivity|].
    apply JsNumberFacts.add_one_exact. lia. }
  rewrite (JsNumberFacts.add_one_exact s) by lia. lia.
Qed.

Lemma adjust_nonempty_spans next l :
  Forall start_shifts l ->
  Forall (fun a => start (character_positions a) < end_ (character_positions a))
         (adjust true next l).
Proof.
  intros H. revert next; induction H as [|a l Ha _ IH]; intros next;
    cbn [adjust]; [constructor|].
  destruct (truthy_number (displayIndex a)); constructor; auto;
    cbn [character_positions with_displayIndex start end_];
    now apply normalized_span_nonempty.
Qed.

(** C2, as the code has it.  Once an edit has been reconciled, every stored
    indicator, active or outdated, has [1 <= start < end <= docSize] for the
    size of the edited document; [clear], [removeAt] and
    [removeAtDocumentPosition] keep every stored indicator inside the
    document it was inside before.  [setAnnotations] does not look at the
    document: with normalisation it makes the span of a candidate non-empty
    when the start of the candidate lies between [-2^53] and [2^53 - 2],
    where adding one is exact, and that is all. *)
Theorem reconciled_spans_in_bounds :
  (forall tr stored,
     getMeta tr = false -> docChanged tr = true ->
     Forall (in_bounds (doc_content_size tr)) (fst (apply tr stored))) /\
  (forall docSize stored,
     Forall (in_bounds docSize) stored ->
     Forall (in_bounds docSize) (step stored Clear) /\
     (forall index, Forall (in_bounds docSize) (step stored (RemoveAt index))) /\
     (forall position,
        Forall (in_bounds docSize)
               (step stored (RemoveAtDocumentPosition position)))) /\
  (forall candidates normalize stored,
     normalize <> Some false ->
     Forall start_shifts candidates ->
     Forall (fun a => start (character_positions a) < end_ (character_positions a))
            (step stored (SetAnnotations candidates normalize))).
Proof.
  split; [exact apply_edit_in_bounds|]. split.
  - intros docSize stored H. rewrite Forall_forall in H. repeat split.
    + constructor.
    + intros index. simpl. unfold removeBiasIndicator.
      destruct ((0 <=? index) && _); simpl; apply Forall_forall; intros a Ha;
        [apply splice1_incl in Ha|]; auto.
    + intros position. simpl. rewrite removeBiasIndicatorAtPosition_spec.
      destruct (existsb _ stored); simpl; apply Forall_forall; intros a Ha;
        [apply filter_In in Ha as [Ha _]|]; auto.
  - intros candidates normalize stored N H.
    assert (S : Forall start_shifts (sort_by_end candidates))
      by now apply sort_by_end_Forall.
    destruct normalize as [[|]|]; cbn [step setBiasIndicators storage];
      [now apply adjust_nonempty_spans | congruence
      | now apply adjust_nonempty_spans].
Qed.

(** An edit deletes the document from position 8 on: every later position
    maps to 8 and the document has size 8.  What is stored afterwards is
    inside the document. *)
Lemma reconciled_spans_in_bounds_witness :
  let a :=
    {| bias_indicator_key := "sarcasm"; detected_phrase := "great";
       confidence := None; character_positions := mkSpan 5 10;
       displayIndex := Some 1; outdated := None |} in
  let tr := edit (fun p => if p <? 8 then p else 8) None 8 in
  getMeta tr = false /\ docChanged tr = true /\
  Forall (in_bounds 8) (fst (apply tr [a])).
Proof.
  intros a tr. split; [reflexivity|]. split; [reflexivity|].
  exact (proj1 reconciled_spans_in_bounds tr [a] eq_refl eq_refl).
Defined.

(** C2, as stated, fails: after [setAnnotations] alone an active indicator can
    end far beyond the document.  A candidate that arrives with the span
    [{100, 105}] is stored with the span [{101, 106}] whatever the size of the
    document, here 13. *)
Lemma setAnnotations_ignores_document_size :
  let candidate :=
    {| bias_indicator_key := "overgeneralisation"; detected_phrase := "Hello";
       confidence := None; character_positions := mkSpan 100 105;
       displayIndex := None; outdated := None |} in
  let documentSize := 13 in
  exists a,
    In a (run [SetAnnotations [candidate] None]) /\
    active a /\
    ~ (0 <= start (character_positions a)
       /\ start (character_positions a) < end_ (character_positions a)
       /\ end_ (character_positions a) <= documentSize).
Proof.
  intros candidate documentSize.
  assert (E : run [SetAnnotations [candidate] None]
              = [{| bias_indicator_key := "overgeneralisation";
                    detected_phrase := "Hello"; confidence := None;
                    character_positions := mkSpan 101 106;
                    displayIndex := Some 1; outdated := None |}])
    by (vm_compute; reflexivity).
  rewrite E. eexists. split; [left; reflexivity|]. split; [reflexivity|].
  unfold documentSize. simpl. lia.
Qed.

(** With a start of [2^53 - 1] the normalised span is empty: adding one to
    [2^53] gives [2^53] again. *)
Example setAnnotations_at_the_limit :
  let candidate :=
    {| bias_indicator_key := "overgeneralisation"; detected_phrase := "Hello";
       confidence := None;
       character_positions := mkSpan (2 ^ 53 - 1) (2 ^ 53);
       displayIndex := None; outdated := None |} in
  map character_positions (run [SetAnnotations [candidate] None])
  = [mkSpan (2 ^ 53) (2 ^ 53)].
Proof. vm_compute. reflexivity. Qed.

(** ** Outdating *)

Lemma nth_error_outdate position indicators k a :
  nth_error indicators k = Some a ->
  nth_error (map (outdate position) indicators) k = Some (outdate position a).
Proof. intros H. now rewrite nth_error_map, H. Qed.

(** C4, as the code has it.  In the outdating step of a reconciliation, a
    cursor at [p] marks the indicator at any place [k] of the collection
    outdated when [start < p <= end]: the indicator at place [k] afterwards
    has [outdated = true] and is otherwise the one that was there, and the
    step reports it.  A cursor anywhere else, exactly at [start] for one,
    leaves the indicator as it was, and so does a range selection, which
    changes nothing at all.  The step removes nothing; but in the
    reconciliation as a whole it is followed by the removal of the spans
    that are not inside the document, so that the outdated indicator is
    stored and notified when its remapped span is inside the document and
    is gone when it is not. *)
Theorem outdate_on_edit (indicators : list BiasIndicator) (sel : Selection)
    (k : nat) (a : BiasIndicator) :
  nth_error indicators k = Some a ->
  let result := removeEditedIndicators indicators (Some sel) in
  length (edited_indicators result) = length indicators /\
  (from sel = to sel ->
   start (character_positions a) < from sel <= end_ (character_positions a) ->
   exists r,
     nth_error (edited_indicators result) k = Some r /\
     outdated r = Some true /\
     ~ active r /\
     bias_indicator_key r = bias_indicator_key a /\
     detected_phrase r = detected_phrase a /\
     confidence r = confidence a /\
     character_positions r = character_positions a /\
     displayIndex r = displayIndex a /\
     In r (outdatedIndicators result) /\
     edited_changed result = true) /\
  (from sel = to sel ->
   ~ (start (character_positions a) < from sel <= end_ (character_positions a)) ->
   nth_error (edited_indicators result) k = Some a) /\
  (from sel <> to sel ->
   edited_indicators result = indicators /\
   edited_changed result = false /\
   outdatedIndicators result = []) /\
  (forall m docSize stored,
     In a (map (remap m) stored) ->
     from sel = to sel ->
     start (character_positions a) < from sel <= end_ (character_positions a) ->
     let after := apply (edit m (Some sel) docSize) stored in
     (in_bounds docSize a ->
      (exists r,
         In r (fst after) /\
         outdated r = Some true /\
         bias_indicator_key r = bias_indicator_key a /\
         detected_phrase r = detected_phrase a /\
         confidence r = confidence a /\
         character_positions r = character_positions a /\
         displayIndex r = displayIndex a) /\
      snd after = Some (fst after)) /\
     (~ in_bounds docSize a ->
      forall r, In r (fst after) ->
        character_positions r <> character_positions a)).
Proof.
  intros Hk result. subst result.
  assert (Hcursor : from sel = to sel -> empty sel = true)
    by (intros E; unfold empty; now apply Z.eqb_eq).
  assert (Hrange : from sel <> to sel -> empty sel = false)
    by (intros E; unfold empty; now apply Z.eqb_neq).
  assert (Hinside : start (character_positions a) < from sel
                      <= end_ (character_positions a) ->
                    cursor_inside (from sel) a = true).
  { intros [H1 H2]. unfold cursor_inside.
    apply andb_true_intro. split; [now apply Z.ltb_lt | now apply Z.leb_le]. }
  assert (Houtside : ~ (start (character_positions a) < from sel
                        <= end_ (character_positions a)) ->
                     cursor_inside (from sel) a = false).
  { intros N. unfold cursor_inside. apply andb_false_iff.
    destruct (Z.ltb_spec (start (character_positions a)) (from sel));
      [|now left].
    right. apply Z.leb_gt. lia. }
  split; [|split; [|split; [|split]]].
  - destruct (empty sel) eqn:E.
    + rewrite (removeEditedIndicators_cursor _ _ E). simpl. apply length_map.
    + now rewrite (removeEditedIndicators_range _ _ E).
  - intros E H. rewrite (removeEditedIndicators_cursor _ _ (Hcursor E)).
    cbn [edited_indicators edited_changed outdatedIndicators].
    exists (with_outdated a). split.
    + rewrite (nth_error_outdate _ _ _ _ Hk). unfold outdate.
      now rewrite (Hinside H).
    + split; [reflexivity|]. split; [discriminate|].
      do 5 (split; [reflexivity|]). split.
      * apply -> in_rev. apply in_map, filter_In.
        split; [eapply nth_error_In; eassumption | now apply Hinside].
      * apply existsb_exists. exists a. split; [|now apply Hinside].
        eapply nth_error_In; eassumption.
  - intros E H. rewrite (removeEditedIndicators_cursor _ _ (Hcursor E)). simpl.
    rewrite (nth_error_outdate _ _ _ _ Hk). unfold outdate.
    now rewrite (Houtside H).
  - intros E. rewrite (removeEditedIndicators_range _ _ (Hrange E)). auto.
  - intros m docSize stored Ha E H after. subst after.
    rewrite (apply_edit (edit m (Some sel) docSize) stored eq_refl eq_refl).
    cbn [edit mapping selection doc_content_size].
    assert (X : existsb (cursor_in (Some sel)) (map (remap m) stored) = true).
    { apply existsb_exists. exists a. split; [exact Ha|]. simpl.
      now rewrite (Hcursor E), (Hinside H). }
    rewrite X, orb_true_r. cbn [orb fst snd]. split.
    + intros B. split; [|reflexivity]. exists (with_outdated a).
      split; [|repeat split].
      apply filter_In. split.
      * simpl. rewrite (Hcursor E). apply in_map_iff. exists a.
        split; [|exact Ha]. unfold outdate. now rewrite (Hinside H).
      * apply negb_true_iff. apply invalid_false_in_bounds. exact B.
    + intros N r Hr Es. apply N. apply filter_In in Hr as [_ Hr].
      apply negb_true_iff, invalid_false_in_bounds in Hr.
      unfold in_bounds in *. now rewrite <- Es.
Qed.

(** Scenario E: the indicator [{5, 10}] with the cursor at 7. *)
Lemma outdate_on_edit_witness :
  let a :=
    {| bias_indicator_key := "sarcasm"; detected_phrase := "great";
       confidence := None; character_positions := mkSpan 5 10;
       displayIndex := Some 1; outdated := None |} in
  let cursor := mkSelection 7 7 in
  nth_error [a] 0 = Some a /\
  from cursor = to cursor /\
  start (character_positions a) < from cursor <= end_ (character_positions a) /\
  exists r,
    nth_error (edited_indicators (removeEditedIndicators [a] (Some cursor))) 0
      = Some r /\
    outdated r = Some true /\
    ~ active r /\
    bias_indicator_key r = bias_indicator_key a /\
    detected_phrase r = detected_phrase a /\
    confidence r = confidence a /\
    character_positions r = character_positions a /\
    displayIndex r = displayIndex a /\
    In r (outdatedIndicators (removeEditedIndicators [a] (Some cursor))) /\
    edited_changed (removeEditedIndicators [a] (Some cursor)) = true.
Proof.
  intros a cursor.
  assert (H : start (character_positions a) < from cursor
              <= end_ (character_positions a)) by (simpl; lia).
  split; [reflexivity|]. split; [reflexivity|]. split; [exact H|].
  exact (proj1 (proj2 (outdate_on_edit [a] cursor 0 a eq_refl)) eq_refl H).
Defined.

(** C4, as stated, fails for the reconciliation as a whole: an indicator
    that the cursor is inside of does not always remain in the collection.
    A candidate whose phrase is not found gets the fallback span
    [{0, 40}], which [setAnnotations] stores as [{1, 41}] in a document of
    size 12.  At the next edit, with the cursor at 5, the indicator is
    marked outdated by the second step and removed by the third, its span
    reaching beyond the document: nothing is left of it. *)
Lemma outdated_then_removed :
  let candidate :=
    {| bias_indicator_key := "sarcasm";
       detected_phrase := "what a wonderful, wonderful idea that is";
       confidence := None; character_positions := mkSpan 0 40;
       displayIndex := None; outdated := None |} in
  let cursor := mkSelection 5 5 in
  let stored := run [SetAnnotations [candidate] None] in
  let tr := edit (fun position => position) (Some cursor) 12 in
  (exists a,
     stored = [a] /\ active a /\
     map (remap (mapping tr)) stored = [a] /\
     from cursor = to cursor /\
     start (character_positions a) < from cursor <= end_ (character_positions a)) /\
  edited_indicators
    (removeEditedIndicators (map (remap (mapping tr)) stored) (Some cursor))
  = map with_outdated stored /\
  run [SetAnnotations [candidate] None; Reconcile tr] = [].
Proof.
  intros candidate cursor stored tr.
  assert (E : stored
              = [{| bias_indicator_key := "sarcasm";
                    detected_phrase := "what a wonderful, wonderful idea that is";
                    confidence := None; character_positions := mkSpan 1 41;
                    displayIndex := Some 1; outdated := None |}])
    by (vm_compute; reflexivity).
  split; [|split].
  - eexists. split; [exact E|]. split; [reflexivity|].
    split; [rewrite E; reflexivity|]. split; [reflexivity|]. simpl. lia.
  - rewrite E. reflexivity.
  - vm_compute. reflexivity.
Qed.

(** ** When a reconciliation notifies *)

Lemma in_bounds_dec docSize a :
  in_bounds docSize a \/ ~ in_bounds docSize a.
Proof.
  destruct (invalid docSize a) eqn:E.
  - right. intros H. apply invalid_false_in_bounds in H. congruence.
  - left. now apply invalid_false_in_bounds.
Qed.

(** C6, as the code has it.  An edit is persisted and notified exactly when
    the mapping moves an end of some stored span, or the selection is a
    cursor inside some remapped indicator (outdated already or not), or some
    indicator is out of bounds after the first two steps.  The notification
    carries the collection that is stored; without one the storage is what it
    was.  In particular nothing is stored or notified when the mapping moves
    no span, the selection is not a cursor inside any indicator, and every
    indicator is inside the new document. *)
Theorem reconcile_notifies (tr : Transaction) (stored : list BiasIndicator) :
  getMeta tr = false -> docChanged tr = true ->
  let mapped := fst (mapIndicatorPositions stored (mapping tr)) in
  let edited := edited_indicators (removeEditedIndicators mapped (selection tr)) in
  (snd (apply tr stored) <> None <->
     (exists a, In a stored /\ moved (mapping tr) a = true) \/
     (exists a, In a mapped /\ cursor_in (selection tr) a = true) \/
     (exists a, In a edited /\ ~ in_bounds (doc_content_size tr) a)) /\
  (snd (apply tr stored) = None -> fst (apply tr stored) = stored) /\
  (snd (apply tr stored) <> None ->
     snd (apply tr stored) = Some (fst (apply tr stored))) /\
  ((forall a, In a stored ->
      mapping tr (start (character_positions a)) = start (character_positions a)
      /\ mapping tr (end_ (character_positions a)) = end_ (character_positions a)) ->
   (forall a, In a stored -> cursor_in (selection tr) a = false) ->
   (forall a, In a stored -> in_bounds (doc_content_size tr) a) ->
   apply tr stored = (stored, None)).
Proof.
  intros M D mapped edited. subst mapped edited.
  rewrite mapIndicatorPositions_spec. cbn [fst].
  rewrite (proj1 (removeEditedIndicators_spec _ _)).
  rewrite (apply_edit tr stored M D).
  set (mapped := map (remap (mapping tr)) stored).
  set (edited := outdated_by (selection tr) mapped).
  split; [|split; [|split]].
  - destruct (existsb (moved (mapping tr)) stored) eqn:E1.
    { cbn [orb snd]. split; [intros _|discriminate].
      left. apply existsb_exists in E1. exact E1. }
    destruct (existsb (cursor_in (selection tr)) mapped) eqn:E2.
    { cbn [orb snd]. split; [intros _|discriminate].
      right; left. apply existsb_exists in E2. exact E2. }
    destruct (existsb (invalid (doc_content_size tr)) edited) eqn:E3.
    { cbn [orb snd]. split; [intros _|discriminate].
      right; right. apply existsb_exists in E3 as (a & Ha & Hi).
      exists a. split; [exact Ha|]. intros B.
      apply invalid_false_in_bounds in B. congruence. }
    cbn [orb snd]. split; [congruence|].
    rewrite existsb_false_forall in E1, E2, E3.
    intros [(a & Ha & H)|[(a & Ha & H)|(a & Ha & H)]].
    + rewrite (E1 a Ha) in H. discriminate.
    + rewrite (E2 a Ha) in H. discriminate.
    + exfalso. apply H. apply invalid_false_in_bounds. auto.
  - destruct (_ || _ || _); cbn [fst snd]; [discriminate | reflexivity].
  - destruct (_ || _ || _); cbn [fst snd]; [reflexivity | congruence].
  - intros Hfix Hcur Hin.
    assert (E1 : existsb (moved (mapping tr)) stored = false).
    { apply existsb_false_forall. intros a Ha. destruct (Hfix a Ha) as [Hs He].
      unfold moved. rewrite Hs, He, !Z.eqb_refl. reflexivity. }
    assert (Emap : mapped = stored).
    { apply map_unchanged. intros a Ha. apply remap_unmoved.
      rewrite existsb_false_forall in E1. auto. }
    assert (E2 : existsb (cursor_in (selection tr)) mapped = false).
    { rewrite Emap. now apply existsb_false_forall. }
    assert (E3 : existsb (invalid (doc_content_size tr)) edited = false).
    { unfold edited. rewrite (outdated_by_unchanged _ _ E2), Emap.
      apply existsb_false_forall. intros a Ha.
      apply invalid_false_in_bounds. auto. }
    now rewrite E1, E2, E3.
Qed.

(** An insertion at 15, behind the only indicator, with the cursor behind it
    as well: nothing is stored, nothing is notified. *)
Lemma reconcile_notifies_witness :
  let a :=
    {| bias_indicator_key := "sarcasm"; detected_phrase := "great";
       confidence := None; character_positions := mkSpan 5 10;
       displayIndex := Some 1; outdated := None |} in
  let tr := edit (fun p => if p <? 15 then p else p + 1)
                 (Some (mkSelection 16 16)) 21 in
  getMeta tr = false /\ docChanged tr = true /\
  apply tr [a] = ([a], None).
Proof.
  intros a tr. split; [reflexivity|]. split; [reflexivity|].
  apply (proj2 (proj2 (proj2 (reconcile_notifies tr [a] eq_refl eq_refl)))).
  - intros x [<-|[]]. split; reflexivity.
  - intros x [<-|[]]. reflexivity.
  - intros x [<-|[]]. unfold in_bounds. simpl. lia.
Defined.

(** C6, as stated, fails.  The stored indicator [{5, 10}] is outdated
    already and the cursor sits at 7, inside it, before and after an edit
    made further down the document.  The mapping moves no span, the cursor is
    inside the same indicator as before, and none of the three steps changes
    the collection; the collection is persisted and notified all the same. *)
Lemma reconcile_notifies_without_change :
  let a :=
    {| bias_indicator_key := "sarcasm"; detected_phrase := "great";
       confidence := None; character_positions := mkSpan 5 10;
       displayIndex := Some 1; outdated := Some true |} in
  let before := Some (mkSelection 7 7) in
  let tr := edit (fun position => position) (Some (mkSelection 7 7)) 20 in
  let mapped := fst (mapIndicatorPositions [a] (mapping tr)) in
  let edited := edited_indicators (removeEditedIndicators mapped (selection tr)) in
  let kept := fst (removeInvalidIndicators edited (doc_content_size tr)) in
  mapped = [a] /\ edited = mapped /\ kept = edited /\
  cursor_in before a = cursor_in (selection tr) a /\
  apply tr [a] = ([a], Some [a]).
Proof. repeat split. Qed.

(** ** Removal *)

Lemma covers_iff position a :
  covers position a = true <->
  start (character_positions a) <= position <= end_ (character_positions a).
Proof.
  unfold covers. rewrite andb_true_iff, !Z.leb_le. tauto.
Qed.

(** C8, as the code has it.  [removeBiasIndicatorAtPosition] removes every
    stored indicator, active or outdated, whose span contains the position,
    both ends included, and keeps the others in their order.  It returns
    [true], with a notification of the new collection, exactly when some
    indicator contains the position; otherwise it returns [false], stores
    nothing and notifies nothing. *)
Theorem removeBiasIndicatorAtPosition_removes_covering
    (position : Z) (stored : list BiasIndicator) :
  let out := removeBiasIndicatorAtPosition position stored in
  storage out = filter (fun a => negb (covers position a)) stored /\
  (forall a, In a (storage out) <->
     In a stored /\
     ~ (start (character_positions a) <= position
        <= end_ (character_positions a))) /\
  (returned out = true <->
     exists a, In a stored /\
       start (character_positions a) <= position
       <= end_ (character_positions a)) /\
  (returned out = true -> dispatched out = Some (storage out)) /\
  (returned out = false -> storage out = stored /\ dispatched out = None).
Proof.
  intros out. subst out. rewrite removeBiasIndicatorAtPosition_spec.
  assert (Hfilter : forall a,
            In a (filter (fun a => negb (covers position a)) stored) <->
            In a stored /\
            ~ (start (character_positions a) <= position
               <= end_ (character_positions a))).
  { intros a. rewrite filter_In, negb_true_iff, <- covers_iff.
    destruct (covers position a); intuition congruence. }
  destruct (existsb (covers position) stored) eqn:E; cbn [storage returned dispatched].
  - split; [reflexivity|]. split; [exact Hfilter|]. split; [|split].
    + split; [intros _|reflexivity].
      apply existsb_exists in E as (a & Ha & Hc). exists a.
      split; [exact Ha | now apply covers_iff].
    + reflexivity.
    + discriminate.
  - rewrite (filter_none _ _ E) in Hfilter. rewrite (filter_none _ _ E).
    split; [reflexivity|]. split; [exact Hfilter|]. split; [|split].
    + split; [discriminate|]. intros (a & Ha & Hc).
      rewrite existsb_false_forall in E. apply covers_iff in Hc.
      rewrite (E a Ha) in Hc. discriminate.
    + discriminate.
    + auto.
Qed.

(** Position 10 is the end of one indicator and the start of another: both
    are removed. *)
Lemma removeBiasIndicatorAtPosition_removes_covering_witness :
  let a :=
    {| bias_indicator_key := "sarcasm"; detected_phrase := "great";
       confidence := None; character_positions := mkSpan 5 10;
       displayIndex := Some 1; outdated := None |} in
  let b :=
    {| bias_indicator_key := "passiveVoice"; detected_phrase := "was made";
       confidence := None; character_positions := mkSpan 10 18;
       displayIndex := Some 2; outdated := None |} in
  let c :=
    {| bias_indicator_key := "sarcasm"; detected_phrase := "sure";
       confidence := None; character_positions := mkSpan 30 34;
       displayIndex := Some 3; outdated := None |} in
  returned (removeBiasIndicatorAtPosition 10 [a; b; c]) = true /\
  storage (removeBiasIndicatorAtPosition 10 [a; b; c]) = [c] /\
  dispatched (removeBiasIndicatorAtPosition 10 [a; b; c]) = Some [c].
Proof.
  intros a b c.
  assert (R : returned (removeBiasIndicatorAtPosition 10 [a; b; c]) = true)
    by reflexivity.
  split; [exact R|]. split; [reflexivity|].
  exact (proj1 (proj2 (proj2 (proj2
           (removeBiasIndicatorAtPosition_removes_covering 10 [a; b; c])))) R).
Defined.

(** C8, as stated, fails: an outdated indicator that contains the position
    is removed like an active one. *)
Lemma removeBiasIndicatorAtPosition_removes_outdated :
  let a :=
    {| bias_indicator_key := "sarcasm"; detected_phrase := "great";
       confidence := None; character_positions := mkSpan 5 10;
       displayIndex := Some 1; outdated := Some true |} in
  ~ active a /\
  removeBiasIndicatorAtPosition 7 [a] = mkOutcome true [] (Some []) /\
  ~ In a (storage (removeBiasIndicatorAtPosition 7 [a])).
Proof.
  split; [discriminate|]. split; [reflexivity|]. simpl. tauto.
Qed.

(** C9.  [removeBiasIndicator] with an index below zero or not below the
    length returns [false], stores nothing and notifies nothing.  With an
    index inside the collection it returns [true], removes the indicator at
    that place and no other, and the display indices of the indicators that
    remain are the ones they had. *)
Theorem removeBiasIndicator_spec (index : Z) (stored : list BiasIndicator) :
  let out := removeBiasIndicator index stored in
  (index < 0 \/ Z.of_nat (length stored) <= index ->
   out = mkOutcome false stored None) /\
  (0 <= index < Z.of_nat (length stored) ->
   returned out = true /\
   storage out
     = firstn (Z.to_nat index) stored ++ skipn (S (Z.to_nat index)) stored /\
   length (storage out) = (length stored - 1)%nat /\
   dispatched out = Some (storage out) /\
   map displayIndex (storage out)
     = firstn (Z.to_nat index) (map displayIndex stored)
       ++ skipn (S (Z.to_nat index)) (map displayIndex stored)).
Proof.
  intros out. subst out. unfold removeBiasIndicator. split.
  - intros H.
    destruct (Z.leb_spec 0 index); destruct (Z.ltb_spec index (Z.of_nat (length stored)));
      cbn [andb]; try reflexivity; lia.
  - intros [H0 H1].
    destruct (Z.leb_spec 0 index); [|lia].
    destruct (Z.ltb_spec index (Z.of_nat (length stored))); [|lia].
    cbn [andb returned storage dispatched].
    rewrite splice1_firstn_skipn.
    repeat split.
    + rewrite length_app, length_firstn, length_skipn. lia.
    + now rewrite map_app, firstn_map, skipn_map.
Qed.

(** Index 2 is out of range for two indicators; index 0 removes the first
    and leaves the second with its display index 2. *)
Lemma removeBiasIndicator_spec_witness :
  let a :=
    {| bias_indicator_key := "sarcasm"; detected_phrase := "great";
       confidence := None; character_positions := mkSpan 5 10;
       displayIndex := Some 1; outdated := None |} in
  let b :=
    {| bias_indicator_key := "passiveVoice"; detected_phrase := "was made";
       confidence := None; character_positions := mkSpan 10 18;
       displayIndex := Some 2; outdated := None |} in
  (2 < 0 \/ Z.of_nat (length [a; b]) <= 2) /\
  removeBiasIndicator 2 [a; b] = mkOutcome false [a; b] None /\
  0 <= 0 < Z.of_nat (length [a; b]) /\
  map displayIndex (storage (removeBiasIndicator 0 [a; b])) = [Some 2].
Proof.
  intros a b.
  assert (H : 2 < 0 \/ Z.of_nat (length [a; b]) <= 2) by (right; simpl; lia).
  assert (H' : 0 <= 0 < Z.of_nat (length [a; b])) by (simpl; lia).
  split; [exact H|].
  split; [exact (proj1 (removeBiasIndicator_spec 2 [a; b]) H)|].
  split; [exact H'|].
  exact (proj2 (proj2 (proj2 (proj2
           (proj2 (removeBiasIndicator_spec 0 [a; b]) H'))))).
Defined.

(** ** Display indices *)

(** What does hold of display indices: the operations other than
    [setAnnotations] never change the display index of an indicator that
    stays in the collection, nor the order of the collection. *)

Lemma subsequence_refl {A} (l : list A) : subsequence l l.
Proof. induction l; constructor; assumption. Qed.

Lemma subsequence_nil_l {A} (l : list A) : subsequence [] l.
Proof. induction l; constructor; assumption. Qed.

Lemma subsequence_filter_map {A B} (g : A -> B) (f : A -> A) (p : A -> bool) l :
  (forall a, g (f a) = g a) ->
  subsequence (map g (filter p (map f l))) (map g l).
Proof.
  intros H. induction l as [|a l IH]; simpl; [constructor|].
  destruct (p (f a)); simpl; [rewrite H|]; constructor; exact IH.
Qed.

Lemma subsequence_splice1 {A B} (g : A -> B) i (l : list A) :
  subsequence (map g (splice1 i l)) (map g l).
Proof.
  revert i; induction l as [|a l IH]; intros [|i]; simpl.
  - constructor.
  - constructor.
  - constructor. apply subsequence_refl.
  - constructor. apply IH.
Qed.

Lemma displayIndex_remap m a : displayIndex (remap m a) = displayIndex a.
Proof. unfold remap. now destruct (moved m a). Qed.

Lemma displayIndex_outdate position a :
  displayIndex (outdate position a) = displayIndex a.
Proof. unfold outdate. now destruct (cursor_inside position a). Qed.

Lemma display_indices_kept stored op :
  (forall candidates normalize, op <> SetAnnotations candidates normalize) ->
  subsequence (map displayIndex (step stored op)) (map displayIndex stored).
Proof.
  intros N. destruct op as [candidates normalize| |index|position|tr]; simpl.
  - now destruct (N candidates normalize).
  - apply subsequence_nil_l.
  - unfold removeBiasIndicator. destruct ((0 <=? index) && _); simpl.
    + apply subsequence_splice1.
    + apply subsequence_refl.
  - rewrite removeBiasIndicatorAtPosition_spec.
    destruct (existsb (covers position) stored); simpl.
    + rewrite <- (map_id stored) at 1.
      now apply (subsequence_filter_map displayIndex (fun a => a)).
    + apply subsequence_refl.
  - destruct (getMeta tr) eqn:M; [unfold apply; rewrite M; apply subsequence_refl|].
    destruct (docChanged tr) eqn:D;
      [|unfold apply; rewrite M, D; apply subsequence_refl].
    rewrite (apply_edit tr stored M D). cbv zeta.
    destruct (_ || _ || _); cbn [fst]; [|apply subsequence_refl].
    destruct (selection tr) as [sel|]; cbn [outdated_by].
    + destruct (empty sel).
      * rewrite map_map.
        apply (subsequence_filter_map displayIndex
                 (fun a => outdate (from sel) (remap (mapping tr) a))).
        intros a. now rewrite displayIndex_outdate, displayIndex_remap.
      * apply (subsequence_filter_map displayIndex (remap (mapping tr))).
        apply displayIndex_remap.
    + apply (subsequence_filter_map displayIndex (remap (mapping tr))).
      apply displayIndex_remap.
Qed.

(** C1 fails on the code.  [setBiasIndicators] empties the storage before it
    looks there for the highest display index in use, so numbering starts
    again at 1 in every call.  A candidate set after [first] is numbered 1
    like [first] was; and when [first], numbered 1, is submitted again
    together with a new candidate, the new candidate is numbered 1 as well:
    two different indicators of one collection share a display index.
    [setLexiconTerms] restarts at 1 in the same way. *)
Theorem setBiasIndicators_reuses_display_index :
  let first :=
    {| bias_indicator_key := "sarcasm"; detected_phrase := "great";
       confidence := None; character_positions := mkSpan 0 5;
       displayIndex := None; outdated := None |} in
  let second :=
    {| bias_indicator_key := "passiveVoice"; detected_phrase := "was made";
       confidence := None; character_positions := mkSpan 20 28;
       displayIndex := None; outdated := None |} in
  let stored := run [SetAnnotations [first] None] in
  map displayIndex stored = [Some 1] /\
  map displayIndex (run [SetAnnotations [first] None;
                         SetAnnotations [second] None]) = [Some 1] /\
  map detected_phrase
      (run [SetAnnotations [first] None;
            SetAnnotations (stored ++ [second]) (Some false)])
    = ["great"; "was made"]%string /\
  map displayIndex
      (run [SetAnnotations [first] None;
            SetAnnotations (stored ++ [second]) (Some false)])
    = [Some 1; Some 1] /\
  (let term := {| word := "Blocker"; definition := ""; usage_example := "";
                  term_character_positions := mkSpan 55 69;
                  term_displayIndex := None; term_outdated := None |} in
   let other := {| word := "Encryption"; definition := ""; usage_example := "";
                   term_character_positions := mkSpan 24 34;
                   term_displayIndex := None; term_outdated := None |} in
   map term_displayIndex (storage (Lexicon.setLexiconTerms [term] []))
     = [Some 1] /\
   map term_displayIndex
       (storage (Lexicon.setLexiconTerms [other]
                   (storage (Lexicon.setLexiconTerms [term] []))))
     = [Some 1]).
Proof. repeat split. Qed.

End LifecycleFacts.

(* ===================================================================== *)
(** * The category limiter                                                *)
(* ===================================================================== *)

Module JsObjectFacts.
Import JsObject.

Section Properties.
Context {V : Type}.
Implicit Types (o : t V) (key : string) (v : V).

Lemma get_own_set_own_eq key v o : get_own key (set_own key v o) = Some v.
Proof.
  induction o as [|[k w] o IH]; simpl.
  - now rewrite String.eqb_refl.
  - destruct (String.eqb key k) eqn:E; simpl; rewrite E; auto.
Qed.

Lemma get_own_set_own_ne key key' v o :
  key <> key' -> get_own key' (set_own key v o) = get_own key' o.
Proof.
  intros N. induction o as [|[k w] o IH]; simpl.
  - destruct (String.eqb_spec key' key); [congruence | reflexivity].
  - destruct (String.eqb_spec key k) as [->|]; simpl.
    + destruct (String.eqb_spec key' k); [congruence | reflexivity].
    + now rewrite IH.
Qed.

Lemma get_own_none key o : get_own key o = None <-> ~ In key (map fst o).
Proof.
  induction o as [|[k w] o IH]; simpl; [tauto|].
  destruct (String.eqb_spec key k) as [->|N].
  - split; [discriminate | tauto].
  - rewrite IH. intuition congruence.
Qed.

Lemma get_own_in key v o :
  NoDup (map fst o) -> In (key, v) o -> get_own key o = Some v.
Proof.
  induction o as [|[k w] o IH]; simpl; [tauto|].
  intros D [H|H]; inversion D; subst.
  - injection H as -> ->. now rewrite String.eqb_refl.
  - destruct (String.eqb_spec key k) as [->|N]; [|auto].
    exfalso. apply H2. apply in_map_iff. now exists (k, v).
Qed.

Lemma keys_set_own key v o :
  map fst (set_own key v o)
  = match get_own key o with
    | Some _ => map fst o
    | None => map fst o ++ [key]
    end.
Proof.
  induction o as [|[k w] o IH]; simpl; [reflexivity|].
  destruct (String.eqb_spec key k) as [->|N]; simpl; [reflexivity|].
  rewrite IH. now destruct (get_own key o).
Qed.

Lemma NoDup_set_own key v o :
  NoDup (map fst o) -> NoDup (map fst (set_own key v o)).
Proof.
  intros D. rewrite keys_set_own. destruct (get_own key o) eqn:E; [exact D|].
  apply get_own_none in E.
  apply NoDup_rev in D. rewrite <- (rev_involutive (map fst o ++ [key])).
  apply NoDup_rev. rewrite rev_app_distr. simpl. constructor; [|exact D].
  now rewrite <- in_rev.
Qed.

Lemma insert_index_perm (e : N * V) l : Permutation (insert_index e l) (e :: l).
Proof.
  induction l as [|e' l IH]; simpl; [apply Permutation_refl|].
  destruct (fst e <=? fst e')%N; [apply Permutation_refl|].
  eapply Permutation_trans; [apply perm_skip, IH | apply perm_swap].
Qed.

(** [Object.values] lists every own property once. *)
Lemma values_perm o : Permutation (values o) (map snd o).
Proof.
  unfold values. induction o as [|[k v] o IH]; simpl; [constructor|].
  destruct (array_index k) as [n|].
  - eapply Permutation_trans.
    + apply Permutation_app_tail, Permutation_map, insert_index_perm.
    + simpl. now constructor.
  - eapply Permutation_trans; [|apply perm_skip, IH].
    apply Permutation_sym, Permutation_middle.
Qed.
End Properties.

End JsObjectFacts.

Module CategoryLimiterFacts.
Import Js JsFacts JsObject JsObjectFacts CategoryLimiter Limiting Sequences.

Lemma has_key_iff key x : has_key key x = true <-> key = raw_bias_indicator_key x.
Proof. unfold has_key. apply String.eqb_eq. Qed.

Lemma set_has_iff keys key : set_has keys key = true <-> In key keys.
Proof.
  unfold set_has. rewrite existsb_exists. split.
  - intros (k & Hk & E). apply String.eqb_eq in E. now subst.
  - intros H. exists key. split; [exact H | apply String.eqb_refl].
Qed.

(** ** Lists *)

Lemma filter_all {A} (p : A -> bool) l :
  (forall x, In x l -> p x = true) -> filter p l = l.
Proof.
  induction l as [|x l IH]; simpl; intros H; [reflexivity|].
  rewrite H, IH by auto. reflexivity.
Qed.

Lemma filter_nothing {A} (p : A -> bool) l :
  (forall x, In x l -> p x = false) -> filter p l = [].
Proof.
  induction l as [|x l IH]; simpl; intros H; [reflexivity|].
  rewrite H, IH by auto. reflexivity.
Qed.

Lemma filter_flat_map' {A B} (p : B -> bool) (f : A -> list B) l :
  filter p (flat_map f l) = flat_map (fun x => filter p (f x)) l.
Proof.
  induction l as [|x l IH]; simpl; [reflexivity|].
  now rewrite filter_app, IH.
Qed.

Lemma firstn_incl {A} n (l : list A) x : In x (firstn n l) -> In x l.
Proof.
  revert n; induction l as [|y l IH]; intros [|n]; simpl; try tauto.
  intros [H|H]; eauto.
Qed.

Lemma slice0_incl {A} n (l : list A) x : In x (slice0 n l) -> In x l.
Proof.
  unfold slice0. destruct (n <? 0); apply firstn_incl.
Qed.

Lemma contributing_perm {A B} (h : A -> list B) l l' :
  Permutation l l' -> contributing h l = contributing h l'.
Proof.
  induction 1 as [|x l l' _ IH|x y l|l l' l'' _ IH1 _ IH2]; simpl.
  - reflexivity.
  - rewrite IH. reflexivity.
  - destruct (h x), (h y); reflexivity.
  - congruence.
Qed.

(** Groups can be taken in any order when at most one of them contributes. *)
Lemma flat_map_perm {A B} (h : A -> list B) l l' :
  Permutation l l' -> (contributing h l <= 1)%nat ->
  flat_map h l = flat_map h l'.
Proof.
  induction 1 as [|x l l' P IH|x y l|l l' l'' P1 IH1 P2 IH2]; simpl; intros C.
  - reflexivity.
  - f_equal. apply IH. destruct (h x); lia.
  - destruct (h x) eqn:Ex, (h y) eqn:Ey; simpl; try reflexivity.
    simpl in C. lia.
  - rewrite IH1 by exact C. apply IH2.
    now rewrite <- (contributing_perm h _ _ P1).
Qed.

(** ** Grouping *)

Lemma groups_of_empty : groups_of [] JsObject.empty.
Proof. split; [constructor | reflexivity]. Qed.

Lemma filter_snoc {A} (p : A -> bool) l x :
  filter p (l ++ [x]) = filter p l ++ (if p x then [x] else []).
Proof. rewrite filter_app. simpl. now destruct (p x). Qed.

Lemma some_snoc {A} (l : list A) x :
  match l ++ [x] with [] => None | group => Some group end = Some (l ++ [x]).
Proof. now destruct l. Qed.

Lemma group_step_spec seen acc x :
  groups_of seen acc ->
  JsObject.inherited (raw_bias_indicator_key x) = false ->
  exists acc', group_step acc x = Normal acc' /\ groups_of (seen ++ [x]) acc'.
Proof.
  intros [D G] I. unfold group_step.
  set (kx := raw_bias_indicator_key x).
  assert (Hx : has_key kx x = true) by now apply has_key_iff.
  assert (Hother : forall key, kx <> key -> has_key key x = false).
  { intros key N. destruct (has_key key x) eqn:E; [|reflexivity].
    apply has_key_iff in E. fold kx in E. congruence. }
  pose proof (G kx) as Gx. fold kx in I.
  destruct (get_own kx acc) as [group|] eqn:E.
  - eexists. split; [reflexivity|]. split; [now apply NoDup_set_own|].
    intros key. rewrite filter_snoc.
    destruct (String.eqb_spec kx key) as [<-|N].
    + rewrite get_own_set_own_eq, Hx, some_snoc.
      destruct (filter (has_key kx) seen); [discriminate|].
      now injection Gx as ->.
    + rewrite (get_own_set_own_ne _ _ _ _ N), (Hother key N), app_nil_r.
      apply G.
  - rewrite I. eexists. split; [reflexivity|]. split; [now apply NoDup_set_own|].
    intros key. rewrite filter_snoc.
    destruct (String.eqb_spec kx key) as [<-|N].
    + rewrite get_own_set_own_eq, Hx.
      destruct (filter (has_key kx) seen); [reflexivity | discriminate].
    + rewrite (get_own_set_own_ne _ _ _ _ N), (Hother key N), app_nil_r.
      apply G.
Qed.

Lemma group_by_key_spec toLimit seen acc :
  groups_of seen acc ->
  (forall x, In x toLimit -> JsObject.inherited (raw_bias_indicator_key x) = false) ->
  exists grouped,
    group_by_key toLimit acc = Normal grouped /\
    groups_of (seen ++ toLimit) grouped.
Proof.
  revert seen acc; induction toLimit as [|x l IH]; intros seen acc G I.
  - exists acc. rewrite app_nil_r. auto.
  - destruct (group_step_spec seen acc x G) as (acc' & E & G');
      [apply I; now left|].
    destruct (IH (seen ++ [x]) acc' G') as (grouped & E' & G'');
      [intros; apply I; now right|].
    exists grouped. simpl. rewrite E, E'. rewrite <- app_assoc in G''. auto.
Qed.

(** A candidate of one category throws when that category bears an inherited
    name. *)
Lemma group_by_key_inherited x l :
  JsObject.inherited (raw_bias_indicator_key x) = true ->
  exists e, group_by_key (x :: l) JsObject.empty = Throw e.
Proof. intros I. simpl. unfold group_step. simpl. rewrite I. eauto. Qed.

(** ** What each category contributes *)

Section Contribution.
Variable f : list RawBiasIndicator -> list RawBiasIndicator.
Hypothesis f_incl : forall g x, In x (f g) -> In x g.
Variable key : string.

Let h (g : list RawBiasIndicator) := filter (has_key key) (f g).

Lemma contribution_own k seen :
  h (filter (has_key k) seen) = if String.eqb key k then f (filter (has_key k) seen) else [].
Proof.
  unfold h. destruct (String.eqb_spec key k) as [->|N].
  - apply filter_all. intros x Hx. apply f_incl, filter_In in Hx. tauto.
  - apply filter_nothing. intros x Hx. apply f_incl, filter_In in Hx as [_ Hx].
    apply has_key_iff in Hx. destruct (has_key key x) eqn:E; [|reflexivity].
    apply has_key_iff in E. congruence.
Qed.

Lemma contribution_entries seen (entries : JsObject.t (list RawBiasIndicator)) :
  NoDup (map fst entries) ->
  (forall k g, In (k, g) entries -> g = filter (has_key k) seen) ->
  (contributing h (map snd entries) <= 1)%nat /\
  (get_own key entries = None -> contributing h (map snd entries) = 0%nat) /\
  flat_map h (map snd entries)
  = match get_own key entries with
    | Some g => f g
    | None => []
    end.
Proof.
  induction entries as [|[k g] entries IH]; intros D U.
  - simpl. auto.
  - inversion D as [|? ? Hnotin D']; subst.
    destruct (IH D') as (C & C0 & F); [intros; apply U; now right|].
    assert (Eg : g = filter (has_key k) seen) by (apply U; now left).
    assert (Hh : h g = if String.eqb key k then f g else []).
    { rewrite Eg. apply contribution_own. }
    cbn [map snd flat_map contributing get_own fst]. rewrite Hh.
    destruct (String.eqb_spec key k) as [->|N].
    + assert (Enone : get_own k entries = None) by now apply get_own_none.
      rewrite F, Enone, app_nil_r, (C0 Enone).
      split; [destruct (f g); lia|]. split; [discriminate | reflexivity].
    + simpl. auto.
Qed.
End Contribution.

Lemma groups_of_entries seen grouped k g :
  groups_of seen grouped -> In (k, g) grouped -> g = filter (has_key k) seen.
Proof.
  intros [D G] H. apply (get_own_in _ _ _ D) in H. rewrite G in H.
  destruct (filter (has_key k) seen); [discriminate | now injection H].
Qed.

Lemma filter_filter_key key (p : RawBiasIndicator -> bool) l :
  (forall x, has_key key x = true -> p x = true) ->
  filter (has_key key) (filter p l) = filter (has_key key) l.
Proof.
  intros H. induction l as [|x l IH]; simpl; [reflexivity|].
  destruct (has_key key x) eqn:E.
  - rewrite (H x E). simpl. now rewrite E, IH.
  - destruct (p x); simpl; [rewrite E|]; exact IH.
Qed.

Lemma limited_keysSet keysToLimit indicators :
  limitIndicatorsByKey indicators keysToLimit
  = fun maxPerKey =>
      let maxPerKey := match maxPerKey with Some n => n | None => 3 end in
      let is_limited x :=
        limited keysToLimit indicators (raw_bias_indicator_key x) in
      match group_by_key (filter is_limited indicators) JsObject.empty with
      | Normal grouped =>
          Normal (flat_map (slice0 maxPerKey) (values grouped)
                  ++ filter (fun x => negb (is_limited x)) indicators)
      | Throw e => Throw e
      end.
Proof.
  unfold limitIndicatorsByKey, limited.
  destruct keysToLimit as [[|k ks]|]; reflexivity.
Qed.




End CategoryLimiterFacts.

(* ===================================================================== *)
(** * Annotation bootstrapping                                            *)
(* ===================================================================== *)

Module BootstrapFacts.
Import PhraseLocator PhraseLocatorFacts JsObject JsObjectFacts Bootstrap Occurrences.

(** ** The matches of a phrase depend on its folded form only *)

Lemma white_space_toLowerCase c :
  is_white_space (toLowerCase_char c) = is_white_space c.
Proof. each_code_unit c. Qed.

Lemma chars_toLowerCase s : chars (toLowerCase s) = map toLowerCase_char (chars s).
Proof. unfold toLowerCase, chars. apply list_ascii_of_string_of_list_ascii. Qed.

Lemma folded_chars p p' :
  toLowerCase p = toLowerCase p' ->
  map toLowerCase_char (chars p) = map toLowerCase_char (chars p').
Proof. intros H. rewrite <- !chars_toLowerCase. now rewrite H. Qed.

Lemma folded_canonical l l' :
  map toLowerCase_char l = map toLowerCase_char l' ->
  map canonicalize l = map canonicalize l'.
Proof.
  revert l'; induction l as [|c l IH]; intros [|c' l'] H; simpl in *;
    try discriminate; [reflexivity|].
  injection H as Hc Hl. f_equal; [now apply canonicalize_eq_iff | auto].
Qed.

Lemma folded_white_space l l' :
  map toLowerCase_char l = map toLowerCase_char l' ->
  forallb is_white_space l = forallb is_white_space l'.
Proof.
  revert l'; induction l as [|c l IH]; intros [|c' l'] H; simpl in *;
    try discriminate; [reflexivity|].
  injection H as Hc Hl.
  rewrite <- (white_space_toLowerCase c), Hc, white_space_toLowerCase.
  f_equal. auto.
Qed.

Lemma match_literals_canonical l l' input :
  map canonicalize l = map canonicalize l' ->
  match_literals l input = match_literals l' input.
Proof.
  revert l' input; induction l as [|c l IH]; intros [|c' l'] input H;
    simpl in *; try discriminate; [reflexivity|].
  injection H as Hc Hl. destruct input as [|x input]; [reflexivity|].
  rewrite Hc. destruct (Ascii.eqb _ _); [auto | reflexivity].
Qed.

Lemma exec_loop_canonical fuel text l l' lastIndex :
  map canonicalize l = map canonicalize l' ->
  exec_loop fuel text l lastIndex = exec_loop fuel text l' lastIndex.
Proof.
  intros H.
  assert (Hlen : length l = length l')
    by (rewrite <- (length_map canonicalize l), H; apply length_map).
  assert (Hat : forall i, match_at text l i = match_at text l' i).
  { intros i. unfold match_at. now rewrite (match_literals_canonical l l'). }
  assert (Hfirst : forall n i, first_match text l i n = first_match text l' i n).
  { induction n as [|n IH]; intros i; simpl; [reflexivity|].
    rewrite Hat, IH. reflexivity. }
  revert lastIndex; induction fuel as [|fuel IH]; intros lastIndex; simpl;
    [reflexivity|].
  unfold regex_exec. rewrite Hfirst, Hlen.
  destruct (length text <? lastIndex)%nat; [reflexivity|].
  destruct (first_match _ _ _ _); [|reflexivity]. now rewrite IH.
Qed.

Lemma findPhrasePositions_folded text p p' :
  toLowerCase p = toLowerCase p' ->
  findPhrasePositions text p = findPhrasePositions text p'.
Proof.
  intros H. apply folded_chars in H.
  unfold findPhrasePositions, findPhrasePositions_fuel.
  rewrite !is_blank_blank. unfold Text.blank.
  rewrite (folded_white_space _ _ H), !parse_escape.
  now rewrite (exec_loop_canonical _ _ _ _ _ (folded_canonical _ _ H)).
Qed.

(** ** The counter *)

Lemma counted_empty text : counted text [] JsObject.empty.
Proof. intros c I _. unfold read. simpl. now rewrite I. Qed.

Lemma read_own key count :
  JsObject.inherited key = false -> read key count = get_own key count.
Proof. intros I. unfold read. rewrite I. now destruct (get_own key count). Qed.

Lemma write_own key v count :
  JsObject.inherited key = false -> write key v count = set_own key v count.
Proof.
  intros I. unfold write.
  destruct (String.eqb_spec key "__proto__") as [->|]; [discriminate | reflexivity].
Qed.

Lemma occurrences_snoc q seen c :
  occurrences q (seen ++ [c])
  = (occurrences q seen + if counts q c then 1 else 0)%nat.
Proof.
  unfold occurrences. rewrite filter_app, length_app. simpl.
  now destruct (counts q c).
Qed.

Lemma counts_spanless q c :
  raw_character_positions c = None -> counts q c = String.eqb (folded c) q.
Proof. unfold counts. now intros ->. Qed.

Lemma position_indicator_spec text seen count c :
  counted text seen count ->
  (raw_character_positions c = None -> JsObject.inherited (folded c) = false) ->
  counted text (seen ++ [c]) (snd (position_indicator text count c)) /\
  raw_bias_indicator_key (fst (position_indicator text count c))
    = raw_bias_indicator_key c /\
  raw_detected_phrase (fst (position_indicator text count c))
    = raw_detected_phrase c /\
  raw_confidence (fst (position_indicator text count c)) = raw_confidence c /\
  raw_character_positions (fst (position_indicator text count c))
  = match raw_character_positions c with
    | Some s => Some s
    | None =>
        assigned text (raw_detected_phrase c)
                 (occurrences (folded c) (seen ++ [c]))
    end.
Proof.
  intros Inv I. unfold position_indicator.
  destruct (raw_character_positions c) as [s|] eqn:P.
  - (* the candidate carries a span *)
    cbn [fst snd]. rewrite P. repeat split.
    intros c' I' M'. rewrite occurrences_snoc. unfold counts at 1. rewrite P.
    rewrite Nat.add_0_r. now apply Inv.
  - specialize (I eq_refl).
    destruct (findPhrasePositions text (raw_detected_phrase c)) as [|p ps] eqn:F.
    + (* no match: the fallback span *)
      cbn [length Nat.ltb Nat.leb fst snd raw_bias_indicator_key
           raw_detected_phrase raw_confidence raw_character_positions].
      unfold assigned. rewrite F. repeat split.
      intros c' I' M'. rewrite occurrences_snoc, (counts_spanless _ _ P).
      destruct (String.eqb_spec (folded c) (folded c')) as [E|N].
      * exfalso. apply M'. rewrite <- F. apply findPhrasePositions_folded.
        symmetry. exact E.
      * rewrite Nat.add_0_r. now apply Inv.
    + (* some match: the occurrence counter decides *)
      assert (M : findPhrasePositions text (raw_detected_phrase c) <> [])
        by (rewrite F; discriminate).
      rewrite <- F. set (positions := findPhrasePositions text (raw_detected_phrase c)).
      assert (K : (0 < length positions)%nat)
        by (unfold positions; rewrite F; simpl; lia).
      destruct (Nat.ltb_spec 0 (length positions)) as [_|]; [|lia].
      fold (folded c). set (q := folded c) in *.
      set (n0 := occurrences q seen).
      assert (R0 : or_zero (read q count) = CNumber (Z.of_nat n0)).
      { pose proof (Inv c I M) as R. fold q in R. fold n0 in R. rewrite R.
        now destruct n0. }
      rewrite R0, !(write_own q _ _ I), (read_own q _ I), get_own_set_own_eq.
      cbn [fst snd raw_bias_indicator_key raw_detected_phrase raw_confidence
           raw_character_positions math_min increment element].
      repeat split.
      * intros c' I' M'. rewrite occurrences_snoc, (counts_spanless _ _ P).
        fold q. rewrite (read_own _ _ I').
        destruct (String.eqb_spec q (folded c')) as [E|N].
        -- rewrite <- E, get_own_set_own_eq. fold n0.
           rewrite Nat.add_1_r. do 2 f_equal. lia.
        -- rewrite !(get_own_set_own_ne _ _ _ _ N), <- (read_own _ _ I').
           rewrite Nat.add_0_r. now apply Inv.
      * unfold assigned. fold positions.
        rewrite occurrences_snoc, (counts_spanless _ _ P). fold q n0.
        rewrite String.eqb_refl.
        destruct (Z.ltb_spec (Z.min (Z.of_nat n0) (Z.of_nat (length positions) - 1)) 0);
          [lia|].
        replace (Z.to_nat (Z.min (Z.of_nat n0) (Z.of_nat (length positions) - 1)))
          with (Nat.min (n0 + 1) (length positions) - 1)%nat by lia.
        destruct positions; [simpl in K; lia | reflexivity].
Qed.

Lemma map_indicators_spec text indicators :
  forall seen count,
    counted text seen count ->
    (forall c, In c indicators -> raw_character_positions c = None ->
               JsObject.inherited (folded c) = false) ->
    forall j c,
      nth_error indicators j = Some c ->
      exists r,
        nth_error (map_indicators text count indicators) j = Some r /\
        raw_bias_indicator_key r = raw_bias_indicator_key c /\
        raw_detected_phrase r = raw_detected_phrase c /\
        raw_confidence r = raw_confidence c /\
        raw_character_positions r
        = match raw_character_positions c with
          | Some s => Some s
          | None =>
              assigned text (raw_detected_phrase c)
                (occurrences (folded c) (seen ++ firstn (S j) indicators))
          end.
Proof.
  induction indicators as [|x l IH]; intros seen count Inv I j c Hj.
  - destruct j; discriminate.
  - destruct (position_indicator_spec text seen count x Inv)
      as (Inv' & Hk & Hp & Hc & Hs); [apply I; now left|].
    cbn [map_indicators].
    destruct (position_indicator text count x) as [r count'] eqn:E.
    cbn [fst snd] in *. destruct j as [|j].
    + injection Hj as <-. exists r. simpl. auto.
    + destruct (IH (seen ++ [x]) count' Inv') with (j := j) (c := c)
        as (r' & Hr & H'); [intros; apply I; auto; now right | exact Hj |].
      exists r'. split; [exact Hr|].
      rewrite <- app_assoc in H'. exact H'.
Qed.

(** Where no candidate without a span has a folded phrase that is an
    inherited name, the occurrence rule holds: the candidate at place [j]
    keeps its span if it has one, and otherwise gets the match number
    [min i k] of the [k >= 1] matches of its phrase, [i] being its rank
    among the candidates without a span for the same folded phrase, or the
    fallback span when the phrase has no match. *)
Lemma addCharacterPositions_occurrence_rule text indicators j c :
  (forall c', In c' indicators -> raw_character_positions c' = None ->
              JsObject.inherited (folded c') = false) ->
  nth_error indicators j = Some c ->
  exists r,
    nth_error (addCharacterPositions indicators text) j = Some r /\
    raw_bias_indicator_key r = raw_bias_indicator_key c /\
    raw_detected_phrase r = raw_detected_phrase c /\
    raw_confidence r = raw_confidence c /\
    raw_character_positions r
    = match raw_character_positions c with
      | Some s => Some s
      | None =>
          assigned text (raw_detected_phrase c)
                   (occurrences (folded c) (firstn (S j) indicators))
      end.
Proof.
  intros I Hj.
  exact (map_indicators_spec text indicators [] JsObject.empty
           (counted_empty text) I j c Hj).
Qed.

(** Scenario B: three candidates for "the", three matches. *)
Example addCharacterPositions_three_matches :
  let candidate := mkRaw "overgeneralisation" "the" None None in
  map raw_character_positions
      (addCharacterPositions [candidate; candidate; candidate]
                             "the cat and the dog and the bird")
  = [Some (mkSpan 0 3); Some (mkSpan 12 15); Some (mkSpan 24 27)].
Proof. reflexivity. Qed.

(** More candidates than matches: the last match is used again. *)
Example addCharacterPositions_one_match :
  let candidate := mkRaw "overgeneralisation" "clearly" None None in
  map raw_character_positions
      (addCharacterPositions [candidate; candidate; candidate]
                             "There is clearly a problem here")
  = [Some (mkSpan 9 16); Some (mkSpan 9 16); Some (mkSpan 9 16)].
Proof. reflexivity. Qed.

(** C7 fails on the code for a phrase whose folded form is a property name
    that every object inherits, such as "constructor".  The counter is read
    from a plain object, where [phraseOccurrenceCount["constructor"]] is the
    inherited function and not [undefined]: the first candidate gets no span
    at all, and the candidates after it get the matches one place late.  Here
    the phrase has the two matches [{4, 15}] and [{28, 39}]; the three
    candidates should get the first, the second and the second again. *)
Theorem addCharacterPositions_inherited_phrase :
  let text := "The constructor met another constructor"%string in
  let candidate := mkRaw "overgeneralisation" "constructor" None None in
  findPhrasePositions text "constructor" = [mkSpan 4 15; mkSpan 28 39] /\
  map (fun i => assigned text "constructor" i) [1; 2; 3]%nat
    = [Some (mkSpan 4 15); Some (mkSpan 28 39); Some (mkSpan 28 39)] /\
  map raw_character_positions
      (addCharacterPositions [candidate; candidate; candidate] text)
    = [None; Some (mkSpan 4 15); Some (mkSpan 28 39)].
Proof. vm_compute. repeat split. Qed.

End BootstrapFacts.

(* ===================================================================== *)
(** * The two engines against each other                                  *)
(* ===================================================================== *)

Module LexiconFacts.
Import Js JsFacts Lexicon TermLifecycle.

Lemma mapTermPositions_spec terms mapping :
  mapTermPositions terms mapping
  = (map (remap mapping) terms, existsb (moved mapping) terms).
Proof.
  unfold mapTermPositions.
  induction terms as [|a l IH]; [reflexivity|].
  cbn [map_loop map existsb]. rewrite IH. unfold remap, moved.
  destruct (negb _ || negb _); reflexivity.
Qed.

Lemma term_outdate_indices position pre l :
  fold_right (fun index acc => outdate_step acc index) (pre ++ l, [])
             (indices_from (length pre) (cursor_inside position) l)
  = (pre ++ map (outdate position) l,
     rev (map with_outdated (filter (cursor_inside position) l))).
Proof.
  revert pre; induction l as [|x l IH]; intros pre; simpl.
  - reflexivity.
  - specialize (IH (pre ++ [x])).
    rewrite length_app, <- !app_assoc in IH. simpl in IH.
    replace (length pre + 1)%nat with (S (length pre)) in IH by lia.
    unfold outdate at 1. destruct (cursor_inside position x); simpl.
    + rewrite IH. unfold outdate_step.
      rewrite nth_error_middle, update_at_app. reflexivity.
    + exact IH.
Qed.

Lemma removeEditedTerms_cursor terms sel :
  empty sel = true ->
  removeEditedTerms terms (Some sel)
  = {| edited_terms := map (outdate (from sel)) terms;
       edited_changed := existsb (cursor_inside (from sel)) terms;
       outdatedTerms :=
         rev (map with_outdated (filter (cursor_inside (from sel)) terms)) |}.
Proof.
  intros E. unfold removeEditedTerms. rewrite E. cbn [negb].
  destruct (length (indices_where (cursor_inside (from sel)) terms) =? 0)%nat
    eqn:L.
  - apply BiasFacts.length_zero_iff_nil' in L. unfold indices_where in L.
    pose proof (proj1 (indices_from_nil _ _ _) L) as N.
    rewrite N. unfold outdate. rewrite (map_none _ with_outdated _ N).
    f_equal. clear L. induction terms as [|a l IH]; [reflexivity|].
    simpl in *. destruct (cursor_inside (from sel) a); [discriminate|].
    now apply IH.
  - unfold indices_where in *. rewrite sort_desc_indices, fold_left_rev.
    pose proof (term_outdate_indices (from sel) [] terms) as H.
    cbn [app length] in H. rewrite H.
    f_equal. destruct (existsb _ terms) eqn:X; [reflexivity|].
    apply indices_from_nil with (i := 0%nat) in X. rewrite X in L. discriminate.
Qed.

Lemma removeInvalidTerms_spec terms docSize :
  removeInvalidTerms terms docSize
  = (filter (fun a => negb (invalid docSize a)) terms,
     existsb (invalid docSize) terms).
Proof.
  unfold removeInvalidTerms.
  destruct (length (indices_where (invalid docSize) terms) =? 0)%nat eqn:L.
  - apply BiasFacts.length_zero_iff_nil' in L. unfold indices_where in L.
    apply indices_from_nil in L. now rewrite L, filter_none.
  - rewrite splice_sorted_indices. f_equal.
    destruct (existsb _ terms) eqn:X; [reflexivity|].
    apply indices_from_nil with (i := 0%nat) in X.
    unfold indices_where in L. rewrite X in L. discriminate.
Qed.

Lemma removeEditedTerms_range terms sel :
  empty sel = false ->
  removeEditedTerms terms (Some sel)
  = {| edited_terms := terms; edited_changed := false; outdatedTerms := [] |}.
Proof. intros E. unfold removeEditedTerms. now rewrite E. Qed.

End LexiconFacts.

Module Equivalence.
Import Lifecycle BiasFacts LexiconFacts Correspondence.

Lemma alike_lists indicators terms :
  map View.of_indicator indicators = map View.of_term terms <->
  Forall2 alike indicators terms.
Proof.
  split.
  - revert terms; induction indicators as [|a l IH]; intros [|t l'] H;
      cbn [map] in H; try discriminate; constructor.
    + unfold alike. congruence.
    + apply IH. congruence.
  - induction 1 as [|a t l l' R _ IH]; simpl; [reflexivity|].
    now rewrite R, IH.
Qed.

Section Related.
Context {A B : Type} (R : A -> B -> Prop).

Lemma Forall2_map_both (f : A -> A) (g : B -> B) l l' :
  (forall a b, R a b -> R (f a) (g b)) ->
  Forall2 R l l' -> Forall2 R (map f l) (map g l').
Proof. intros H. induction 1; simpl; constructor; auto. Qed.

Lemma Forall2_filter_both (p : A -> bool) (q : B -> bool) l l' :
  (forall a b, R a b -> p a = q b) ->
  Forall2 R l l' -> Forall2 R (filter p l) (filter q l').
Proof.
  intros H. induction 1 as [|a b l l' Hab _ IH]; simpl; [constructor|].
  rewrite (H a b Hab). destruct (q b); [constructor|]; auto.
Qed.

Lemma Forall2_existsb_both (p : A -> bool) (q : B -> bool) l l' :
  (forall a b, R a b -> p a = q b) ->
  Forall2 R l l' -> existsb p l = existsb q l'.
Proof.
  intros H. induction 1 as [|a b l l' Hab _ IH]; simpl; [reflexivity|].
  now rewrite (H a b Hab), IH.
Qed.

Lemma Forall2_rev_both l l' : Forall2 R l l' -> Forall2 R (rev l) (rev l').
Proof.
  induction 1 as [|a b l l' Hab _ IH]; simpl; [constructor|].
  apply Forall2_app; [exact IH | repeat constructor; exact Hab].
Qed.
End Related.

Lemma alike_fields a t :
  alike a t ->
  character_positions a = term_character_positions t /\
  outdated a = term_outdated t.
Proof. unfold alike, View.of_indicator, View.of_term. intros [= -> ->]. auto. Qed.

Lemma alike_moved mapping a t :
  alike a t -> moved mapping a = TermLifecycle.moved mapping t.
Proof.
  intros H. destruct (alike_fields a t H) as [Hs _].
  unfold moved, TermLifecycle.moved. now rewrite Hs.
Qed.

Lemma alike_remap mapping a t :
  alike a t -> alike (remap mapping a) (TermLifecycle.remap mapping t).
Proof.
  intros H. destruct (alike_fields a t H) as [Hs Ho].
  unfold remap, TermLifecycle.remap. rewrite (alike_moved mapping a t H).
  destruct (TermLifecycle.moved mapping t); [|exact H].
  unfold alike, View.of_indicator, View.of_term. simpl. now rewrite Hs, Ho.
Qed.

Lemma alike_cursor_inside position a t :
  alike a t -> Bias.cursor_inside position a = Lexicon.cursor_inside position t.
Proof.
  intros H. destruct (alike_fields a t H) as [Hs _].
  unfold Bias.cursor_inside, Lexicon.cursor_inside. now rewrite Hs.
Qed.

Lemma alike_with_outdated a t :
  alike a t -> alike (Bias.with_outdated a) (Lexicon.with_outdated t).
Proof.
  intros H. destruct (alike_fields a t H) as [Hs _].
  unfold alike, View.of_indicator, View.of_term. simpl. now rewrite Hs.
Qed.

Lemma alike_outdate position a t :
  alike a t -> alike (outdate position a) (TermLifecycle.outdate position t).
Proof.
  intros H. unfold outdate, TermLifecycle.outdate.
  rewrite (alike_cursor_inside position a t H).
  destruct (Lexicon.cursor_inside position t);
    [now apply alike_with_outdated | exact H].
Qed.

Lemma alike_invalid docSize a t :
  alike a t -> Bias.invalid docSize a = Lexicon.invalid docSize t.
Proof.
  intros H. destruct (alike_fields a t H) as [Hs _].
  unfold Bias.invalid, Lexicon.invalid. now rewrite Hs.
Qed.

(** ** The three steps, one by one *)

Lemma map_step indicators terms mapping :
  Forall2 alike indicators terms ->
  Forall2 alike (fst (Bias.mapIndicatorPositions indicators mapping))
                (fst (Lexicon.mapTermPositions terms mapping)) /\
  snd (Bias.mapIndicatorPositions indicators mapping)
  = snd (Lexicon.mapTermPositions terms mapping).
Proof.
  intros H. rewrite mapIndicatorPositions_spec, mapTermPositions_spec. simpl.
  split.
  - apply Forall2_map_both; [apply alike_remap | exact H].
  - apply (Forall2_existsb_both alike); [apply alike_moved | exact H].
Qed.

Lemma edit_step indicators terms selection :
  Forall2 alike indicators terms ->
  Forall2 alike
    (Bias.edited_indicators (Bias.removeEditedIndicators indicators selection))
    (Lexicon.edited_terms (Lexicon.removeEditedTerms terms selection)) /\
  Bias.edited_changed (Bias.removeEditedIndicators indicators selection)
  = Lexicon.edited_changed (Lexicon.removeEditedTerms terms selection) /\
  Forall2 alike
    (Bias.outdatedIndicators (Bias.removeEditedIndicators indicators selection))
    (Lexicon.outdatedTerms (Lexicon.removeEditedTerms terms selection)).
Proof.
  intros H. destruct selection as [sel|].
  - destruct (empty sel) eqn:E.
    + rewrite (removeEditedIndicators_cursor _ _ E),
              (removeEditedTerms_cursor _ _ E). simpl.
      split; [|split].
      * apply Forall2_map_both; [apply alike_outdate | exact H].
      * apply (Forall2_existsb_both alike);
          [apply alike_cursor_inside | exact H].
      * apply Forall2_rev_both.
        apply Forall2_map_both; [apply alike_with_outdated|].
        apply Forall2_filter_both; [apply alike_cursor_inside | exact H].
    + rewrite (removeEditedIndicators_range _ _ E),
              (removeEditedTerms_range _ _ E). simpl. auto.
  - simpl. auto.
Qed.

Lemma invalid_step indicators terms docSize :
  Forall2 alike indicators terms ->
  Forall2 alike (fst (Bias.removeInvalidIndicators indicators docSize))
                (fst (Lexicon.removeInvalidTerms terms docSize)) /\
  snd (Bias.removeInvalidIndicators indicators docSize)
  = snd (Lexicon.removeInvalidTerms terms docSize).
Proof.
  intros H. rewrite removeInvalidIndicators_spec, removeInvalidTerms_spec. simpl.
  split.
  - apply Forall2_filter_both; [|exact H].
    intros a t R. now rewrite (alike_invalid docSize a t R).
  - apply (Forall2_existsb_both alike); [apply alike_invalid | exact H].
Qed.

(** C10.  On collections with the same spans and the same outdated flags, the
    bias pipeline and the lexicon pipeline go through the same spans and
    flags at every step, reach the same verdicts, and so store and notify
    collections with the same spans and flags. *)
Theorem reconcile_pipelines_agree
    (indicators : list BiasIndicator) (terms : list LexiconTerm)
    (m : Z -> Z) (sel : option Selection) (docSize : Z) :
  map View.of_indicator indicators = map View.of_term terms ->
  let b1 := Bias.mapIndicatorPositions indicators m in
  let b2 := Bias.removeEditedIndicators (fst b1) sel in
  let b3 := Bias.removeInvalidIndicators (Bias.edited_indicators b2) docSize in
  let t1 := Lexicon.mapTermPositions terms m in
  let t2 := Lexicon.removeEditedTerms (fst t1) sel in
  let t3 := Lexicon.removeInvalidTerms (Lexicon.edited_terms t2) docSize in
  (map View.of_indicator (fst b1) = map View.of_term (fst t1)
   /\ snd b1 = snd t1) /\
  (map View.of_indicator (Bias.edited_indicators b2)
     = map View.of_term (Lexicon.edited_terms t2)
   /\ Bias.edited_changed b2 = Lexicon.edited_changed t2
   /\ map View.of_indicator (Bias.outdatedIndicators b2)
      = map View.of_term (Lexicon.outdatedTerms t2)) /\
  (map View.of_indicator (fst b3) = map View.of_term (fst t3)
   /\ snd b3 = snd t3) /\
  (forall meta changed,
     let tr := mkTransaction meta changed m sel docSize in
     map View.of_indicator (fst (Bias.apply tr indicators))
       = map View.of_term (fst (Lexicon.apply tr terms)) /\
     option_map (map View.of_indicator) (snd (Bias.apply tr indicators))
       = option_map (map View.of_term) (snd (Lexicon.apply tr terms))).
Proof.
  intros H b1 b2 b3 t1 t2 t3.
  apply alike_lists in H.
  destruct (map_step indicators terms m H) as [H1 C1].
  destruct (edit_step (fst b1) (fst t1) sel H1) as (H2 & C2 & O2).
  destruct (invalid_step _ _ docSize H2) as [H3 C3].
  fold b1 t1 in H1, C1. fold b2 t2 in H2, C2, O2, H3, C3. fold b3 t3 in H3, C3.
  pose proof (proj2 (alike_lists _ _) H) as V0.
  pose proof (proj2 (alike_lists _ _) H1) as V1.
  pose proof (proj2 (alike_lists _ _) H2) as V2.
  pose proof (proj2 (alike_lists _ _) O2) as VO.
  pose proof (proj2 (alike_lists _ _) H3) as V3.
  split; [auto|]. split; [auto|]. split; [auto|].
  intros meta changed tr. subst tr.
  unfold Bias.apply, Lexicon.apply.
  cbn [getMeta docChanged mapping selection doc_content_size].
  destruct meta; [cbn; auto|].
  destruct changed; [|cbn; auto].
  fold b1 t1 b2 t2 b3 t3. rewrite C1, C2, C3.
  destruct (snd t1 || Lexicon.edited_changed t2 || snd t3); cbn [fst snd option_map];
    [rewrite V3|]; auto.
Qed.

(** An indicator and a term over the same span, through the same edit. *)
Lemma reconcile_pipelines_agree_witness :
  let indicator :=
    {| bias_indicator_key := "sarcasm"; detected_phrase := "great";
       confidence := Some "92%"%string; character_positions := mkSpan 5 10;
       displayIndex := Some 1; outdated := None |} in
  let term :=
    {| word := "Blocker"; definition := "A forensic device";
       usage_example := "the write blocker";
       term_character_positions := mkSpan 5 10;
       term_displayIndex := Some 4; term_outdated := None |} in
  let tr := mkTransaction false true (fun p => p + 1) (Some (mkSelection 8 8)) 20 in
  map View.of_indicator [indicator] = map View.of_term [term] /\
  map View.of_indicator (fst (Bias.apply tr [indicator]))
    = map View.of_term (fst (Lexicon.apply tr [term])).
Proof.
  intros indicator term tr. split; [reflexivity|].
  exact (proj1 (proj2 (proj2 (proj2
           (reconcile_pipelines_agree [indicator] [term] (fun p => p + 1)
              (Some (mkSelection 8 8)) 20 eq_refl))) false true)).
Defined.

End Equivalence.

(* ===================================================================== *)
(** * The phrase locator on strings of any script                         *)
(* ===================================================================== *)

Module Utf16Facts.
Import Sequences Text Utf16 Utf16Text.
Local Open Scope nat_scope.

(** ** The pattern denotes the phrase *)

Lemma units_syntax_char_not_backslash c :
  is_syntax_char c = false -> (c =? 92)%N = false.
Proof.
  destruct (N.eqb_spec c 92) as [->|]; [discriminate | reflexivity].
Qed.

Lemma units_parse_escape phrase : parse_literals (escape phrase) = Some phrase.
Proof.
  induction phrase as [|c phrase IH]; [reflexivity|].
  cbn [escape]. destruct (is_syntax_char c) eqn:Hc.
  - cbn [parse_literals]. change (92 =? 92)%N with true. cbn iota.
    rewrite Hc, IH. reflexivity.
  - cbn [parse_literals]. rewrite (units_syntax_char_not_backslash c Hc), Hc, IH.
    reflexivity.
Qed.

(** ** White space *)

Lemma units_drop_white_space_nil l :
  drop_white_space l = [] <-> forallb is_white_space l = true.
Proof.
  induction l as [|c l IH]; simpl; [tauto|].
  destruct (is_white_space c); simpl; [exact IH|].
  split; discriminate.
Qed.

Lemma units_forallb_drop_white_space l :
  forallb is_white_space (drop_white_space l) = forallb is_white_space l.
Proof.
  induction l as [|c l IH]; simpl; [reflexivity|].
  destruct (is_white_space c) eqn:Hc; simpl; [exact IH|].
  now rewrite Hc.
Qed.

Lemma units_trim_nil l : trim l = [] <-> forallb is_white_space l = true.
Proof.
  unfold trim. split.
  - intros H. apply (f_equal (@rev N)) in H.
    rewrite rev_involutive in H. simpl in H.
    apply units_drop_white_space_nil in H.
    now rewrite PhraseLocatorFacts.forallb_rev, units_forallb_drop_white_space in H.
  - intros H.
    assert (H' : drop_white_space (rev (drop_white_space l)) = []).
    { apply units_drop_white_space_nil.
      now rewrite PhraseLocatorFacts.forallb_rev, units_forallb_drop_white_space. }
    now rewrite H'.
Qed.

(** [!phrase || phrase.trim() === ''] says that the phrase is blank. *)
Lemma units_is_blank_blank phrase : is_blank phrase = blank phrase.
Proof.
  unfold is_blank, blank. destruct phrase as [|c l]; [reflexivity|].
  destruct (trim (c :: l)) eqn:T.
  - symmetry. now apply units_trim_nil.
  - destruct (forallb is_white_space (c :: l)) eqn:F; [|reflexivity].
    apply units_trim_nil in F. congruence.
Qed.

Lemma units_blank_false_nonempty phrase : blank phrase = false -> phrase <> [].
Proof. intros H ->. discriminate. Qed.

Section CaseTables.
Variable toUppercase : N -> list N.

Local Abbreviation canonicalize := (canonicalize toUppercase).
Local Abbreviation word_matches := (word_matches toUppercase).
Local Abbreviation match_literals := (match_literals toUppercase).
Local Abbreviation match_at := (match_at toUppercase).
Local Abbreviation first_match := (first_match toUppercase).
Local Abbreviation regex_exec := (regex_exec toUppercase).
Local Abbreviation exec_loop := (exec_loop toUppercase).
Local Abbreviation findPhrasePositions := (findPhrasePositions toUppercase).
Local Abbreviation findPhrasePositions_fuel := (findPhrasePositions_fuel toUppercase).
Local Abbreviation located := (located toUppercase).
Local Abbreviation bounded_at := (bounded_at toUppercase).
Local Abbreviation equal_under_case := (equal_under_case toUppercase).
Local Abbreviation no_word_char := (no_word_char toUppercase).

(** ** Word characters *)

Lemma basic_word_chars_spec c :
  is_basic_word_char c = true <-> In c basic_word_chars.
Proof.
  unfold is_basic_word_char, basic_word_chars, in_range.
  rewrite !orb_true_iff, !andb_true_iff, !N.leb_le, N.eqb_eq.
  rewrite in_map_iff. split.
  - intros H. exists (N.to_nat c). split; [apply N2Nat.id|].
    rewrite !in_app_iff, !in_seq. simpl. lia.
  - intros (n & <- & H). rewrite !in_app_iff, !in_seq in H. simpl in H. lia.
Qed.

(** What [\w] does not match is none of [[A-Za-z0-9_]]. *)
Lemma word_matches_basic c :
  word_matches c = false -> is_basic_word_char c = false.
Proof.
  intros H. destruct (is_basic_word_char c) eqn:B; [|reflexivity].
  apply basic_word_chars_spec in B.
  assert (X : word_matches c = true).
  { apply existsb_exists. exists c. split; [exact B | apply N.eqb_refl]. }
  congruence.
Qed.

Lemma word_matches_no_word_char c : word_matches c = false -> no_word_char c.
Proof. intros H. split; [exact H | now apply word_matches_basic]. Qed.

(** A code unit from 128 on never has a canonical form below 128. *)
Lemma canonicalize_high c : (128 <= c)%N -> (128 <= canonicalize c)%N.
Proof.
  intros H. unfold Utf16.canonicalize.
  destruct (toUppercase c) as [|cu [|? ?]]; try exact H.
  destruct (N.leb_spec 128 c); [|lia]. cbn [andb].
  destruct (N.ltb_spec cu 128); [exact H | assumption].
Qed.

(** With the Unicode mapping of Basic Latin, [\w] matches the characters of
    [[A-Za-z0-9_]] and no other. *)
Lemma word_matches_basic_latin c :
  basic_latin toUppercase -> word_matches c = is_basic_word_char c.
Proof.
  intros L.
  assert (Low : forall a, (a < 128)%N ->
            canonicalize a = if in_range 97 122 a then (a - 32)%N else a).
  { intros a Ha. unfold Utf16.canonicalize. rewrite (L a Ha).
    destruct (N.leb_spec 128 a); [lia | reflexivity]. }
  destruct (is_basic_word_char c) eqn:B.
  - apply existsb_exists. exists c. split; [|apply N.eqb_refl].
    now apply basic_word_chars_spec.
  - destruct (word_matches c) eqn:W; [|reflexivity]. exfalso.
    apply existsb_exists in W as (a & Ha & E).
    apply N.eqb_eq in E. apply basic_word_chars_spec in Ha.
    assert (Ha' : (a < 128)%N).
    { unfold is_basic_word_char, in_range in Ha.
      rewrite !orb_true_iff, !andb_true_iff, !N.leb_le, N.eqb_eq in Ha. lia. }
    destruct (N.lt_ge_cases c 128) as [Hc|Hc].
    + rewrite (Low a Ha'), (Low c Hc) in E.
      unfold is_basic_word_char, in_range in *.
      rewrite !orb_true_iff, !andb_true_iff, !N.leb_le, N.eqb_eq in Ha.
      rewrite !orb_false_iff, !andb_false_iff, !N.leb_gt, N.eqb_neq in B.
      destruct (N.leb_spec 97 a), (N.leb_spec a 122),
               (N.leb_spec 97 c), (N.leb_spec c 122); cbn [andb] in E; lia.
    + pose proof (canonicalize_high c Hc) as Hh. rewrite <- E, (Low a Ha') in Hh.
      destruct (in_range 97 122 a); lia.
Qed.

(** ** One match *)

Lemma units_match_literals_sound literals input rest :
  match_literals literals input = Some rest ->
  exists matched,
    input = matched ++ rest /\
    length matched = length literals /\
    map canonicalize matched = map canonicalize literals.
Proof.
  revert input; induction literals as [|p literals IH]; intros input H.
  - exists []. simpl in H. injection H as <-. auto.
  - destruct input as [|c input]; simpl in H; [discriminate|].
    destruct (N.eqb_spec (canonicalize p) (canonicalize c)) as [E|];
      [|discriminate].
    destruct (IH _ H) as (m & -> & Hl & Hm).
    exists (c :: m). simpl. rewrite Hl, Hm, E. auto.
Qed.

Lemma match_literals_complete literals input :
  length literals <= length input ->
  map canonicalize (firstn (length literals) input) = map canonicalize literals ->
  match_literals literals input = Some (skipn (length literals) input).
Proof.
  revert input; induction literals as [|p literals IH]; intros input Hl H.
  - reflexivity.
  - destruct input as [|c input]; simpl in *; [lia|].
    injection H as Hc Hrest. rewrite Hc, N.eqb_refl.
    apply IH; [lia | exact Hrest].
Qed.

Lemma units_match_at_sound text literals i :
  i <= length text ->
  match_at text literals i = true ->
  bounded_at text literals i.
Proof.
  unfold Utf16.match_at. intros Hi H. apply andb_prop in H as [Hb H].
  destruct (match_literals literals (skipn i text)) as [rest|] eqn:M;
    [|discriminate].
  destruct (units_match_literals_sound _ _ _ M) as (m & Hs & Hl & Hm).
  assert (Hlen : length (skipn i text) = length m + length rest)
    by (rewrite Hs; apply length_app).
  rewrite length_skipn in Hlen.
  assert (Hn : forall k, nth_error text (i + k) = nth_error (m ++ rest) k).
  { intros k. rewrite <- Hs. symmetry. apply nth_error_skipn. }
  repeat split.
  - lia.
  - unfold Utf16Text.equal_under_case, slice.
    replace (i + length literals - i) with (length m) by lia.
    rewrite Hs, firstn_app, Nat.sub_diag, firstn_all. simpl.
    now rewrite app_nil_r.
  - intros j c -> Hj. simpl in Hb. rewrite Hj in Hb.
    now apply negb_true_iff in Hb.
  - intros c Hc. rewrite <- Hl, Hn in Hc.
    rewrite nth_error_app2, Nat.sub_diag in Hc by lia.
    destruct rest as [|d rest]; simpl in Hc; [discriminate|].
    injection Hc as ->. simpl in H. now apply negb_true_iff in H.
Qed.

Lemma head_skipn {A} k (l : list A) :
  match skipn k l with [] => None | x :: _ => Some x end = nth_error l k.
Proof.
  revert l; induction k as [|k IH]; intros [|x l]; simpl; auto.
Qed.

Lemma match_at_complete text literals i :
  bounded_at text literals i -> match_at text literals i = true.
Proof.
  intros (Hl & Hq & Hb & Ha). unfold Utf16.match_at.
  apply andb_true_intro. split.
  - unfold Utf16.lookbehind_ok. destruct i as [|j]; [reflexivity|].
    destruct (nth_error text j) as [c|] eqn:E; [|reflexivity].
    now rewrite (Hb j c eq_refl E).
  - unfold Utf16Text.equal_under_case, slice in Hq.
    replace (i + length literals - i) with (length literals) in Hq by lia.
    rewrite (match_literals_complete literals (skipn i text)).
    + rewrite skipn_skipn. unfold Utf16.lookahead_ok.
      pose proof (head_skipn (length literals + i) text) as H.
      destruct (skipn (length literals + i) text) as [|c rest]; [reflexivity|].
      symmetry in H. rewrite Nat.add_comm in H. now rewrite (Ha c H).
    + rewrite length_skipn. lia.
    + exact Hq.
Qed.

Lemma bounded_located text phrase i :
  bounded_at text phrase i ->
  located text phrase (mkSpan (Z.of_nat i) (Z.of_nat (i + length phrase))).
Proof.
  intros (Hl & Hq & Hb & Ha). exists i. cbn [start end_].
  split; [reflexivity|]. split; [reflexivity|]. split; [exact Hl|].
  split; [exact Hq|]. split.
  - intros j c Hj Hc. apply word_matches_no_word_char. eauto.
  - intros c Hc. apply word_matches_no_word_char. eauto.
Qed.

Lemma located_bounded text phrase s :
  located text phrase s ->
  exists i, start s = Z.of_nat i /\ end_ s = Z.of_nat (i + length phrase) /\
            bounded_at text phrase i.
Proof.
  intros (i & Hs & He & Hl & Hq & Hb & Ha). exists i.
  split; [exact Hs|]. split; [exact He|]. repeat split; auto.
  - intros j c Hj Hc. exact (proj1 (Hb j c Hj Hc)).
  - intros c Hc. exact (proj1 (Ha c Hc)).
Qed.

(** ** The search and the loop *)

Lemma units_first_match_sound text literals i n k :
  first_match text literals i n = Some k ->
  i <= k < i + n /\ match_at text literals k = true.
Proof.
  revert i; induction n as [|n IH]; intros i H; simpl in H; [discriminate|].
  destruct (match_at text literals i) eqn:M.
  - injection H as <-. split; [lia | exact M].
  - destruct (IH _ H). split; [lia | assumption].
Qed.

Lemma first_match_complete text literals i :
  match_at text literals i = true ->
  forall n from, from <= i < from + n ->
    exists k, first_match text literals from n = Some k /\ from <= k <= i.
Proof.
  intros M. induction n as [|n IH]; intros from H; [lia|]. simpl.
  destruct (match_at text literals from) eqn:E.
  - exists from. split; [reflexivity | lia].
  - assert (from <> i) by (intros ->; congruence).
    destruct (IH (S from)) as (k & Hk & Hr); [lia|].
    exists k. split; [exact Hk | lia].
Qed.

Lemma units_regex_exec_sound text literals lastIndex k :
  regex_exec text literals lastIndex = Some k ->
  lastIndex <= k <= length text /\ match_at text literals k = true.
Proof.
  unfold Utf16.regex_exec. intros H.
  destruct (Nat.ltb_spec (length text) lastIndex); [discriminate|].
  destruct (units_first_match_sound _ _ _ _ _ H). split; [lia | assumption].
Qed.

Lemma units_exec_loop_sound fuel text literals lastIndex positions :
  literals <> [] ->
  exec_loop fuel text literals lastIndex = Some positions ->
  Forall (located text literals) positions /\
  ordered (Z.of_nat lastIndex) positions.
Proof.
  intros Hne. revert lastIndex positions.
  induction fuel as [|fuel IH]; intros lastIndex positions H; simpl in H;
    [discriminate|].
  destruct (regex_exec text literals lastIndex) as [k|] eqn:E.
  - apply PhraseLocatorFacts.option_map_some in H as (rest & Hrest & ->).
    destruct (units_regex_exec_sound _ _ _ _ E) as [Hk M].
    pose proof (units_match_at_sound _ _ _ (proj2 Hk) M) as B.
    destruct (IH _ _ Hrest) as [Hall Hord].
    assert (0 < length literals) by (destruct literals; simpl; [easy | lia]).
    split.
    + constructor; [now apply bounded_located | exact Hall].
    + constructor; simpl; [lia | lia | exact Hord].
  - injection H as <-. split; constructor.
Qed.

(** The loop stops: every round moves [lastIndex] forward, and it never
    passes the end of the text. *)
Lemma units_exec_loop_stops fuel text literals lastIndex :
  literals <> [] ->
  lastIndex <= length text ->
  length text - lastIndex < fuel ->
  exists positions, exec_loop fuel text literals lastIndex = Some positions.
Proof.
  intros Hne. revert lastIndex.
  induction fuel as [|fuel IH]; intros lastIndex Hle Hfuel; [lia|].
  simpl. destruct (regex_exec text literals lastIndex) as [k|] eqn:E.
  - destruct (units_regex_exec_sound _ _ _ _ E) as [Hk M].
    destruct (units_match_at_sound _ _ _ (proj2 Hk) M) as (Hin & _).
    assert (0 < length literals) by (destruct literals; simpl; [easy | lia]).
    destruct (IH (k + length literals)) as [rest ->]; [lia | lia |].
    simpl. eauto.
  - eauto.
Qed.

Lemma exec_loop_complete text literals :
  literals <> [] ->
  forall fuel lastIndex positions,
    exec_loop fuel text literals lastIndex = Some positions ->
    forall i, lastIndex <= i <= length text ->
      match_at text literals i = true ->
      exists s, In s positions /\ (start s <= Z.of_nat i < end_ s)%Z.
Proof.
  intros Hne. induction fuel as [|fuel IH]; intros lastIndex positions H i Hi M;
    simpl in H; [discriminate|].
  unfold Utf16.regex_exec in H.
  destruct (Nat.ltb_spec (length text) lastIndex); [lia|].
  destruct (first_match_complete text literals i M
              (S (length text - lastIndex)) lastIndex) as (k & Hk & Hr); [lia|].
  rewrite Hk in H.
  apply PhraseLocatorFacts.option_map_some in H as (rest & Hrest & ->).
  destruct (Nat.lt_ge_cases i (k + length literals)) as [Hin|Hout].
  - eexists. split; [left; reflexivity|]. simpl. lia.
  - destruct (IH _ _ Hrest i) as (s & Hs & Hrange); [lia | exact M |].
    exists s. split; [now right | exact Hrange].
Qed.

(** [findPhrasePositions] returns: the fuel it is given is enough. *)
Lemma units_findPhrasePositions_returns text phrase :
  findPhrasePositions_fuel (S (length text)) text phrase
  = Some (findPhrasePositions text phrase).
Proof.
  unfold Utf16.findPhrasePositions.
  destruct (findPhrasePositions_fuel _ text phrase) eqn:E; [reflexivity|].
  exfalso. unfold Utf16.findPhrasePositions_fuel in E.
  rewrite units_is_blank_blank in E. destruct (blank phrase) eqn:B; [discriminate|].
  rewrite units_parse_escape in E.
  destruct (units_exec_loop_stops (S (length text)) text phrase 0)
    as [positions Hp].
  - now apply units_blank_false_nonempty.
  - lia.
  - lia.
  - congruence.
Qed.

Lemma units_findPhrasePositions_blank text phrase :
  blank phrase = true -> findPhrasePositions text phrase = [].
Proof.
  intros B. unfold Utf16.findPhrasePositions, Utf16.findPhrasePositions_fuel.
  now rewrite units_is_blank_blank, B.
Qed.

Lemma findPhrasePositions_loop text phrase :
  blank phrase = false ->
  exec_loop (S (length text)) text phrase 0
  = Some (findPhrasePositions text phrase).
Proof.
  intros B. pose proof (units_findPhrasePositions_returns text phrase) as R.
  unfold Utf16.findPhrasePositions_fuel in R.
  now rewrite units_is_blank_blank, B, units_parse_escape in R.
Qed.

Lemma units_findPhrasePositions_sound text phrase :
  blank phrase = false ->
  Forall (located text phrase) (findPhrasePositions text phrase) /\
  ordered 0 (findPhrasePositions text phrase).
Proof.
  intros B.
  apply (units_exec_loop_sound _ _ _ 0 _ (units_blank_false_nonempty _ B)
           (findPhrasePositions_loop text phrase B)).
Qed.

End CaseTables.

(** ** Lower-case forms

    Where a code unit of the text and one of the phrase that have the same
    canonical form have the same lower-case form, text that equals the
    phrase under the canonical form equals it in lower case. *)

Lemma block_In {A} (l : list A) i n a :
  In a (firstn n (skipn i l)) -> In a l.
Proof.
  intros H. rewrite <- (firstn_skipn i l). apply in_or_app. right.
  rewrite <- (firstn_skipn n (skipn i l)). apply in_or_app. now left.
Qed.

Lemma canonical_lower_slice toUppercase (lower : N -> N) text phrase i :
  (forall a b, In a text -> In b phrase ->
     canonicalize toUppercase a = canonicalize toUppercase b ->
     lower a = lower b) ->
  bounded_at toUppercase text phrase i ->
  map lower (slice text i (i + length phrase)) = map lower phrase.
Proof.
  intros Hc (Hl & Hq & _). unfold slice in *.
  unfold Utf16Text.equal_under_case in Hq.
  set (block := firstn (i + length phrase - i) (skipn i text)) in *.
  assert (Hin : forall a, In a block -> In a text).
  { intros a Ha. unfold block in Ha. exact (block_In _ _ _ _ Ha). }
  clearbody block. clear Hl. revert phrase Hc Hq.
  induction block as [|a block IH]; intros [|b phrase] Hc Hq;
    simpl in Hq; try discriminate; [reflexivity|].
  injection Hq as Hab Hrest. simpl. f_equal.
  - apply Hc; [apply Hin; now left | now left | exact Hab].
  - apply IH.
    + intros x Hx. apply Hin. now right.
    + intros x y Hx Hy. apply Hc; [exact Hx | now right].
    + exact Hrest.
Qed.

Lemma canonical_lower_block toUppercase (lower : N -> N) text phrase i :
  (forall a b, In a text -> In b phrase ->
     canonicalize toUppercase a = canonicalize toUppercase b ->
     lower a = lower b) ->
  bounded_at toUppercase text phrase i ->
  block_at (map lower text) (map lower phrase) i.
Proof.
  intros Hc Hb. pose proof (canonical_lower_slice _ lower _ _ _ Hc Hb) as E.
  destruct Hb as (Hl & _). unfold block_at. rewrite !length_map.
  split; [exact Hl|]. unfold slice in *.
  now rewrite skipn_map, firstn_map.
Qed.



(** Scenario A again, with the lower-case forms of its text and its phrase:
    the text under the span is "brown fox" in small letters. *)
Example findPhrasePositions_lower_case :
  let text := code_units "The quick BROWN Fox jumps" in
  let phrase := code_units "Brown fox" in
  findPhrasePositions sample_toUppercase text phrase = [mkSpan 10 19] /\
  sample_toLowerCase (slice text 10 19) = sample_toLowerCase phrase.
Proof. vm_compute. split; reflexivity. Qed.

(** A phrase that ends in a final sigma (962) is found where the text has
    the sigma (963): both have the capital sigma as their canonical form.
    The phrase is "sofos" and the text "sofos einai", in Greek letters. *)
Example findPhrasePositions_final_sigma :
  findPhrasePositions sample_toUppercase
    [963; 959; 966; 972; 963; 32; 949; 943; 957; 945; 953]%N
    [963; 959; 966; 972; 962]%N
  = [mkSpan 0 5].
Proof. vm_compute. reflexivity. Qed.

(** The long s (383) has the capital S, a code unit below 128, and so keeps
    itself as canonical form: "is" is not found in "i" followed by a long
    s. *)
Example findPhrasePositions_long_s :
  sample_toUppercase 383 = sample_toUppercase 115 /\
  findPhrasePositions sample_toUppercase [105; 383]%N [105; 115]%N = [].
Proof. vm_compute. split; reflexivity. Qed.

(** A Greek letter is no word character for the pattern, so a phrase is
    found inside a longer Greek word: "os" at the head of "ostoso", in
    Greek capitals. *)
Example findPhrasePositions_inside_greek_word :
  findPhrasePositions sample_toUppercase
    [937; 931; 932; 927; 931; 927]%N [937; 931]%N
  = [mkSpan 0 2].
Proof. vm_compute. reflexivity. Qed.

(** X1.  [findPhrasePositions] misses no occurrence, in a text of any
    script: wherever a phrase that is not blank occurs in the text up to
    case, with [\w] matching neither neighbour, a returned span covers the
    place where the occurrence starts - the span of that occurrence, or of
    an earlier one that overlaps it.  So the result is empty exactly when
    the text has no such occurrence. *)
Theorem findPhrasePositions_complete (toUppercase : N -> list N)
    (text phrase : list N) :
  blank phrase = false ->
  (forall i, bounded_at toUppercase text phrase i ->
     exists s, In s (findPhrasePositions toUppercase text phrase) /\
               (start s <= Z.of_nat i < end_ s)%Z) /\
  (findPhrasePositions toUppercase text phrase = [] <->
   forall i, ~ bounded_at toUppercase text phrase i).
Proof.
  intros B.
  pose proof (findPhrasePositions_loop toUppercase text phrase B) as R.
  assert (C : forall i, bounded_at toUppercase text phrase i ->
              exists s, In s (findPhrasePositions toUppercase text phrase) /\
                        (start s <= Z.of_nat i < end_ s)%Z).
  { intros i Hi.
    apply (exec_loop_complete toUppercase _ _ (units_blank_false_nonempty _ B)
             _ _ _ R i).
    - destruct Hi as (Hl & _). lia.
    - now apply match_at_complete. }
  split; [exact C|]. split.
  - intros E i Hi. destruct (C i Hi) as (s & Hs & _). rewrite E in Hs. exact Hs.
  - intros Hno.
    destruct (findPhrasePositions toUppercase text phrase) as [|s l] eqn:E;
      [reflexivity|]. exfalso.
    destruct (units_findPhrasePositions_sound toUppercase text phrase B) as [Hall _].
    rewrite E in Hall. inversion Hall as [|? ? Hs _]; subst.
    apply located_bounded in Hs as (i & _ & _ & Hb). exact (Hno i Hb).
Qed.

(** The second "cat" of "The catcher cat", at offset 12. *)
Lemma findPhrasePositions_complete_witness :
  let text := code_units "The catcher cat" in
  let phrase := code_units "cat" in
  blank phrase = false /\
  bounded_at sample_toUppercase text phrase 12 /\
  exists s, In s (findPhrasePositions sample_toUppercase text phrase) /\
            (start s <= 12 < end_ s)%Z.
Proof.
  intros text phrase.
  assert (B : blank phrase = false) by reflexivity.
  assert (H : bounded_at sample_toUppercase text phrase 12).
  { apply units_match_at_sound; [simpl; lia | vm_compute; reflexivity]. }
  split; [exact B|]. split; [exact H|].
  exact (proj1 (findPhrasePositions_complete sample_toUppercase text phrase B)
           12 H).
Defined.

(** ** Texts that differ by case only *)

Section SameCanonicalForm.
Variable toUppercase : N -> list N.

Local Abbreviation canonicalize := (canonicalize toUppercase).
Local Abbreviation word_matches := (word_matches toUppercase).
Local Abbreviation match_literals := (match_literals toUppercase).
Local Abbreviation match_at := (match_at toUppercase).
Local Abbreviation first_match := (first_match toUppercase).
Local Abbreviation exec_loop := (exec_loop toUppercase).
Local Abbreviation equal_under_case := (equal_under_case toUppercase).

Lemma word_matches_canonical a b :
  canonicalize a = canonicalize b -> word_matches a = word_matches b.
Proof. intros H. unfold Utf16.word_matches. now rewrite H. Qed.

Lemma equal_under_case_length a b :
  equal_under_case a b -> length a = length b.
Proof.
  intros H. rewrite <- (length_map canonicalize a), H. apply length_map.
Qed.

Lemma lookahead_canonical a b :
  equal_under_case a b -> lookahead_ok toUppercase a = lookahead_ok toUppercase b.
Proof.
  unfold Utf16Text.equal_under_case. destruct a as [|x a], b as [|y b]; simpl;
    intros H; try discriminate; [reflexivity|].
  injection H as Hxy _. now rewrite (word_matches_canonical _ _ Hxy).
Qed.

Lemma lookbehind_canonical a b i :
  equal_under_case a b ->
  lookbehind_ok toUppercase a i = lookbehind_ok toUppercase b i.
Proof.
  unfold Utf16Text.equal_under_case, lookbehind_ok. intros H.
  destruct i as [|j]; [reflexivity|].
  assert (E : nth_error (map canonicalize a) j
              = nth_error (map canonicalize b) j) by now rewrite H.
  rewrite !nth_error_map in E.
  destruct (nth_error a j) as [x|], (nth_error b j) as [y|]; simpl in E;
    try discriminate; [|reflexivity].
  injection E as E. now rewrite (word_matches_canonical _ _ E).
Qed.

Lemma units_match_literals_canonical literals literals' :
  equal_under_case literals literals' ->
  forall a b, equal_under_case a b ->
    match match_literals literals a, match_literals literals' b with
    | Some r, Some r' => equal_under_case r r'
    | None, None => True
    | _, _ => False
    end.
Proof.
  unfold Utf16Text.equal_under_case.
  revert literals'.
  induction literals as [|p literals IH]; intros [|p' literals'] Hl a b H;
    simpl in Hl; try discriminate; simpl; [exact H|].
  injection Hl as Hp Hl.
  destruct a as [|x a], b as [|y b]; simpl in H; try discriminate; [exact I|].
  injection H as Hxy Hab. rewrite Hp, Hxy.
  destruct (N.eqb _ _); [now apply IH | exact I].
Qed.

Lemma match_at_canonical text text' literals literals' i :
  equal_under_case text text' ->
  equal_under_case literals literals' ->
  match_at text literals i = match_at text' literals' i.
Proof.
  intros Ht Hl. unfold Utf16.match_at.
  rewrite (lookbehind_canonical text text' i Ht). f_equal.
  assert (Hs : equal_under_case (skipn i text) (skipn i text')).
  { unfold Utf16Text.equal_under_case in *. rewrite <- !skipn_map.
    now rewrite Ht. }
  pose proof (units_match_literals_canonical literals literals' Hl _ _ Hs) as M.
  destruct (match_literals literals (skipn i text)),
           (match_literals literals' (skipn i text')); try contradiction;
    [now apply lookahead_canonical | reflexivity].
Qed.

Lemma units_exec_loop_canonical text text' literals literals' :
  equal_under_case text text' ->
  equal_under_case literals literals' ->
  forall fuel lastIndex,
    exec_loop fuel text literals lastIndex
    = exec_loop fuel text' literals' lastIndex.
Proof.
  intros Ht Hl.
  pose proof (equal_under_case_length _ _ Ht) as Et.
  pose proof (equal_under_case_length _ _ Hl) as El.
  assert (Hfirst : forall n i, first_match text literals i n
                               = first_match text' literals' i n).
  { induction n as [|n IH]; intros i; simpl; [reflexivity|].
    now rewrite (match_at_canonical text text' literals literals' i Ht Hl), IH. }
  induction fuel as [|fuel IH]; intros lastIndex; simpl; [reflexivity|].
  unfold Utf16.regex_exec. rewrite Hfirst, Et, El.
  destruct (length text' <? lastIndex); [reflexivity|].
  destruct (first_match _ _ _ _); [|reflexivity]. now rewrite IH.
Qed.

Lemma findPhrasePositions_canonical text text' phrase phrase' :
  equal_under_case text text' ->
  equal_under_case phrase phrase' ->
  blank phrase = blank phrase' ->
  findPhrasePositions toUppercase text phrase
  = findPhrasePositions toUppercase text' phrase'.
Proof.
  intros Ht Hp Hb.
  unfold Utf16.findPhrasePositions, Utf16.findPhrasePositions_fuel.
  rewrite !units_is_blank_blank, Hb, !units_parse_escape,
          (equal_under_case_length _ _ Ht).
  destruct (blank phrase'); [reflexivity|].
  now rewrite (units_exec_loop_canonical text text' phrase phrase' Ht Hp).
Qed.

End SameCanonicalForm.

(** X3.  The locator sees no difference that the canonical form of the
    pattern does not keep: two texts with the same canonical form, code
    unit by code unit, searched for two phrases with the same canonical form
    that are both blank or both not, give the same spans.  This holds for
    every upper-case mapping. *)
Theorem findPhrasePositions_ignores_case (toUppercase : N -> list N)
    (text text' phrase phrase' : list N) :
  equal_under_case toUppercase text text' ->
  equal_under_case toUppercase phrase phrase' ->
  blank phrase = blank phrase' ->
  findPhrasePositions toUppercase text phrase
  = findPhrasePositions toUppercase text' phrase'.
Proof. apply findPhrasePositions_canonical. Qed.

(** "sofos" with a final sigma and with a sigma, in Greek letters, against a
    text in small letters and in capitals. *)
Lemma findPhrasePositions_ignores_case_witness :
  findPhrasePositions sample_toUppercase
    [963; 959; 966; 972; 963; 32; 949; 943; 957; 945; 953]%N
    [963; 959; 966; 972; 962]%N
  = findPhrasePositions sample_toUppercase
      [931; 927; 934; 908; 931; 32; 917; 906; 925; 913; 921]%N
      [963; 959; 966; 972; 963]%N.
Proof.
  apply (findPhrasePositions_ignores_case sample_toUppercase);
    vm_compute; reflexivity.
Defined.

(** ** What the text filter keeps *)

Lemma starts_with_block text search :
  starts_with text search = true <->
  length search <= length text /\ firstn (length search) text = search.
Proof.
  revert text; induction search as [|s search IH]; intros text; simpl.
  - split; [intros _; split; [lia | reflexivity] | reflexivity].
  - destruct text as [|c text]; simpl.
    + split; [discriminate | intros [H _]; lia].
    + rewrite andb_true_iff, IH. split.
      * intros [E [Hl Hf]]. apply N.eqb_eq in E. subst c.
        split; [lia | now rewrite Hf].
      * intros [Hl Hf]. injection Hf as -> Hf.
        split; [apply N.eqb_refl | split; [lia | exact Hf]].
Qed.

Lemma includes_block text search :
  includes text search = true <-> exists i, block_at text search i.
Proof.
  unfold block_at, slice. induction text as [|c text IH].
  - simpl. rewrite orb_false_r, starts_with_block. split.
    + intros [Hl Hf]. exists 0. now rewrite Nat.add_0_l, Nat.sub_0_r.
    + intros (i & Hl & Hf). simpl in Hl. assert (i = 0) by lia. subst i.
      rewrite Nat.add_0_l, Nat.sub_0_r in Hf. simpl in *.
      split; [lia | exact Hf].
  - cbn [includes]. rewrite orb_true_iff, starts_with_block, IH. split.
    + intros [[Hl Hf]|(i & Hl & Hf)].
      * exists 0. now rewrite Nat.add_0_l, Nat.sub_0_r.
      * exists (S i). split; [simpl; lia|].
        replace (S i + length search - S i) with (i + length search - i)
          by lia.
        exact Hf.
    + intros ([|i] & Hl & Hf).
      * left. now rewrite Nat.add_0_l, Nat.sub_0_r in Hf.
      * right. exists i. split; [simpl in Hl; lia|].
        replace (S i + length search - S i) with (i + length search - i)
          in Hf by lia.
        exact Hf.
Qed.

Lemma keeps_block toLowerCase text indicator :
  keeps toLowerCase text indicator = true <->
  character_positions indicator <> None \/
  (blank (detected_phrase indicator) = false /\
   exists i, block_at (toLowerCase text)
                      (toLowerCase (detected_phrase indicator)) i).
Proof.
  unfold keeps. destruct (character_positions indicator) as [s|].
  - split; [left; discriminate | reflexivity].
  - rewrite units_is_blank_blank.
    destruct (blank (detected_phrase indicator)).
    + split; [discriminate | intros [H|[H _]]; [congruence | discriminate]].
    + cbv zeta. rewrite includes_block.
      split; [intros H; right; split; [reflexivity | exact H]
             | intros [H|[_ H]]; [congruence | exact H]].
Qed.

(** X4.  [filterIndicatorsInText] returns, in their order, the candidates
    that carry a span and those whose phrase is not blank and whose
    lower-case form, as [toLowerCase] gives it to the whole phrase, is a
    block of the lower-case form of the whole text (word boundaries play no
    part here); it returns no other candidate.  This holds for every
    [toLowerCase]. *)
Theorem filterIndicatorsInText_spec (toLowerCase : list N -> list N)
    (indicators : list RawBiasIndicator) (text : list N) :
  subsequence (filterIndicatorsInText toLowerCase indicators text) indicators /\
  forall c, In c (filterIndicatorsInText toLowerCase indicators text) <->
    In c indicators /\
    (character_positions c <> None \/
     (blank (detected_phrase c) = false /\
      exists i, block_at (toLowerCase text)
                         (toLowerCase (detected_phrase c)) i)).
Proof.
  unfold filterIndicatorsInText. split.
  - induction indicators as [|c l IH]; simpl; [constructor|].
    destruct (keeps toLowerCase text c); now constructor.
  - intros c. now rewrite filter_In, keeps_block.
Qed.

(** X5.  Where lower-casing acts code unit by code unit on the text and on
    the phrase of a candidate, and gives the same result to a code unit of
    the text and one of the phrase whenever the pattern gives them the same
    canonical form, the filter does not drop the candidate if the locator
    can place it: if [findPhrasePositions] finds the phrase in the text, the
    candidate passes [filterIndicatorsInText]. *)
Theorem filterIndicatorsInText_keeps_located
    (toUppercase : N -> list N) (toLowerCase : list N -> list N)
    (lower : N -> N)
    (indicators : list RawBiasIndicator) (text : list N)
    (c : RawBiasIndicator) :
  toLowerCase text = map lower text ->
  toLowerCase (detected_phrase c) = map lower (detected_phrase c) ->
  (forall a b, In a text -> In b (detected_phrase c) ->
     canonicalize toUppercase a = canonicalize toUppercase b ->
     lower a = lower b) ->
  In c indicators ->
  findPhrasePositions toUppercase text (detected_phrase c) <> [] ->
  In c (filterIndicatorsInText toLowerCase indicators text).
Proof.
  intros Ht Hp Hc Hin Hfound. unfold filterIndicatorsInText.
  apply filter_In. split; [exact Hin|]. apply keeps_block. right.
  destruct (blank (detected_phrase c)) eqn:B.
  - exfalso. apply Hfound. now apply units_findPhrasePositions_blank.
  - split; [reflexivity|].
    destruct (units_findPhrasePositions_sound toUppercase text _ B) as [Hall _].
    destruct (findPhrasePositions toUppercase text (detected_phrase c))
      as [|s l]; [congruence|].
    inversion Hall as [|? ? Hs _]; subst.
    apply located_bounded in Hs as (i & _ & _ & Hb).
    exists i. rewrite Ht, Hp. now apply (canonical_lower_block toUppercase).
Qed.

Lemma filterIndicatorsInText_keeps_located_witness :
  let passive := mkRaw (code_units "passiveVoice") (code_units "was seen")
                       None None in
  let sarcasm := mkRaw (code_units "sarcasm") (code_units "Oh GREAT")
                       None None in
  In sarcasm
     (filterIndicatorsInText sample_toLowerCase [passive; sarcasm]
        (code_units "oh great, another meeting")).
Proof.
  intros passive sarcasm.
  apply (filterIndicatorsInText_keeps_located
           sample_toUppercase sample_toLowerCase sample_lower).
  - reflexivity.
  - reflexivity.
  - intros a b Ha Hb.
    repeat (destruct Ha as [<-|Ha];
            [revert b Hb; vm_compute;
             intuition (subst; try discriminate; reflexivity)|]).
    destruct Ha.
  - right. left. reflexivity.
  - vm_compute. discriminate.
Defined.

(** Without the second condition the filter does drop a candidate that the
    locator places.  The phrase "sofos" ends in a final sigma and the text
    "sofos einai" has a sigma there: the pattern gives the two letters the
    same canonical form, and lower-casing leaves both as they are. *)
Example filterIndicatorsInText_drops_located :
  let text := [963; 959; 966; 972; 963; 32; 949; 943; 957; 945; 953]%N in
  let wise := mkRaw (code_units "loadedLanguage")
                    [963; 959; 966; 972; 962]%N None None in
  sample_toLowerCase text = text /\
  sample_toLowerCase (detected_phrase wise) = detected_phrase wise /\
  findPhrasePositions sample_toUppercase text (detected_phrase wise)
    = [mkSpan 0 5] /\
  filterIndicatorsInText sample_toLowerCase [wise] text = [].
Proof. vm_compute. repeat split; reflexivity. Qed.

End Utf16Facts.

(* ===================================================================== *)
(** * Further properties of the phrase locator and of the filter          *)
(* ===================================================================== *)

Module LocatorFacts.
Import PhraseLocator PhraseLocatorFacts Text Occurrence Sequences.
Local Open Scope nat_scope.

(** ** How many matches *)

Lemma ordered_room text phrase lo l :
  ordered lo l -> Forall (located text phrase) l ->
  l = [] \/ (Z.to_nat lo + length l * length phrase <= length text /\ (0 <= lo)%Z)
         \/ (lo < 0)%Z /\ length l * length phrase <= length text.
Proof.
  induction 1 as [lo|lo s l Hlo Hse Hord IH]; intros Hall; [now left|].
  inversion Hall as [|? ? Hs Hrest]; subst.
  destruct Hs as (i & Hstart & Hend & Hin & _).
  assert (Hm : Z.to_nat (end_ s) = i + length phrase) by lia.
  destruct (IH Hrest) as [->|[[Hroom _]|[Hneg _]]].
  - simpl. destruct (Z.ltb_spec lo 0); [right; right | right; left]; split; lia.
  - simpl. destruct (Z.ltb_spec lo 0); [right; right | right; left]; split; lia.
  - lia.
Qed.

(** X2.  The matches of a phrase do not overlap and lie in the text, so
    there is room for all of them: the number of returned spans times the
    length of the phrase is at most the length of the text. *)
Theorem findPhrasePositions_room (text phrase : string) :
  length (findPhrasePositions text phrase) * String.length phrase
  <= String.length text.
Proof.
  destruct (blank phrase) eqn:B.
  - rewrite (findPhrasePositions_blank _ _ B). simpl. lia.
  - destruct (findPhrasePositions_sound text phrase B) as [Hall Hord].
    rewrite <- !chars_length.
    destruct (ordered_room _ _ _ _ Hord Hall) as [->|[[H _]|[H _]]];
      simpl in *; lia.
Qed.


End LocatorFacts.

(* ===================================================================== *)
(** * What the text filter keeps                                          *)
(* ===================================================================== *)

Module FilterFacts.
Import PhraseLocator PhraseLocatorFacts Text Occurrence Sequences Filter LocatorFacts.
Local Open Scope nat_scope.

Lemma starts_with_iff text search :
  starts_with text search = true <->
  length search <= length text /\ firstn (length search) text = search.
Proof.
  revert text; induction search as [|s search IH]; intros text; simpl.
  - split; [intros _; split; [lia | reflexivity] | reflexivity].
  - destruct text as [|c text]; simpl.
    + split; [discriminate | intros [H _]; lia].
    + rewrite andb_true_iff, IH. split.
      * intros [E [Hl Hf]]. apply Ascii.eqb_eq in E. subst c.
        split; [lia | now rewrite Hf].
      * intros [Hl Hf]. injection Hf as -> Hf.
        split; [apply Ascii.eqb_refl | split; [lia | exact Hf]].
Qed.

Lemma includes_iff text search :
  includes text search = true <->
  exists i, i + length search <= length text /\
            slice text i (i + length search) = search.
Proof.
  unfold slice. induction text as [|c text IH].
  - simpl. rewrite orb_false_r, starts_with_iff. split.
    + intros [Hl Hf]. exists 0. now rewrite Nat.add_0_l, Nat.sub_0_r.
    + intros (i & Hl & Hf). simpl in Hl. assert (i = 0) by lia. subst i.
      rewrite Nat.add_0_l, Nat.sub_0_r in Hf. simpl in *. split; [lia | exact Hf].
  - cbn [includes]. rewrite orb_true_iff, starts_with_iff, IH. split.
    + intros [[Hl Hf]|(i & Hl & Hf)].
      * exists 0. now rewrite Nat.add_0_l, Nat.sub_0_r.
      * exists (S i). split; [simpl; lia|].
        replace (S i + length search - S i) with (i + length search - i) by lia.
        exact Hf.
    + intros ([|i] & Hl & Hf).
      * left. now rewrite Nat.add_0_l, Nat.sub_0_r in Hf.
      * right. exists i. split; [simpl in Hl; lia|].
        replace (S i + length search - S i) with (i + length search - i) in Hf by lia.
        exact Hf.
Qed.

Lemma includes_occurs text phrase :
  includes (map toLowerCase_char text) (map toLowerCase_char phrase) = true <->
  exists i, occurs_at text phrase i.
Proof.
  rewrite includes_iff. unfold occurs_at, equal_ignoring_case, slice.
  rewrite !length_map. split; intros (i & Hl & Hf); exists i; (split; [exact Hl|]).
  - now rewrite <- firstn_map, <- skipn_map.
  - now rewrite skipn_map, firstn_map.
Qed.

Lemma keeps_iff text indicator :
  keeps text indicator = true <->
  raw_character_positions indicator <> None \/
  (blank (raw_detected_phrase indicator) = false /\
   exists i, occurs_at (chars text) (chars (raw_detected_phrase indicator)) i).
Proof.
  unfold keeps. destruct (raw_character_positions indicator) as [s|].
  - split; [left; discriminate | reflexivity].
  - rewrite is_blank_blank.
    destruct (blank (raw_detected_phrase indicator)).
    + split; [discriminate | intros [H|[H _]]; [congruence | discriminate]].
    + cbv zeta. rewrite !BootstrapFacts.chars_toLowerCase, includes_occurs.
      split; [intros H; right; split; [reflexivity | exact H]
             | intros [H|[_ H]]; [congruence | exact H]].
Qed.

End FilterFacts.

(* ===================================================================== *)
(** * Further properties of addCharacterPositions                         *)
(* ===================================================================== *)

Module PositioningFacts.
Import PhraseLocator PhraseLocatorFacts JsObject JsObjectFacts Bootstrap
       BootstrapFacts Occurrences Counters.

Lemma sane_empty : sane JsObject.empty.
Proof. intros key v H. discriminate. Qed.

Lemma sane_write_inherited key v count :
  inherited key = true -> sane count -> sane (write key v count).
Proof.
  intros I S. unfold write. destruct (String.eqb key "__proto__"); [exact S|].
  intros k w H. destruct (String.eqb_spec key k) as [<-|N]; [now left|].
  rewrite (get_own_set_own_ne _ _ _ _ N) in H. exact (S k w H).
Qed.

Lemma sane_set_number key n count :
  0 <= n -> sane count -> sane (set_own key (CNumber n) count).
Proof.
  intros Hn S k w H. destruct (String.eqb_spec key k) as [<-|N].
  - rewrite get_own_set_own_eq in H. injection H as <-. right. eauto.
  - rewrite (get_own_set_own_ne _ _ _ _ N) in H. exact (S k w H).
Qed.

Lemma element_In positions index s :
  element positions index = Some s -> In s positions.
Proof.
  unfold element. destruct index as [i| |]; try discriminate.
  destruct (i <? 0); [discriminate|]. apply nth_error_In.
Qed.

Lemma position_indicator_shape text count c :
  sane count ->
  sane (snd (position_indicator text count c)) /\
  same_candidate (fst (position_indicator text count c)) c /\
  match raw_character_positions c with
  | Some s => fst (position_indicator text count c) = c
  | None =>
      match findPhrasePositions text (raw_detected_phrase c) with
      | [] => raw_character_positions (fst (position_indicator text count c))
              = Some (fallback (raw_detected_phrase c))
      | positions =>
          (exists s,
             raw_character_positions (fst (position_indicator text count c))
               = Some s /\ In s positions) \/
          (raw_character_positions (fst (position_indicator text count c)) = None
           /\ inherited (folded c) = true)
      end
  end.
Proof.
  intros S. unfold position_indicator, same_candidate.
  destruct (raw_character_positions c) as [s|] eqn:P.
  - cbn [fst snd]. auto.
  - destruct (findPhrasePositions text (raw_detected_phrase c)) as [|p ps] eqn:F.
    + cbn [length Nat.ltb Nat.leb fst snd raw_bias_indicator_key
           raw_detected_phrase raw_confidence raw_character_positions].
      auto.
    + set (positions := p :: ps) in *.
      assert (K : (0 <? length positions)%nat = true) by reflexivity.
      rewrite K. fold (folded c). set (q := folded c).
      cbn [fst snd raw_bias_indicator_key raw_detected_phrase raw_confidence
           raw_character_positions].
      split; [|split; [auto|]].
      * destruct (inherited q) eqn:I.
        -- now apply sane_write_inherited, sane_write_inherited.
        -- rewrite !(write_own q _ _ I), (read_own q _ I), (read_own q _ I).
           rewrite get_own_set_own_eq.
           destruct (get_own q count) as [v|] eqn:G.
           ++ destruct (S q v G) as [I'|(n & -> & Hn)]; [congruence|].
              cbn [or_zero increment].
              apply sane_set_number; [lia|]. now apply sane_set_number.
           ++ cbn [or_zero increment].
              apply sane_set_number; [lia|]. now apply sane_set_number.
      * destruct (inherited q) eqn:I.
        -- destruct (element positions _) as [s|] eqn:E.
           ++ left. exists s. split; [reflexivity|]. now apply element_In in E.
           ++ right. auto.
        -- left. rewrite !(write_own q _ _ I), (read_own q _ I), (read_own q _ I).
           rewrite get_own_set_own_eq.
           assert (N : exists n, or_zero (get_own q count) = CNumber n /\ 0 <= n).
           { destruct (get_own q count) as [v|] eqn:G.
             - destruct (S q v G) as [I'|(n & -> & Hn)]; [congruence|].
               exists n. auto.
             - exists 0. split; [reflexivity | lia]. }
           destruct N as (n & -> & Hn). cbn [math_min element].
           apply Nat.ltb_lt in K.
           destruct (Z.ltb_spec (Z.min n (Z.of_nat (length positions) - 1)) 0).
           ++ lia.
           ++ destruct (nth_error positions
                          (Z.to_nat (Z.min n (Z.of_nat (length positions) - 1))))
                as [s|] eqn:E.
              ** exists s. split; [reflexivity|]. now apply nth_error_In in E.
              ** apply nth_error_None in E. lia.
Qed.

Lemma map_indicators_shape text indicators :
  forall count, sane count ->
    length (map_indicators text count indicators) = length indicators /\
    forall j c, nth_error indicators j = Some c ->
      exists r,
        nth_error (map_indicators text count indicators) j = Some r /\
        same_candidate r c /\
        match raw_character_positions c with
        | Some s => r = c
        | None =>
            match findPhrasePositions text (raw_detected_phrase c) with
            | [] => raw_character_positions r
                    = Some (fallback (raw_detected_phrase c))
            | positions =>
                (exists s, raw_character_positions r = Some s /\ In s positions) \/
                (raw_character_positions r = None /\ inherited (folded c) = true)
            end
        end.
Proof.
  induction indicators as [|x l IH]; intros count S.
  - split; [reflexivity|]. intros [|j] c H; discriminate.
  - destruct (position_indicator_shape text count x S) as (S' & Hsame & Hspan).
    cbn [map_indicators].
    destruct (position_indicator text count x) as [r count'] eqn:E.
    cbn [fst snd] in *. destruct (IH count' S') as [Hlen Hnth].
    split; [simpl; now rewrite Hlen|].
    intros [|j] c Hj.
    + injection Hj as <-. exists r. simpl. auto.
    + destruct (Hnth j c Hj) as (r' & Hr & H'). exists r'. auto.
Qed.

(** X6.  Whatever the phrases are, [addCharacterPositions] returns one
    candidate for each candidate it is given, in the same order and with the
    same category, phrase and confidence.  A candidate that carries a span
    is returned as it is; a candidate whose phrase the locator does not find
    gets the fallback span; any other candidate gets one of the spans the
    locator returns for its phrase - or no span at all, which happens only
    when the lower-cased phrase is a name inherited from
    [Object.prototype]. *)
Theorem addCharacterPositions_shape (indicators : list RawBiasIndicator)
    (text : string) :
  length (addCharacterPositions indicators text) = length indicators /\
  forall j c, nth_error indicators j = Some c ->
    exists r,
      nth_error (addCharacterPositions indicators text) j = Some r /\
      same_candidate r c /\
      match raw_character_positions c with
      | Some s => r = c
      | None =>
          match findPhrasePositions text (raw_detected_phrase c) with
          | [] => raw_character_positions r
                  = Some (fallback (raw_detected_phrase c))
          | positions =>
              (exists s, raw_character_positions r = Some s /\ In s positions) \/
              (raw_character_positions r = None /\ inherited (folded c) = true)
          end
      end.
Proof.
  exact (map_indicators_shape text indicators JsObject.empty sane_empty).
Qed.

(** ** Candidates that share a phrase *)

Lemma firstn_succ_nth {A} (l : list A) j x :
  nth_error l j = Some x -> firstn (S j) l = firstn j l ++ [x].
Proof.
  revert j; induction l as [|y l IH]; intros [|j] H; try discriminate.
  - injection H as ->. reflexivity.
  - simpl in H. rewrite (firstn_cons (S j)), (firstn_cons j), (IH j H).
    reflexivity.
Qed.

Lemma firstn_split_le {A} (l : list A) i j :
  (i <= j)%nat -> firstn j l = firstn i l ++ skipn i (firstn j l).
Proof.
  intros H. rewrite <- (firstn_skipn i (firstn j l)) at 1.
  now rewrite firstn_firstn, Nat.min_l.
Qed.

Lemma ordered_lower lo l :
  Text.ordered lo l -> Forall (fun s => lo <= start s /\ start s < end_ s) l.
Proof.
  induction 1 as [lo|lo s l Hlo Hse Hord IH]; constructor; [lia|].
  eapply Forall_impl; [|exact IH]. simpl. intros; lia.
Qed.

Lemma ordered_nth lo l :
  Text.ordered lo l ->
  forall i j a b, (i < j)%nat ->
    nth_error l i = Some a -> nth_error l j = Some b -> end_ a <= start b.
Proof.
  induction 1 as [lo|lo s l Hlo Hse Hord IH]; intros i j a b Hij Ha Hb.
  - destruct i; discriminate.
  - destruct j as [|j]; [lia|]. destruct i as [|i]; simpl in *.
    + injection Ha as <-. apply nth_error_In in Hb.
      pose proof (ordered_lower _ _ Hord) as F.
      rewrite Forall_forall in F. apply F in Hb. lia.
    + apply (IH i j); [lia | assumption | assumption].
Qed.

End PositioningFacts.

(* ===================================================================== *)
(** * Repeated phrases, in a text of any script                           *)
(* ===================================================================== *)

Module Utf16BootstrapFacts.
Import Text Bootstrap Utf16 Utf16Text Utf16Bootstrap.
Local Open Scope nat_scope.

Lemma same_string_iff a b : same_string a b = true <-> a = b.
Proof.
  revert b; induction a as [|x a IH]; intros [|y b]; simpl;
    try (split; [discriminate | congruence]); [tauto|].
  rewrite andb_true_iff, N.eqb_eq, IH. split; [intros [-> ->] | intros [= -> ->]];
    auto.
Qed.

Lemma same_string_refl a : same_string a a = true.
Proof. now apply same_string_iff. Qed.

Lemma same_string_spec a b : reflect (a = b) (same_string a b).
Proof.
  destruct (same_string a b) eqn:E; constructor.
  - now apply same_string_iff.
  - intros H. apply same_string_iff in H. congruence.
Qed.

(** ** The counter *)

Lemma get_own_set_own_same key v o : get_own key (set_own key v o) = Some v.
Proof.
  induction o as [|[k w] o IH]; simpl.
  - now rewrite same_string_refl.
  - destruct (same_string key k) eqn:E; simpl; rewrite E; [reflexivity | exact IH].
Qed.

Lemma get_own_set_own_other key key' v o :
  key <> key' -> get_own key' (set_own key v o) = get_own key' o.
Proof.
  intros Hne. induction o as [|[k w] o IH]; simpl.
  - destruct (same_string_spec key' key); [congruence | reflexivity].
  - destruct (same_string_spec key k) as [->|]; simpl.
    + destruct (same_string_spec key' k); [congruence | reflexivity].
    + destruct (same_string key' k); [reflexivity | exact IH].
Qed.

Lemma read_own_key key count :
  inherited key = false -> read key count = get_own key count.
Proof. intros I. unfold read. rewrite I. now destruct (get_own key count). Qed.

Lemma write_own_key key v count :
  inherited key = false -> write key v count = set_own key v count.
Proof.
  intros I. unfold write.
  destruct (same_string_spec key (code_units "__proto__")) as [->|];
    [discriminate | reflexivity].
Qed.

Section CaseTables.
Variable toUppercase : N -> list N.
Variable toLowerCase : list N -> list N.

Local Abbreviation findPhrasePositions := (findPhrasePositions toUppercase).
Local Abbreviation position_indicator :=
  (position_indicator toUppercase toLowerCase).
Local Abbreviation map_indicators := (map_indicators toUppercase toLowerCase).
Local Abbreviation addCharacterPositions :=
  (addCharacterPositions toUppercase toLowerCase).
Local Abbreviation counts := (counts toUppercase toLowerCase).
Local Abbreviation occurrences := (occurrences toUppercase toLowerCase).
Local Abbreviation counted := (counted toUppercase toLowerCase).

Lemma counted_nothing text : counted text [] [].
Proof. intros q I. unfold read. simpl. now rewrite I. Qed.

Lemma occurrences_last text q seen c :
  occurrences text q (seen ++ [c])
  = occurrences text q seen + (if counts text q c then 1 else 0).
Proof.
  unfold Utf16Bootstrap.occurrences. rewrite filter_app, length_app. simpl.
  now destruct (Utf16Bootstrap.counts _ _ _ _ _).
Qed.

(** What one round of the callback does to a candidate that has no span
    and whose phrase has matches: it gives it the match number
    [min i k - 1] of the [k] matches, [i] being the number of candidates
    counted for its key so far, itself included. *)
Lemma position_indicator_counted text seen count c :
  counted text seen count ->
  (character_positions c = None ->
   inherited (toLowerCase (detected_phrase c)) = false) ->
  counted text (seen ++ [c]) (snd (position_indicator text count c)) /\
  (character_positions c = None ->
   findPhrasePositions text (detected_phrase c) <> [] ->
   character_positions (fst (position_indicator text count c))
   = nth_error (findPhrasePositions text (detected_phrase c))
       (Nat.min (occurrences text (toLowerCase (detected_phrase c))
                             (seen ++ [c]))
                (length (findPhrasePositions text (detected_phrase c))) - 1)).
Proof.
  intros Inv I. unfold Utf16Bootstrap.position_indicator.
  destruct (character_positions c) as [s|] eqn:P.
  - cbn [fst snd]. split; [|discriminate].
    intros q Iq. rewrite occurrences_last.
    unfold Utf16Bootstrap.counts at 1. rewrite P, Nat.add_0_r. now apply Inv.
  - specialize (I eq_refl).
    set (positions := findPhrasePositions text (detected_phrase c)).
    set (q0 := toLowerCase (detected_phrase c)) in *.
    destruct (Nat.ltb_spec 0 (length positions)) as [K|K].
    + set (n0 := occurrences text q0 seen).
      assert (R0 : or_zero (read q0 count) = CNumber (Z.of_nat n0)).
      { rewrite (Inv q0 I). fold n0. now destruct n0. }
      assert (C0 : counts text q0 c = true).
      { unfold Utf16Bootstrap.counts. rewrite P. fold q0 positions.
        rewrite same_string_refl. now apply Nat.ltb_lt. }
      rewrite R0, !(write_own_key q0 _ _ I), (read_own_key q0 _ I),
              get_own_set_own_same.
      cbn [fst snd character_positions math_min increment element].
      split.
      * intros q Iq. rewrite occurrences_last, (read_own_key _ _ Iq).
        destruct (same_string_spec q0 q) as [E|Hne].
        -- rewrite <- E, get_own_set_own_same, C0. fold n0.
           rewrite Nat.add_1_r. do 2 f_equal. lia.
        -- rewrite !(get_own_set_own_other _ _ _ _ Hne), <- (read_own_key _ _ Iq).
           assert (Cq : counts text q c = false).
           { unfold Utf16Bootstrap.counts. rewrite P. fold q0.
             destruct (same_string_spec q0 q); [contradiction | reflexivity]. }
           rewrite Cq, Nat.add_0_r. now apply Inv.
      * intros _ _. rewrite occurrences_last, C0. fold n0.
        destruct (Z.ltb_spec (Z.min (Z.of_nat n0)
                                    (Z.of_nat (length positions) - 1)) 0);
          [lia|].
        f_equal. lia.
    + assert (E : positions = []) by (destruct positions; simpl in K; [easy | lia]).
      cbn [fst snd]. split; [|intros _ Hne; contradiction].
      intros q Iq. rewrite occurrences_last.
      assert (Cq : counts text q c = false).
      { unfold Utf16Bootstrap.counts. rewrite P. fold positions. rewrite E.
        apply andb_false_r. }
      rewrite Cq, Nat.add_0_r. now apply Inv.
Qed.

Lemma map_indicators_counted text indicators :
  forall seen count,
    counted text seen count ->
    (forall c, In c indicators -> character_positions c = None ->
               inherited (toLowerCase (detected_phrase c)) = false) ->
    forall j c,
      nth_error indicators j = Some c ->
      exists r,
        nth_error (map_indicators text count indicators) j = Some r /\
        (character_positions c = None ->
         findPhrasePositions text (detected_phrase c) <> [] ->
         character_positions r
         = nth_error (findPhrasePositions text (detected_phrase c))
             (Nat.min (occurrences text (toLowerCase (detected_phrase c))
                                   (seen ++ firstn (S j) indicators))
                      (length (findPhrasePositions text (detected_phrase c)))
              - 1)).
Proof.
  induction indicators as [|x l IH]; intros seen count Inv I j c Hj.
  - destruct j; discriminate.
  - destruct (position_indicator_counted text seen count x Inv)
      as (Inv' & Hs); [apply I; now left|].
    cbn [Utf16Bootstrap.map_indicators].
    destruct (position_indicator text count x) as [r count'] eqn:E.
    cbn [fst snd] in *. destruct j as [|j].
    + injection Hj as <-. exists r. simpl. auto.
    + destruct (IH (seen ++ [x]) count' Inv') with (j := j) (c := c)
        as (r' & Hr & H'); [intros; apply I; auto; now right | exact Hj |].
      exists r'. split; [exact Hr|].
      rewrite <- app_assoc in H'. exact H'.
Qed.

Lemma addCharacterPositions_rank text indicators j c :
  (forall c', In c' indicators -> character_positions c' = None ->
              inherited (toLowerCase (detected_phrase c')) = false) ->
  nth_error indicators j = Some c ->
  exists r,
    nth_error (addCharacterPositions indicators text) j = Some r /\
    (character_positions c = None ->
     findPhrasePositions text (detected_phrase c) <> [] ->
     character_positions r
     = nth_error (findPhrasePositions text (detected_phrase c))
         (Nat.min (occurrences text (toLowerCase (detected_phrase c))
                               (firstn (S j) indicators))
                  (length (findPhrasePositions text (detected_phrase c)))
          - 1)).
Proof.
  intros I Hj.
  exact (map_indicators_counted text indicators [] [] (counted_nothing text)
           I j c Hj).
Qed.

End CaseTables.

(** X7.  Repeated phrases are spread over successive occurrences, in a text
    of any script.  Take two candidates without a span whose phrases have
    the same lower-case form - the key of the counter - and the same
    matches in the text, at least one, in a batch where no candidate without
    a span has a key that is an inherited property name.  As long as the
    phrase has at least as many matches as there are candidates counted for
    the key up to the second one (those without a span whose phrase has a
    match), each of the two gets a match of its phrase, and the match of
    the earlier candidate ends before the match of the later one starts. *)
Theorem addCharacterPositions_distributes
    (toUppercase : N -> list N) (toLowerCase : list N -> list N)
    (indicators : list RawBiasIndicator) (text : list N)
    (j1 j2 : nat) (c1 c2 : RawBiasIndicator) :
  (forall c, In c indicators -> character_positions c = None ->
             inherited (toLowerCase (detected_phrase c)) = false) ->
  j1 < j2 ->
  nth_error indicators j1 = Some c1 ->
  nth_error indicators j2 = Some c2 ->
  character_positions c1 = None ->
  character_positions c2 = None ->
  toLowerCase (detected_phrase c1) = toLowerCase (detected_phrase c2) ->
  findPhrasePositions toUppercase text (detected_phrase c1)
    = findPhrasePositions toUppercase text (detected_phrase c2) ->
  findPhrasePositions toUppercase text (detected_phrase c2) <> [] ->
  occurrences toUppercase toLowerCase text (toLowerCase (detected_phrase c2))
              (firstn (S j2) indicators)
    <= length (findPhrasePositions toUppercase text (detected_phrase c2)) ->
  exists r1 r2 s1 s2,
    nth_error (addCharacterPositions toUppercase toLowerCase indicators text) j1
      = Some r1 /\
    nth_error (addCharacterPositions toUppercase toLowerCase indicators text) j2
      = Some r2 /\
    character_positions r1 = Some s1 /\
    character_positions r2 = Some s2 /\
    located toUppercase text (detected_phrase c1) s1 /\
    located toUppercase text (detected_phrase c2) s2 /\
    (end_ s1 <= start s2)%Z.
Proof.
  intros I Hj H1 H2 P1 P2 Q F M K.
  destruct (addCharacterPositions_rank toUppercase toLowerCase text
              indicators j1 c1 I H1) as (r1 & Hr1 & S1).
  destruct (addCharacterPositions_rank toUppercase toLowerCase text
              indicators j2 c2 I H2) as (r2 & Hr2 & S2).
  assert (M1 : findPhrasePositions toUppercase text (detected_phrase c1) <> [])
    by (rewrite F; exact M).
  specialize (S1 P1 M1). specialize (S2 P2 M).
  assert (B1 : blank (detected_phrase c1) = false).
  { destruct (blank (detected_phrase c1)) eqn:B; [|reflexivity].
    exfalso. apply M1. now apply Utf16Facts.units_findPhrasePositions_blank. }
  assert (B2 : blank (detected_phrase c2) = false).
  { destruct (blank (detected_phrase c2)) eqn:B; [|reflexivity].
    exfalso. apply M. now apply Utf16Facts.units_findPhrasePositions_blank. }
  destruct (Utf16Facts.units_findPhrasePositions_sound toUppercase text _ B1)
    as [Hall1 _].
  destruct (Utf16Facts.units_findPhrasePositions_sound toUppercase text _ B2)
    as [Hall2 Hord].
  rewrite F in Hall1, S1. rewrite Q in S1.
  set (q := toLowerCase (detected_phrase c2)) in *.
  set (positions := findPhrasePositions toUppercase text (detected_phrase c2))
    in *.
  set (i1 := occurrences toUppercase toLowerCase text q
               (firstn (S j1) indicators)) in *.
  set (i2 := occurrences toUppercase toLowerCase text q
               (firstn (S j2) indicators)) in *.
  assert (L : 0 < length positions)
    by (destruct positions; simpl; [contradiction | lia]).
  assert (C1 : counts toUppercase toLowerCase text q c1 = true).
  { unfold counts. rewrite P1, Q, F. fold q positions.
    rewrite same_string_refl. now apply Nat.ltb_lt. }
  assert (C2 : counts toUppercase toLowerCase text q c2 = true).
  { unfold counts. rewrite P2. fold q positions.
    rewrite same_string_refl. now apply Nat.ltb_lt. }
  assert (L1 : 1 <= i1).
  { unfold i1. rewrite (PositioningFacts.firstn_succ_nth _ _ _ H1),
      occurrences_last, C1. lia. }
  assert (L2 : i1 < i2).
  { unfold i2. rewrite (PositioningFacts.firstn_succ_nth _ _ _ H2),
      occurrences_last, C2.
    rewrite (PositioningFacts.firstn_split_le indicators (S j1) j2) by lia.
    unfold occurrences at 1. rewrite filter_app, length_app.
    fold (occurrences toUppercase toLowerCase text q
            (firstn (S j1) indicators)). fold i1. lia. }
  rewrite Nat.min_l in S1 by lia. rewrite Nat.min_l in S2 by lia.
  destruct (nth_error positions (i1 - 1)) as [s1|] eqn:E1;
    [|apply nth_error_None in E1; lia].
  destruct (nth_error positions (i2 - 1)) as [s2|] eqn:E2;
    [|apply nth_error_None in E2; lia].
  exists r1, r2, s1, s2. rewrite Forall_forall in Hall1, Hall2.
  repeat split; try assumption.
  - now apply Hall1, (nth_error_In _ _ E1).
  - now apply Hall2, (nth_error_In _ _ E2).
  - apply (PositioningFacts.ordered_nth _ _ Hord (i1 - 1) (i2 - 1));
      [lia | easy | easy].
Qed.

(** "The" and "the" in "the cat and the dog": the first candidate gets
    [{0, 3}] and the second [{12, 15}]. *)
Lemma addCharacterPositions_distributes_witness :
  let first := mkRaw (code_units "overgeneralisation") (code_units "The")
                     None None in
  let second := mkRaw (code_units "sarcasm") (code_units "the") None None in
  let text := code_units "the cat and the dog" in
  exists r1 r2 s1 s2,
    nth_error (addCharacterPositions sample_toUppercase sample_toLowerCase
                 [first; second] text) 0 = Some r1 /\
    nth_error (addCharacterPositions sample_toUppercase sample_toLowerCase
                 [first; second] text) 1 = Some r2 /\
    character_positions r1 = Some s1 /\
    character_positions r2 = Some s2 /\
    located sample_toUppercase text (detected_phrase first) s1 /\
    located sample_toUppercase text (detected_phrase second) s2 /\
    (end_ s1 <= start s2)%Z.
Proof.
  intros first second text.
  apply (addCharacterPositions_distributes sample_toUppercase
           sample_toLowerCase [first; second] text 0 1 first second).
  - intros c [<-|[<-|[]]] _; reflexivity.
  - lia.
  - reflexivity.
  - reflexivity.
  - reflexivity.
  - reflexivity.
  - reflexivity.
  - vm_compute. reflexivity.
  - vm_compute. discriminate.
  - vm_compute. lia.
Defined.

(** Scenario B on code units: three candidates for "the", three matches. *)
Example addCharacterPositions_three_matches_units :
  let candidate := mkRaw (code_units "overgeneralisation") (code_units "the")
                         None None in
  map character_positions
      (addCharacterPositions sample_toUppercase sample_toLowerCase
         [candidate; candidate; candidate]
         (code_units "the cat and the dog and the bird"))
  = [Some (mkSpan 0 3); Some (mkSpan 12 15); Some (mkSpan 24 27)].
Proof. vm_compute. reflexivity. Qed.

End Utf16BootstrapFacts.

(* ===================================================================== *)
(** * Further properties of limitIndicatorsByKey and of the services      *)
(* ===================================================================== *)

Module LimiterFacts.
Import Js JsFacts JsObject JsObjectFacts CategoryLimiter Limiting
       CategoryLimiterFacts Sequences.

(** ** When the grouping throws *)

Lemma group_by_key_throws toLimit :
  forall acc,
    (forall k, inherited k = true -> get_own k acc = None) ->
    (exists x, In x toLimit /\ inherited (raw_bias_indicator_key x) = true) ->
    exists e, group_by_key toLimit acc = Throw e.
Proof.
  induction toLimit as [|x l IH]; intros acc Inv (y & Hy & Iy).
  - destruct Hy.
  - cbn [group_by_key]. unfold group_step.
    destruct (inherited (raw_bias_indicator_key x)) eqn:Ix.
    + rewrite (Inv _ Ix). eauto.
    + assert (Hl : exists z, In z l /\ inherited (raw_bias_indicator_key z) = true).
      { destruct Hy as [<-|Hy]; [congruence | eauto]. }
      assert (Step : forall v k, inherited k = true ->
                get_own k (set_own (raw_bias_indicator_key x) v acc) = None).
      { intros v k Ik. rewrite get_own_set_own_ne; [now apply Inv|].
        intros E. congruence. }
      destruct (get_own (raw_bias_indicator_key x) acc); apply IH; auto.
Qed.

(** X8.  [limitIndicatorsByKey] throws exactly when some candidate of a
    limited category has a category name that plain objects inherit from
    [Object.prototype] (such as "constructor"); in every other case it
    returns a list.  The limit [maxPerKey] plays no part in this. *)
Theorem limitIndicatorsByKey_throws (indicators : list RawBiasIndicator)
    (keysToLimit : option (list string)) (maxPerKey : option Z) :
  ((exists e, limitIndicatorsByKey indicators keysToLimit maxPerKey = Throw e) <->
   (exists x, In x indicators /\
              limited keysToLimit indicators (raw_bias_indicator_key x) = true /\
              inherited (raw_bias_indicator_key x) = true)) /\
  ((exists out, limitIndicatorsByKey indicators keysToLimit maxPerKey = Normal out) <->
   (forall x, In x indicators ->
              limited keysToLimit indicators (raw_bias_indicator_key x) = true ->
              inherited (raw_bias_indicator_key x) = false)).
Proof.
  rewrite limited_keysSet. cbv beta zeta.
  set (is_limited := fun x => limited keysToLimit indicators (raw_bias_indicator_key x)).
  assert (Bad : (exists x, In x indicators /\ is_limited x = true /\
                           inherited (raw_bias_indicator_key x) = true) ->
                exists e, group_by_key (filter is_limited indicators) empty = Throw e).
  { intros (x & Hx & Lx & Ix). apply group_by_key_throws; [reflexivity|].
    exists x. split; [apply filter_In; auto | exact Ix]. }
  assert (Good : (forall x, In x indicators -> is_limited x = true ->
                            inherited (raw_bias_indicator_key x) = false) ->
                 exists grouped,
                   group_by_key (filter is_limited indicators) empty = Normal grouped).
  { intros H.
    destruct (group_by_key_spec (filter is_limited indicators) [] empty
                groups_of_empty) as (grouped & E & _); [|eauto].
    intros x Hx. apply filter_In in Hx as [Hx Lx]. now apply H. }
  assert (Dec : (exists x, In x indicators /\ is_limited x = true /\
                           inherited (raw_bias_indicator_key x) = true) \/
                (forall x, In x indicators -> is_limited x = true ->
                           inherited (raw_bias_indicator_key x) = false)).
  { destruct (existsb (fun x => is_limited x && inherited (raw_bias_indicator_key x))
                      indicators) eqn:E.
    - left. apply existsb_exists in E as (x & Hx & E).
      apply andb_true_iff in E. exists x. tauto.
    - right. intros x Hx Lx.
      rewrite LifecycleFacts.existsb_false_forall in E.
      specialize (E x Hx). rewrite Lx in E. exact E. }
  split; split.
  - intros (e & E). destruct Dec as [B|G]; [exact B|].
    destruct (Good G) as (grouped & Eg). rewrite Eg in E. discriminate.
  - intros B. destruct (Bad B) as (e & E). rewrite E. eauto.
  - intros (out & E) x Hx Lx. destruct Dec as [B|G]; [|now apply G].
    destruct (Bad B) as (e & Eb). rewrite Eb in E. discriminate.
  - intros G. destruct (Good G) as (grouped & E). rewrite E. eauto.
Qed.

Lemma limitIndicatorsByKey_throws_witness :
  exists e,
    limitIndicatorsByKey
      [mkRaw "sarcasm" "great" None None; mkRaw "constructor" "built" None None]
      None (Some 3) = Throw e.
Proof.
  apply (proj1 (limitIndicatorsByKey_throws _ None (Some 3))).
  exists (mkRaw "constructor" "built" None None).
  split; [right; left; reflexivity|]. split; reflexivity.
Defined.

(** ** What each category keeps, for any limit *)

Lemma limit_projection indicators keysToLimit maxPerKey :
  (forall x, In x indicators ->
     limited keysToLimit indicators (raw_bias_indicator_key x) = true ->
     inherited (raw_bias_indicator_key x) = false) ->
  exists out,
    limitIndicatorsByKey indicators keysToLimit (Some maxPerKey) = Normal out /\
    (forall x, In x out -> In x indicators) /\
    forall key,
      filter (has_key key) out
      = if limited keysToLimit indicators key
        then slice0 maxPerKey (filter (has_key key) indicators)
        else filter (has_key key) indicators.
Proof.
  intros Hproto. rewrite limited_keysSet. cbv beta zeta.
  set (is_limited := fun x => limited keysToLimit indicators (raw_bias_indicator_key x)).
  destruct (group_by_key_spec (filter is_limited indicators) [] empty
              groups_of_empty) as (grouped & E & G).
  { intros x Hx. apply filter_In in Hx as [Hin Hl]. now apply Hproto. }
  rewrite E. simpl in G. eexists. split; [reflexivity|]. split.
  - intros x Hx. apply in_app_or in Hx as [Hx|Hx].
    + apply in_flat_map in Hx as (g & Hg & Hx). apply slice0_incl in Hx.
      apply (Permutation_in _ (values_perm grouped)) in Hg.
      apply in_map_iff in Hg as ([k g'] & <- & Hg). simpl in Hx.
      rewrite (groups_of_entries _ _ _ _ G Hg) in Hx.
      apply filter_In in Hx as [Hx _]. now apply filter_In in Hx.
    + now apply filter_In in Hx.
  - intros key. rewrite filter_app, filter_flat_map'.
    destruct G as [D G0].
    destruct (contribution_entries (slice0 maxPerKey) (slice0_incl maxPerKey) key
                (filter is_limited indicators) grouped D)
      as (C & _ & F).
    { intros k g. apply groups_of_entries. now split. }
    rewrite (flat_map_perm _ _ _ (values_perm grouped))
      by now rewrite (contributing_perm _ _ _ (values_perm grouped)).
    rewrite F, G0.
    destruct (limited keysToLimit indicators key) eqn:L.
    + rewrite (filter_nothing (has_key key)
                 (filter (fun x => negb (limited keysToLimit indicators
                                           (raw_bias_indicator_key x)))
                         indicators)).
      2:{ intros x Hx. apply filter_In in Hx as [_ Hx].
          destruct (has_key key x) eqn:K; [|reflexivity].
          apply has_key_iff in K. rewrite <- K, L in Hx.
          discriminate. }
      rewrite app_nil_r, filter_filter_key.
      2:{ intros x K. apply has_key_iff in K. unfold is_limited. now rewrite <- K. }
      destruct (filter (has_key key) indicators); [|reflexivity].
      unfold slice0. now rewrite !firstn_nil, Tauto.if_same.
    + rewrite (filter_nothing (has_key key) (filter is_limited indicators)).
      2:{ intros x Hx. apply filter_In in Hx as [_ Hx].
          destruct (has_key key x) eqn:K; [|reflexivity].
          apply has_key_iff in K. unfold is_limited in Hx. rewrite <- K, L in Hx.
          discriminate. }
      simpl. apply filter_filter_key.
      intros x K. apply has_key_iff in K. unfold is_limited. now rewrite <- K, L.
Qed.

(** X9.  A negative [maxPerKey] is taken by [slice] as a count from the end:
    for candidates whose limited categories bear no inherited name, each
    limited category then keeps all of its candidates but the last
    [-maxPerKey], in input order (none when it has no more than that), and
    the other categories keep all of theirs. *)
Theorem limitIndicatorsByKey_negative_limit (indicators : list RawBiasIndicator)
    (keysToLimit : option (list string)) (maxPerKey : Z) :
  maxPerKey < 0 ->
  (forall x, In x indicators ->
     limited keysToLimit indicators (raw_bias_indicator_key x) = true ->
     inherited (raw_bias_indicator_key x) = false) ->
  exists out,
    limitIndicatorsByKey indicators keysToLimit (Some maxPerKey) = Normal out /\
    forall key,
      let group := filter (has_key key) indicators in
      filter (has_key key) out
      = if limited keysToLimit indicators key
        then firstn (length group - Z.to_nat (- maxPerKey)) group
        else group.
Proof.
  intros Hneg Hproto.
  destruct (limit_projection indicators keysToLimit maxPerKey Hproto)
    as (out & E & _ & P).
  exists out. split; [exact E|]. intros key group. rewrite P.
  destruct (limited keysToLimit indicators key); [|reflexivity].
  unfold slice0. destruct (Z.ltb_spec maxPerKey 0); [|lia].
  f_equal. fold group. lia.
Qed.

Lemma limitIndicatorsByKey_negative_limit_witness :
  let sarcasm phrase := mkRaw "sarcasm" phrase None None in
  let other := mkRaw "passiveVoice" "was made" None None in
  exists out,
    limitIndicatorsByKey [sarcasm "s1"; other; sarcasm "s2"; sarcasm "s3"]%string
                         (Some ["sarcasm"%string]) (Some (-1)) = Normal out /\
    forall key,
      let group := filter (has_key key)
                     [sarcasm "s1"; other; sarcasm "s2"; sarcasm "s3"]%string in
      filter (has_key key) out
      = if limited (Some ["sarcasm"%string])
                   [sarcasm "s1"; other; sarcasm "s2"; sarcasm "s3"]%string key
        then firstn (length group - Z.to_nat (- (-1))) group
        else group.
Proof.
  intros sarcasm other.
  apply (limitIndicatorsByKey_negative_limit
           [sarcasm "s1"; other; sarcasm "s2"; sarcasm "s3"]%string
           (Some ["sarcasm"%string]) (-1)).
  - lia.
  - intros x [<-|[<-|[<-|[<-|[]]]]] _; reflexivity.
Defined.

End LimiterFacts.

(* ===================================================================== *)
(** * Limiting what has been limited                                      *)
(* ===================================================================== *)

Module RegroupingFacts.
Import Js JsFacts JsObject JsObjectFacts CategoryLimiter Limiting
       CategoryLimiterFacts LimiterFacts Enumeration.

(** ** The enumeration order, with the names *)

Section Entries.
Context {V : Type}.
Implicit Types (o : t V).

Lemma insert_entry_values (e : N * (string * V)) l :
  map (fun e => (fst e, snd (snd e))) (insert_entry e l)
  = insert_index (fst e, snd (snd e)) (map (fun e => (fst e, snd (snd e))) l).
Proof.
  induction l as [|e' l IH]; [reflexivity|]. cbn [insert_entry map insert_index fst].
  destruct (fst e <=? fst e')%N; [reflexivity|]. cbn [map]. now rewrite IH.
Qed.

Lemma index_entries_values o :
  index_properties o = map (fun e => (fst e, snd (snd e))) (index_entries o).
Proof.
  induction o as [|[k v] o IH]; [reflexivity|]. cbn [index_properties index_entries].
  destruct (array_index k); [|exact IH].
  now rewrite insert_entry_values, IH.
Qed.

Lemma named_entries_values o : named_properties o = map snd (named_entries o).
Proof.
  unfold named_entries. induction o as [|[k v] o IH]; [reflexivity|].
  cbn [named_properties filter]. unfold is_named at 1. cbn [fst].
  destruct (array_index k); [exact IH|]. cbn [map snd]. now rewrite IH.
Qed.

Lemma values_enumerate o : values o = map snd (enumerate o).
Proof.
  unfold values, enumerate.
  rewrite map_app, index_entries_values, named_entries_values, !map_map.
  reflexivity.
Qed.

Lemma insert_entry_perm (e : N * (string * V)) l :
  Permutation (insert_entry e l) (e :: l).
Proof.
  induction l as [|e' l IH]; simpl; [apply Permutation_refl|].
  destruct (fst e <=? fst e')%N; [apply Permutation_refl|].
  eapply Permutation_trans; [apply perm_skip, IH | apply perm_swap].
Qed.

Lemma enumerate_perm o : Permutation (enumerate o) o.
Proof.
  unfold enumerate, named_entries.
  induction o as [|[k v] o IH]; [constructor|].
  cbn [index_entries filter]. unfold is_named at 1. cbn [fst].
  destruct (array_index k) as [n|].
  - eapply Permutation_trans.
    + apply Permutation_app_tail, Permutation_map, insert_entry_perm.
    + cbn [map snd app]. now constructor.
  - eapply Permutation_trans; [apply Permutation_sym, Permutation_middle|].
    now constructor.
Qed.

Lemma insert_entry_sorted (e : N * (string * V)) l :
  StronglySorted by_index l -> StronglySorted by_index (insert_entry e l).
Proof.
  induction 1 as [|y l Hs IH Hy]; simpl.
  - constructor; constructor.
  - destruct (N.leb_spec (fst e) (fst y)) as [Hle|Hgt].
    + constructor; [now constructor|]. constructor; [exact Hle|].
      eapply Forall_impl; [|exact Hy]. unfold by_index. intros; lia.
    + constructor; [exact IH|].
      apply Forall_forall. intros z Hz.
      apply (Permutation_in _ (insert_entry_perm e l)) in Hz as [<-|Hz].
      * unfold by_index. lia.
      * rewrite Forall_forall in Hy. now apply Hy.
Qed.

Lemma index_entries_sorted o :
  StronglySorted by_index (index_entries o) /\ Forall indexed (index_entries o).
Proof.
  induction o as [|[k v] o [IHs IHi]]; [split; constructor|].
  cbn [index_entries]. destruct (array_index k) as [n|] eqn:E; [|now split].
  split; [now apply insert_entry_sorted|].
  apply Forall_forall. intros z Hz.
  apply (Permutation_in _ (insert_entry_perm _ _)) in Hz as [<-|Hz].
  - exact E.
  - rewrite Forall_forall in IHi. now apply IHi.
Qed.

(** An object whose properties were created in enumeration order. *)
Lemma values_in_order (indexed_part : list (N * (string * V)))
    (named_part : list (string * V)) :
  StronglySorted by_index indexed_part ->
  Forall indexed indexed_part ->
  Forall (fun e => is_named e = true) named_part ->
  values (map snd indexed_part ++ named_part)
  = map snd (map snd indexed_part ++ named_part).
Proof.
  intros S I Nm. unfold values.
  assert (Hn : index_properties named_part = [] /\
               named_properties named_part = map snd named_part).
  { induction Nm as [|[k v] l Hk _ [IH1 IH2]]; [split; reflexivity|].
    unfold is_named in Hk. cbn [fst] in Hk.
    cbn [index_properties named_properties].
    destruct (array_index k); [discriminate|]. cbn [map snd].
    split; [exact IH1 | now rewrite IH2]. }
  destruct Hn as [Hn1 Hn2].
  assert (Hi : index_properties (map snd indexed_part ++ named_part)
               = map (fun e => (fst e, snd (snd e))) indexed_part /\
               named_properties (map snd indexed_part ++ named_part)
               = map snd named_part).
  { induction S as [|[n [k v]] l S IH Hhd]; [split; assumption|].
    inversion I as [|? ? Hk I']; subst. unfold indexed in Hk. cbn [fst snd] in Hk.
    destruct (IH I') as [IH1 IH2].
    cbn [map snd app index_properties named_properties fst]. rewrite Hk, IH1, IH2.
    split; [|reflexivity].
    destruct l as [|[n' [k' v']] l]; [reflexivity|].
    cbn [map insert_index fst snd].
    inversion Hhd as [|? ? Hle _]; subst. unfold by_index in Hle. cbn [fst] in Hle.
    destruct (N.leb_spec n n'); [reflexivity | lia]. }
  destruct Hi as [-> ->]. now rewrite map_app, !map_map.
Qed.
End Entries.

(** ** Grouping a list that is made of blocks *)

Lemma set_own_absent {V} key (v : V) (o : t V) :
  get_own key o = None -> set_own key v o = o ++ [(key, v)].
Proof.
  induction o as [|[k w] o IH]; [reflexivity|]. cbn [get_own set_own app].
  destruct (String.eqb key k); [discriminate|]. intros H. now rewrite IH.
Qed.

Lemma set_own_last {V} key (v w : V) (o : t V) :
  get_own key o = None -> set_own key v (o ++ [(key, w)]) = o ++ [(key, v)].
Proof.
  induction o as [|[k u] o IH]; cbn [get_own set_own app].
  - now rewrite String.eqb_refl.
  - destruct (String.eqb key k); [discriminate|]. intros H. now rewrite IH.
Qed.

Lemma get_own_last {V} key (w : V) (o : t V) :
  get_own key o = None -> get_own key (o ++ [(key, w)]) = Some w.
Proof.
  induction o as [|[k u] o IH]; cbn [get_own app].
  - now rewrite String.eqb_refl.
  - destruct (String.eqb key k); [discriminate | exact IH].
Qed.

Lemma group_block key rest :
  forall group current acc,
    get_own key acc = None ->
    Forall (fun x => raw_bias_indicator_key x = key) group ->
    group_by_key (group ++ rest) (acc ++ [(key, current)])
    = group_by_key rest (acc ++ [(key, current ++ group)]).
Proof.
  induction group as [|x group IH]; intros current acc Hacc Hkey.
  - now rewrite app_nil_r.
  - inversion Hkey as [|? ? Hx Hkey']; subst.
    cbn [app group_by_key]. unfold group_step.
    rewrite (get_own_last _ current acc Hacc), (set_own_last _ _ _ _ Hacc).
    rewrite (IH (current ++ [x]) acc Hacc Hkey'), <- app_assoc. reflexivity.
Qed.

Lemma group_blocks blocks :
  forall acc,
    NoDup (map fst acc ++ map fst blocks) ->
    Forall block blocks ->
    group_by_key (flat_map snd blocks) acc = Normal (acc ++ blocks).
Proof.
  induction blocks as [|[key group] blocks IH]; intros acc D B.
  - now rewrite app_nil_r.
  - inversion B as [|? ? (Hne & Hin & Hkey) B']; subst. cbn [fst snd] in *.
    destruct group as [|x group]; [congruence|].
    inversion Hkey as [|? ? Hx Hkey']; subst.
    assert (Hacc : get_own (raw_bias_indicator_key x) acc = None).
    { apply get_own_none. intros H. apply NoDup_remove_2 in D.
      apply D, in_or_app. now left. }
    cbn [flat_map snd app group_by_key]. unfold group_step.
    rewrite Hacc, Hin, (set_own_absent _ _ _ Hacc).
    rewrite (group_block _ _ group [x] acc Hacc Hkey').
    cbn [app]. rewrite IH; [now rewrite <- app_assoc| |exact B'].
    rewrite map_app. cbn [map fst]. rewrite <- app_assoc. exact D.
Qed.

(** ** The groups of a limited list, enumerated *)

Lemma cut_cons maxPerKey k g (entries : list (string * list RawBiasIndicator)) :
  filter contributes (map (cut maxPerKey) ((k, g) :: entries))
  = match slice0 maxPerKey g with
    | [] => filter contributes (map (cut maxPerKey) entries)
    | _ => (k, slice0 maxPerKey g)
           :: filter contributes (map (cut maxPerKey) entries)
    end.
Proof.
  cbn [map filter]. change (cut maxPerKey (k, g)) with (k, slice0 maxPerKey g).
  unfold contributes at 1. cbn [snd].
  destruct (slice0 maxPerKey g); reflexivity.
Qed.

Lemma flat_map_cut maxPerKey (entries : list (string * list RawBiasIndicator)) :
  flat_map (slice0 maxPerKey) (map snd entries)
  = flat_map snd (filter contributes (map (cut maxPerKey) entries)).
Proof.
  induction entries as [|[k g] entries IH]; [reflexivity|].
  rewrite cut_cons. cbn [map snd flat_map]. rewrite IH.
  destruct (slice0 maxPerKey g); reflexivity.
Qed.

Lemma slice0_twice {A} n (l : list A) :
  0 <= n -> slice0 n (slice0 n l) = slice0 n l.
Proof.
  intros H. rewrite !(slice0_nonneg _ _ H), firstn_firstn. now rewrite Nat.min_id.
Qed.

Lemma flat_map_cut_twice maxPerKey (entries : list (string * list RawBiasIndicator)) :
  0 <= maxPerKey ->
  flat_map (slice0 maxPerKey)
           (map snd (filter contributes (map (cut maxPerKey) entries)))
  = flat_map snd (filter contributes (map (cut maxPerKey) entries)).
Proof.
  intros H. induction entries as [|[k g] entries IH]; [reflexivity|].
  rewrite cut_cons.
  destruct (slice0 maxPerKey g) as [|x rest] eqn:E; [exact IH|].
  cbn [map snd flat_map]. rewrite IH, <- E, (slice0_twice _ _ H). reflexivity.
Qed.

Lemma filter_map_snd {A B} (p : B -> bool) (l : list (A * B)) :
  filter p (map snd l) = map snd (filter (fun e => p (snd e)) l).
Proof.
  induction l as [|e l IH]; [reflexivity|]. cbn [map filter].
  destruct (p (snd e)); cbn [map]; now rewrite IH.
Qed.

Lemma sorted_filter {A} (R : A -> A -> Prop) (p : A -> bool) l :
  StronglySorted R l -> StronglySorted R (filter p l).
Proof.
  induction 1 as [|x l S IH Hx]; [constructor|]. cbn [filter].
  destruct (p x); [|exact IH]. constructor; [exact IH|].
  apply Forall_forall. intros y Hy. apply filter_In in Hy as [Hy _].
  rewrite Forall_forall in Hx. now apply Hx.
Qed.

Lemma sorted_map {A} (R : A -> A -> Prop) (f : A -> A) l :
  (forall a b, R a b -> R (f a) (f b)) ->
  StronglySorted R l -> StronglySorted R (map f l).
Proof.
  intros H. induction 1 as [|x l S IH Hx]; [constructor|]. cbn [map].
  constructor; [exact IH|]. apply Forall_forall. intros y Hy.
  apply in_map_iff in Hy as (z & <- & Hz). rewrite Forall_forall in Hx. auto.
Qed.

(** X21.  Limiting a list that has been limited changes nothing: for a limit
    that is not negative and candidates whose limited categories bear no
    inherited name, [limitIndicatorsByKey] applied to its own result, with
    the same [keysToLimit] and [maxPerKey], returns that result again, in
    the same order. *)
Theorem limitIndicatorsByKey_idempotent (indicators : list RawBiasIndicator)
    (keysToLimit : option (list string)) (maxPerKey : Z) :
  0 <= maxPerKey ->
  (forall x, In x indicators ->
     limited keysToLimit indicators (raw_bias_indicator_key x) = true ->
     inherited (raw_bias_indicator_key x) = false) ->
  exists out,
    limitIndicatorsByKey indicators keysToLimit (Some maxPerKey) = Normal out /\
    limitIndicatorsByKey out keysToLimit (Some maxPerKey) = Normal out.
Proof.
  intros Hmax Hproto. rewrite limited_keysSet. cbv beta zeta.
  set (is_limited := fun x => limited keysToLimit indicators (raw_bias_indicator_key x)).
  destruct (group_by_key_spec (filter is_limited indicators) [] empty
              groups_of_empty) as (grouped & E & G).
  { intros x Hx. apply filter_In in Hx as [Hin Hl]. now apply Hproto. }
  rewrite E. cbn [app] in G. eexists. split; [reflexivity|].
  rewrite limited_keysSet. cbv beta zeta.
  set (others := filter (fun x => negb (limited keysToLimit indicators
                                          (raw_bias_indicator_key x)))
                        indicators).
  set (kept := flat_map (slice0 maxPerKey) (values grouped)).
  (* what the groups hold *)
  assert (Hgroup : forall k g, In (k, g) grouped ->
            g <> [] /\
            g = filter (has_key k) (filter is_limited indicators)).
  { intros k g Hg. pose proof (groups_of_entries _ _ _ _ G Hg) as Eg.
    split; [|exact Eg]. destruct G as [D G0].
    pose proof (get_own_in _ _ _ D Hg) as S. rewrite G0, <- Eg in S.
    intros ->. discriminate. }
  assert (Hkept : forall x, In x kept -> In x indicators /\ is_limited x = true).
  { intros x Hx. apply in_flat_map in Hx as (g & Hg & Hx).
    apply slice0_incl in Hx.
    apply (Permutation_in _ (values_perm grouped)) in Hg.
    apply in_map_iff in Hg as ([k g'] & <- & Hg). cbn [snd] in Hx.
    rewrite (proj2 (Hgroup _ _ Hg)) in Hx.
    apply filter_In in Hx as [Hx _]. now apply filter_In in Hx. }
  assert (Hothers : forall x, In x others -> In x indicators /\ is_limited x = false).
  { intros x Hx. apply filter_In in Hx as [Hx Hl].
    split; [exact Hx | now apply negb_true_iff]. }
  (* the second call limits the same categories *)
  assert (Hsame : forall x, In x (kept ++ others) ->
            limited keysToLimit (kept ++ others) (raw_bias_indicator_key x)
            = is_limited x).
  { intros x Hx. unfold is_limited, limited.
    assert (Hin : In x indicators).
    { apply in_app_or in Hx as [Hx|Hx]; [now apply Hkept | now apply Hothers]. }
    assert (H1 : set_has (map raw_bias_indicator_key (kept ++ others))
                         (raw_bias_indicator_key x) = true)
      by (apply set_has_iff; now apply in_map).
    assert (H2 : set_has (map raw_bias_indicator_key indicators)
                         (raw_bias_indicator_key x) = true)
      by (apply set_has_iff; now apply in_map).
    destruct keysToLimit as [[|k ks]|]; congruence. }
  rewrite (filter_ext_in _ is_limited (kept ++ others) Hsame).
  rewrite (filter_ext_in (fun x => negb (limited keysToLimit (kept ++ others)
                                            (raw_bias_indicator_key x)))
                         (fun x => negb (is_limited x)) (kept ++ others))
    by (intros x Hx; now rewrite Hsame).
  rewrite !filter_app.
  rewrite (filter_all is_limited kept) by (intros x Hx; now apply Hkept).
  rewrite (filter_nothing is_limited others) by (intros x Hx; now apply Hothers).
  rewrite (filter_nothing (fun x => negb (is_limited x)) kept)
    by (intros x Hx; apply negb_false_iff; now apply Hkept).
  rewrite (filter_all (fun x => negb (is_limited x)) others)
    by (intros x Hx; apply negb_true_iff; now apply Hothers).
  rewrite app_nil_r. cbn [app].
  (* the kept candidates are made of blocks, in enumeration order *)
  set (indexed_part :=
         filter (fun e => contributes (snd e))
                (map (fun e => (fst e, cut maxPerKey (snd e)))
                     (index_entries grouped))).
  set (named_part :=
         filter contributes (map (cut maxPerKey) (named_entries grouped))).
  assert (Eblocks : filter contributes (map (cut maxPerKey) (enumerate grouped))
                    = map snd indexed_part ++ named_part).
  { unfold enumerate, indexed_part, named_part.
    rewrite map_app, filter_app, !map_map. f_equal.
    rewrite <- filter_map_snd, map_map. reflexivity. }
  assert (Ekept : kept = flat_map snd (map snd indexed_part ++ named_part)).
  { unfold kept. now rewrite values_enumerate, flat_map_cut, Eblocks. }
  assert (Hentry : forall e, In e (map snd indexed_part ++ named_part) ->
            exists g, In (fst e, g) grouped /\ snd e = slice0 maxPerKey g /\
                      snd e <> []).
  { intros e He. rewrite <- Eblocks in He. apply filter_In in He as [He Hc].
    apply in_map_iff in He as ([k g] & <- & He).
    apply (Permutation_in _ (enumerate_perm grouped)) in He.
    exists g. cbn [cut fst snd]. split; [exact He|]. split; [reflexivity|].
    unfold contributes, cut in Hc. cbn [fst snd] in Hc.
    destruct (slice0 maxPerKey g); [discriminate | discriminate]. }
  assert (Hblocks : Forall block (map snd indexed_part ++ named_part)).
  { apply Forall_forall. intros e He.
    destruct (Hentry e He) as (g & Hg & Es & Hne).
    destruct (Hgroup _ _ Hg) as [_ Eg].
    assert (Hall : forall x, In x (snd e) ->
              raw_bias_indicator_key x = fst e /\ In x indicators /\
              is_limited x = true).
    { intros x Hx. rewrite Es in Hx. apply slice0_incl in Hx.
      rewrite Eg in Hx. apply filter_In in Hx as [Hx Hk].
      apply has_key_iff in Hk. apply filter_In in Hx. intuition congruence. }
    split; [exact Hne|]. split.
    - destruct (snd e) as [|x rest]; [congruence|].
      destruct (Hall x (or_introl eq_refl)) as (<- & Hin & Hl).
      now apply Hproto.
    - apply Forall_forall. intros x Hx. now apply Hall. }
  assert (Hkeys : NoDup (map fst (map snd indexed_part ++ named_part))).
  { rewrite <- Eblocks.
    assert (D : NoDup (map fst (enumerate grouped))).
    { eapply Permutation_NoDup;
        [apply Permutation_sym, Permutation_map, enumerate_perm | apply G]. }
    revert D. generalize (enumerate grouped).
    induction l as [|[k g] l IH]; intros D; [constructor|].
    inversion D as [|? ? Hnotin D']; subst. cbn [map filter].
    unfold contributes at 1, cut at 1. cbn [fst snd].
    destruct (slice0 maxPerKey g); [now apply IH|].
    cbn [map fst]. constructor; [|now apply IH].
    intros H. apply Hnotin. apply in_map_iff in H as ([k' g'] & Ek & H).
    apply filter_In in H as [H _]. apply in_map_iff in H as ([k'' g''] & Ec & H).
    unfold cut in Ec, Ek. cbn [fst snd] in Ec, Ek. injection Ec as E1 _.
    apply in_map_iff. exists (k'', g''). split; [cbn [fst]; congruence | exact H]. }
  pose proof (group_blocks _ [] Hkeys Hblocks) as R. cbn [app] in R.
  rewrite Ekept. unfold empty. rewrite R. f_equal. f_equal.
  destruct (index_entries_sorted grouped) as [Hsorted Hindexed].
  rewrite values_in_order.
  - rewrite <- Eblocks. now apply flat_map_cut_twice.
  - unfold indexed_part. apply sorted_filter, sorted_map; [|exact Hsorted].
    intros a b. unfold by_index. now cbn [fst].
  - unfold indexed_part. apply Forall_forall. intros e He.
    apply filter_In in He as [He _]. apply in_map_iff in He as (e' & <- & He).
    rewrite Forall_forall in Hindexed. exact (Hindexed e' He).
  - unfold named_part. apply Forall_forall. intros e He.
    apply filter_In in He as [He _]. apply in_map_iff in He as (e' & <- & He).
    unfold named_entries in He. now apply filter_In in He.
Qed.

Lemma limitIndicatorsByKey_idempotent_witness :
  let a1 := mkRaw "typeA" "a1" None None in
  let b1 := mkRaw "typeB" "b1" None None in
  let a2 := mkRaw "typeA" "a2" None None in
  let a3 := mkRaw "typeA" "a3" None None in
  exists out,
    limitIndicatorsByKey [a1; b1; a2; a3] (Some ["typeA"%string]) (Some 2)
      = Normal out /\
    limitIndicatorsByKey out (Some ["typeA"%string]) (Some 2) = Normal out.
Proof.
  intros a1 b1 a2 a3.
  apply (limitIndicatorsByKey_idempotent [a1; b1; a2; a3]
           (Some ["typeA"%string]) 2).
  - lia.
  - intros x [<-|[<-|[<-|[<-|[]]]]] _; reflexivity.
Defined.

End RegroupingFacts.

(* ===================================================================== *)
(** * The two analysis services                                           *)
(* ===================================================================== *)

Module AnalysisFacts.
Import Js JsFacts JsObject CategoryLimiter Limiting CategoryLimiterFacts
       PhraseLocator Text Occurrence Filter FilterFacts Bootstrap Counters
       LimiterFacts Analysis.

Lemma map_indicators_same text indicators :
  forall count,
    Forall2 same_candidate (map_indicators text count indicators) indicators.
Proof.
  induction indicators as [|x l IH]; intros count; cbn [map_indicators];
    [constructor|].
  destruct (position_indicator text count x) as [r count'] eqn:E.
  constructor; [|apply IH].
  unfold position_indicator in E.
  destruct (raw_character_positions x);
    [|destruct (0 <? length _)%nat]; injection E as <- _;
    repeat split; reflexivity.
Qed.

Lemma addCharacterPositions_same indicators text :
  Forall2 same_candidate (addCharacterPositions indicators text) indicators.
Proof. apply map_indicators_same. Qed.

(** X10.  [analyzeBiasIndicators] never fails on the candidates it receives,
    whatever their categories and phrases: the two categories it limits,
    "sarcasm" and "passiveVoice", are no inherited names.  It returns the
    candidates of [limitIndicatorsByKey], one for one with the same
    category, phrase and confidence; among them each of the two limited
    categories has its first three candidates and every other category has
    all of its candidates, in input order. *)
Theorem analyzeBiasIndicators_limits (rawData : list RawBiasIndicator)
    (text : string) :
  exists finalData out,
    analyzeBiasIndicators rawData text = Normal out /\
    Forall2 same_candidate out finalData /\
    (forall x, In x finalData -> In x rawData) /\
    forall key,
      filter (has_key key) finalData
      = if String.eqb key "sarcasm" || String.eqb key "passiveVoice"
        then firstn 3 (filter (has_key key) rawData)
        else filter (has_key key) rawData.
Proof.
  destruct (limit_projection rawData (Some ["sarcasm"; "passiveVoice"]%string) 3)
    as (finalData & E & Hin & P).
  { intros x _ L. cbn [limited set_has existsb] in L.
    rewrite orb_false_r in L. apply orb_true_iff in L as [L|L];
      apply String.eqb_eq in L; rewrite L; reflexivity. }
  exists finalData, (addCharacterPositions finalData text).
  unfold analyzeBiasIndicators. rewrite E.
  split; [reflexivity|]. split; [apply addCharacterPositions_same|].
  split; [exact Hin|]. intros key. rewrite P.
  cbn [limited set_has existsb]. rewrite orb_false_r. reflexivity.
Qed.

(** ** The keys of the language-model service *)

Lemma set_add_In elements key k :
  In k (set_add elements key) <-> In k elements \/ k = key.
Proof.
  unfold set_add. destruct (set_has elements key) eqn:E.
  - apply set_has_iff in E. split; [tauto | intros [H| ->]; assumption].
  - rewrite in_app_iff. simpl. intuition congruence.
Qed.

Lemma spread_new_Set_In keys k : In k (spread_new_Set keys) <-> In k keys.
Proof.
  unfold spread_new_Set.
  assert (G : forall acc, In k (fold_left set_add keys acc) <-> In k acc \/ In k keys).
  { induction keys as [|key keys IH]; intros acc; simpl; [tauto|].
    rewrite IH, set_add_In. intuition congruence. }
  rewrite G. simpl. tauto.
Qed.

Lemma limited_all_keys indicators key :
  limited (Some (spread_new_Set (map raw_bias_indicator_key indicators)))
          indicators key
  = set_has (map raw_bias_indicator_key indicators) key.
Proof.
  unfold limited.
  destruct (spread_new_Set (map raw_bias_indicator_key indicators)) as [|k ks] eqn:E;
    [reflexivity|].
  rewrite <- E. apply eq_true_iff_eq.
  now rewrite !set_has_iff, spread_new_Set_In.
Qed.

(** X11.  [analyzeLLMIndicators], on candidates of which those that pass the
    text filter have no inherited category name: it returns, one for one
    with the same category, phrase and confidence, candidates that came
    from the service and that carry a span or have a phrase, not blank, that
    occurs in the text up to case; every category has the first three of
    its candidates that pass the filter, in their order, so a category is
    lost only when none of its candidates occurs in the text.  The key list
    it computes limits every category, as a missing list would. *)
Theorem analyzeLLMIndicators_spec (rawData : list RawBiasIndicator)
    (text : string) :
  (forall c, In c (filterIndicatorsInText rawData text) ->
             inherited (raw_bias_indicator_key c) = false) ->
  exists limitedBiasIndicators out,
    analyzeLLMIndicators rawData text = Normal out /\
    limitIndicatorsByKey (filterIndicatorsInText rawData text) None (Some 3)
      = Normal limitedBiasIndicators /\
    Forall2 same_candidate out limitedBiasIndicators /\
    (forall c, In c limitedBiasIndicators ->
       In c rawData /\
       (raw_character_positions c <> None \/
        (blank (raw_detected_phrase c) = false /\
         exists i, occurs_at (chars text) (chars (raw_detected_phrase c)) i))) /\
    forall key,
      filter (has_key key) limitedBiasIndicators
      = firstn 3 (filter (has_key key) (filterIndicatorsInText rawData text)).
Proof.
  intros I. set (filtered := filterIndicatorsInText rawData text) in *.
  destruct (limit_projection filtered
              (Some (spread_new_Set (map raw_bias_indicator_key filtered))) 3)
    as (limitedBiasIndicators & E & Hin & P).
  { intros x Hx _. now apply I. }
  exists limitedBiasIndicators, (addCharacterPositions limitedBiasIndicators text).
  assert (E' : limitIndicatorsByKey filtered None (Some 3)
               = Normal limitedBiasIndicators).
  { rewrite <- E. rewrite !limited_keysSet. cbv beta zeta.
    assert (L : forall x, limited None filtered (raw_bias_indicator_key x)
                = limited (Some (spread_new_Set (map raw_bias_indicator_key filtered)))
                          filtered (raw_bias_indicator_key x)).
    { intros x. now rewrite limited_all_keys. }
    rewrite (filter_ext _ _ L).
    rewrite (filter_ext (fun x => negb (limited None filtered (raw_bias_indicator_key x)))
                        (fun x => negb (limited
                           (Some (spread_new_Set (map raw_bias_indicator_key filtered)))
                           filtered (raw_bias_indicator_key x))))
      by (intros x; now rewrite L).
    reflexivity. }
  unfold analyzeLLMIndicators. fold filtered. rewrite E.
  split; [reflexivity|]. split; [exact E'|].
  split; [apply addCharacterPositions_same|]. split.
  - intros c Hc. apply Hin in Hc. unfold filtered, filterIndicatorsInText in Hc.
    apply filter_In in Hc as [Hc K]. apply keeps_iff in K. auto.
  - intros key. rewrite P, limited_all_keys.
    destruct (set_has (map raw_bias_indicator_key filtered) key) eqn:S;
      [reflexivity|].
    rewrite filter_nothing; [reflexivity|].
    intros x Hx. destruct (has_key key x) eqn:K; [|reflexivity].
    apply has_key_iff in K. subst key.
    assert (set_has (map raw_bias_indicator_key filtered)
                    (raw_bias_indicator_key x) = true)
      by (apply set_has_iff; now apply in_map).
    congruence.
Qed.

Lemma analyzeLLMIndicators_spec_witness :
  let text := "Clearly everyone knows this is obviously true"%string in
  let rawData :=
    [mkRaw "overgeneralizations" "clearly" None None;
     mkRaw "overgeneralizations" "never" None None;
     mkRaw "overgeneralizations" "obviously" None None]%string in
  exists limitedBiasIndicators out,
    analyzeLLMIndicators rawData text = Normal out /\
    limitIndicatorsByKey (filterIndicatorsInText rawData text) None (Some 3)
      = Normal limitedBiasIndicators /\
    Forall2 same_candidate out limitedBiasIndicators /\
    (forall c, In c limitedBiasIndicators ->
       In c rawData /\
       (raw_character_positions c <> None \/
        (blank (raw_detected_phrase c) = false /\
         exists i, occurs_at (chars text) (chars (raw_detected_phrase c)) i))) /\
    forall key,
      filter (has_key key) limitedBiasIndicators
      = firstn 3 (filter (has_key key) (filterIndicatorsInText rawData text)).
Proof.
  intros text rawData. apply (analyzeLLMIndicators_spec rawData text).
  intros c [<-|[<-|[]]]; reflexivity.
Defined.

End AnalysisFacts.

(* ===================================================================== *)
(** * Further properties of the stored collection                         *)
(* ===================================================================== *)

Module CollectionFacts.
Import Js JsFacts Bias Lifecycle BiasFacts LifecycleFacts Session Sequences
       Collections.

(** ** The sort of [setBiasIndicators] *)

Lemma insert_by_end_perm x l : Permutation (insert_by_end x l) (x :: l).
Proof.
  induction l as [|y l IH]; simpl; [apply Permutation_refl|].
  destruct (_ <=? _); [apply Permutation_refl|].
  eapply Permutation_trans; [apply perm_skip, IH | apply perm_swap].
Qed.

Lemma sort_by_end_perm l : Permutation (sort_by_end l) l.
Proof.
  induction l as [|x l IH]; simpl; [constructor|].
  eapply Permutation_trans; [apply insert_by_end_perm | now constructor].
Qed.

Lemma insert_by_end_sorted x l :
  StronglySorted by_end l -> StronglySorted by_end (insert_by_end x l).
Proof.
  induction 1 as [|y l Hs IH Hy]; simpl.
  - constructor; constructor.
  - destruct (Z.leb_spec (end_ (character_positions x))
                         (end_ (character_positions y))) as [Hle|Hgt].
    + constructor; [now constructor|]. constructor; [exact Hle|].
      eapply Forall_impl; [|exact Hy]. unfold by_end. intros; lia.
    + constructor; [exact IH|].
      apply Forall_forall. intros z Hz.
      apply (Permutation_in _ (insert_by_end_perm x l)) in Hz as [<-|Hz].
      * unfold by_end. lia.
      * rewrite Forall_forall in Hy. now apply Hy.
Qed.

Lemma sort_by_end_sorted l : StronglySorted by_end (sort_by_end l).
Proof.
  induction l as [|x l IH]; simpl; [constructor | now apply insert_by_end_sorted].
Qed.

Lemma insert_by_end_stable e x l :
  filter (ends_at e) (insert_by_end x l) = filter (ends_at e) (x :: l).
Proof.
  induction l as [|y l IH]; [reflexivity|]. cbn [insert_by_end].
  destruct (Z.leb_spec (end_ (character_positions x))
                       (end_ (character_positions y))) as [Hle|Hgt];
    [reflexivity|].
  cbn [filter] in *. rewrite IH. unfold ends_at.
  destruct (Z.eqb_spec (end_ (character_positions x)) e),
           (Z.eqb_spec (end_ (character_positions y)) e); try reflexivity.
  lia.
Qed.

Lemma sort_by_end_stable e l :
  filter (ends_at e) (sort_by_end l) = filter (ends_at e) l.
Proof.
  induction l as [|x l IH]; [reflexivity|]. cbn [sort_by_end fold_right].
  fold (sort_by_end l). rewrite insert_by_end_stable. cbn [filter].
  now rewrite IH.
Qed.

Lemma sort_by_end_sorted_id l : StronglySorted by_end l -> sort_by_end l = l.
Proof.
  induction 1 as [|x l Hs IH Hx]; [reflexivity|].
  cbn [sort_by_end fold_right]. fold (sort_by_end l). rewrite IH.
  destruct l as [|y l]; [reflexivity|]. cbn [insert_by_end].
  inversion Hx as [|? ? Hxy _]; subst. unfold by_end in Hxy.
  destruct (Z.leb_spec (end_ (character_positions x))
                       (end_ (character_positions y))); [reflexivity | lia].
Qed.

(** ** The numbering of [setBiasIndicators] *)

Lemma adjust_length normalize next l : length (adjust normalize next l) = length l.
Proof.
  revert next; induction l as [|a l IH]; intros next; simpl; [reflexivity|].
  destruct (truthy_number (displayIndex a)); simpl; now rewrite IH.
Qed.

Lemma normalized_text_span s0 e0 :
  0 <= s0 /\ s0 < e0 /\ e0 < 2 ^ 53 ->
  mkSpan (if s0 =? 0 then 1 else JsNumber.add s0 1)
         (Z.max (JsNumber.add e0 1)
                (JsNumber.add (if s0 =? 0 then 1 else JsNumber.add s0 1) 1))
  = mkSpan (s0 + 1) (e0 + 1).
Proof.
  intros (H0 & H1 & H2).
  assert (Es : (if s0 =? 0 then 1 else JsNumber.add s0 1) = s0 + 1).
  { destruct (Z.eqb_spec s0 0) as [->|N]; [reflexivity|].
    apply JsNumberFacts.add_one_exact. lia. }
  rewrite Es, !JsNumberFacts.add_one_exact by lia. f_equal. lia.
Qed.

Lemma adjust_nth normalize l :
  forall next j a,
    nth_error l j = Some a ->
    exists r,
      nth_error (adjust normalize next l) j = Some r /\
      bias_indicator_key r = bias_indicator_key a /\
      detected_phrase r = detected_phrase a /\
      confidence r = confidence a /\
      outdated r = outdated a /\
      displayIndex r
      = (if numbered a then displayIndex a
         else Some (next + Z.of_nat (length (filter unnumbered (firstn j l))))) /\
      (normalize = false -> character_positions r = character_positions a) /\
      (normalize = true ->
       text_span a ->
       character_positions r
       = mkSpan (start (character_positions a) + 1)
                (end_ (character_positions a) + 1)).
Proof.
  induction l as [|x l IH]; intros next j a Hj; [destruct j; discriminate|].
  destruct j as [|j].
  - injection Hj as ->. cbn [adjust]. unfold numbered.
    destruct (truthy_number (displayIndex a)) eqn:T; eexists;
      (split; [reflexivity|]);
      cbn [bias_indicator_key detected_phrase confidence outdated displayIndex
           character_positions with_displayIndex firstn filter length];
      rewrite ?Z.add_0_r; repeat split; try reflexivity.
    + intros ->. now destruct (character_positions a).
    + intros -> H. now apply normalized_text_span.
    + intros ->. now destruct (character_positions a).
    + intros -> H. now apply normalized_text_span.
  - simpl in Hj.
    assert (F : filter unnumbered (firstn (S j) (x :: l))
                = if truthy_number (displayIndex x)
                  then filter unnumbered (firstn j l)
                  else x :: filter unnumbered (firstn j l)).
    { cbn [firstn filter]. unfold unnumbered at 1, numbered.
      now destruct (truthy_number (displayIndex x)). }
    rewrite F. cbn [adjust].
    destruct (truthy_number (displayIndex x)) eqn:T; cbn [nth_error].
    + exact (IH next j a Hj).
    + destruct (IH (next + 1) j a Hj) as (r & Hr & Hk & Hp & Hc & Ho & Hd & Hs).
      exists r. split; [exact Hr|]. repeat split; try assumption; try apply Hs.
      rewrite Hd. destruct (numbered a); [reflexivity|].
      cbn [length]. f_equal. lia.
Qed.

Lemma adjust_numbered normalize l :
  forall next, 1 <= next ->
    Forall (fun a => numbered a = true) (adjust normalize next l).
Proof.
  induction l as [|a l IH]; intros next Hn; cbn [adjust]; [constructor|].
  destruct (truthy_number (displayIndex a)) eqn:T; constructor.
  - exact T.
  - now apply IH.
  - unfold numbered. simpl. apply negb_true_iff, Z.eqb_neq. lia.
  - apply IH. lia.
Qed.

Lemma adjust_numbered_id l :
  Forall (fun a => numbered a = true) l -> forall next, adjust false next l = l.
Proof.
  induction 1 as [|a l Ha _ IH]; intros next; cbn [adjust]; [reflexivity|].
  unfold numbered in Ha. rewrite Ha, IH.
  f_equal. destruct a as [k p c [s e] d o]. reflexivity.
Qed.

(** X12.  [setBiasIndicators] stores the candidates it is given in the order
    of their span ends, candidates with equal ends in the order they were
    given.  Each stored indicator has the category, phrase, confidence and
    outdated flag of its candidate; a candidate that comes with a display
    index keeps it, and the candidates that come without one are numbered
    1, 2, 3, ... in stored order, whatever was stored before.  Without
    normalisation the spans are stored as given; with it, a span with
    [0 <= start < end < 2^53] is moved one position to the right (from
    [2^53] on, adding one is no longer exact). *)
Theorem setBiasIndicators_sorts_and_numbers (indicators : list BiasIndicator)
    (normalize : option bool) (stored : list BiasIndicator) :
  let sorted := sort_by_end indicators in
  let out := setBiasIndicators indicators normalize stored in
  Permutation sorted indicators /\
  StronglySorted by_end sorted /\
  (forall e, filter (ends_at e) sorted = filter (ends_at e) indicators) /\
  returned out = true /\
  dispatched out = Some (storage out) /\
  length (storage out) = length indicators /\
  forall j a,
    nth_error sorted j = Some a ->
    exists r,
      nth_error (storage out) j = Some r /\
      bias_indicator_key r = bias_indicator_key a /\
      detected_phrase r = detected_phrase a /\
      confidence r = confidence a /\
      outdated r = outdated a /\
      displayIndex r
      = (if numbered a then displayIndex a
         else Some (1 + Z.of_nat (length (filter unnumbered (firstn j sorted))))) /\
      (normalize = Some false -> character_positions r = character_positions a) /\
      (normalize <> Some false ->
       text_span a ->
       character_positions r
       = mkSpan (start (character_positions a) + 1)
                (end_ (character_positions a) + 1)).
Proof.
  intros sorted out.
  split; [apply sort_by_end_perm|]. split; [apply sort_by_end_sorted|].
  split; [intros e; apply sort_by_end_stable|].
  split; [reflexivity|]. split; [reflexivity|]. split.
  - unfold out, setBiasIndicators. cbn [storage].
    rewrite adjust_length. apply Permutation_length, sort_by_end_perm.
  - intros j a Hj. unfold out, setBiasIndicators. cbn [storage fold_left].
    set (n := match normalize with Some b => b | None => true end).
    destruct (adjust_nth n sorted (0 + 1) j a Hj)
      as (r & Hr & Hk & Hp & Hc & Ho & Hd & Hs & Hn).
    exists r. split; [exact Hr|]. repeat split; try assumption.
    + intros ->. now apply Hs.
    + intros N. apply Hn. unfold n. destruct normalize as [[|]|]; congruence.
Qed.

(** At the limit of the integers that a number holds exactly the shift
    stops: the span [{2^53 - 1, 2^53}] is stored as [{2^53, 2^53}]. *)
Example setBiasIndicators_at_the_limit :
  let candidate :=
    {| bias_indicator_key := "sarcasm"; detected_phrase := "great";
       confidence := None;
       character_positions := mkSpan (2 ^ 53 - 1) (2 ^ 53);
       displayIndex := None; outdated := None |} in
  map character_positions (storage (setBiasIndicators [candidate] None []))
  = [mkSpan (2 ^ 53) (2 ^ 53)].
Proof. vm_compute. reflexivity. Qed.

Lemma fold_step_numbered ops :
  forall stored,
    Forall (fun a => numbered a = true) stored ->
    Forall (fun a => numbered a = true) (fold_left step ops stored).
Proof.
  induction ops as [|op ops IH]; intros stored H; [exact H|].
  cbn [fold_left]. apply IH.
  destruct op as [candidates normalize| |index|position|tr].
  - cbn [step]. unfold setBiasIndicators. cbn [storage fold_left].
    apply adjust_numbered. lia.
  - constructor.
  - cbn [step]. unfold removeBiasIndicator.
    destruct ((0 <=? index) && _); cbn [storage]; [|exact H].
    apply Forall_forall. intros a Ha. apply splice1_incl in Ha.
    rewrite Forall_forall in H. now apply H.
  - cbn [step]. rewrite removeBiasIndicatorAtPosition_spec.
    destruct (existsb (covers position) stored); cbn [storage]; [|exact H].
    apply Forall_forall. intros a Ha. apply filter_In in Ha as [Ha _].
    rewrite Forall_forall in H. now apply H.
  - cbn [step]. unfold apply.
    destruct (getMeta tr); [exact H|]. destruct (docChanged tr); [|exact H].
    rewrite mapIndicatorPositions_spec. cbn [fst snd].
    destruct (removeEditedIndicators_spec (map (remap (mapping tr)) stored)
                (selection tr)) as [E1 E2].
    rewrite E1, E2, removeInvalidIndicators_spec. cbn [fst snd].
    destruct (_ || _ || _); cbn [fst]; [|exact H].
    apply Forall_forall. intros a Ha. apply filter_In in Ha as [Ha _].
    assert (Hm : exists b, In b stored /\ displayIndex a = displayIndex b).
    { destruct (selection tr) as [sel|]; cbn [outdated_by] in Ha.
      - destruct (empty sel).
        + apply in_map_iff in Ha as (b' & <- & Hb').
          apply in_map_iff in Hb' as (b & <- & Hb).
          exists b. split; [exact Hb|].
          now rewrite displayIndex_outdate, displayIndex_remap.
        + apply in_map_iff in Ha as (b & <- & Hb).
          exists b. split; [exact Hb | apply displayIndex_remap].
      - apply in_map_iff in Ha as (b & <- & Hb).
        exists b. split; [exact Hb | apply displayIndex_remap]. }
    destruct Hm as (b & Hb & E). rewrite Forall_forall in H.
    unfold numbered. rewrite E. now apply H.
Qed.

(** X13.  In every session, after any sequence of operations, every stored
    indicator has a display index that is not zero: [setBiasIndicators]
    gives one to each candidate that lacks it, and no other operation
    changes a display index.  So the marker that [createDecorations] draws
    for a stored indicator always shows the display index of the indicator;
    the counter [nextAvailableIndex] is never used and never advanced. *)
Theorem stored_indicators_are_numbered (ops : list Operation) :
  Forall (fun a => numbered a = true) (run ops) /\
  forall a nextAvailableIndex,
    In a (run ops) ->
    exists d,
      displayIndex a = Some d /\ d <> 0 /\
      Rendering.marker a nextAvailableIndex = (d, nextAvailableIndex).
Proof.
  assert (H : Forall (fun a => numbered a = true) (run ops))
    by (unfold run; apply fold_step_numbered; constructor).
  split; [exact H|]. intros a next Ha.
  rewrite Forall_forall in H. specialize (H a Ha).
  unfold numbered, truthy_number in H. unfold Rendering.marker.
  destruct (displayIndex a) as [d|]; [|discriminate].
  exists d. rewrite H. split; [reflexivity|]. split; [|reflexivity].
  apply negb_true_iff, Z.eqb_neq in H. exact H.
Qed.

(** ** What the other operations leave of the collection *)

Lemma descends_refl a : descends a a.
Proof. unfold descends. auto 6. Qed.

Lemma descends_all_refl l : Forall2 descends l l.
Proof. induction l; constructor; [apply descends_refl | assumption]. Qed.

Lemma descends_remap m a : descends (remap m a) a.
Proof. unfold remap. destruct (moved m a); [|apply descends_refl]. unfold descends. simpl. auto 6. Qed.

Lemma descends_outdate position a : descends (outdate position a) a.
Proof.
  unfold outdate. destruct (cursor_inside position a); [|apply descends_refl].
  unfold descends. simpl. auto 6.
Qed.

Lemma descends_trans a b c : descends a b -> descends b c -> descends a c.
Proof.
  unfold descends. intros (K1 & P1 & C1 & D1 & O1) (K2 & P2 & C2 & D2 & O2).
  repeat split; try congruence. auto.
Qed.

Lemma descends_filter_map (f : BiasIndicator -> BiasIndicator) p l :
  (forall a, descends (f a) a) ->
  exists kept, subsequence kept l /\ Forall2 descends (filter p (map f l)) kept.
Proof.
  intros H. induction l as [|a l (kept & Hs & Hd)]; simpl.
  - exists []. split; constructor.
  - destruct (p (f a)).
    + exists (a :: kept). split; constructor; auto.
    + exists kept. split; [now constructor | exact Hd].
Qed.

Lemma subsequence_filter {A} (p : A -> bool) l : subsequence (filter p l) l.
Proof.
  induction l as [|a l IH]; simpl; [constructor|].
  destruct (p a); now constructor.
Qed.

Lemma subsequence_splice {A} i (l : list A) : subsequence (splice1 i l) l.
Proof.
  revert i; induction l as [|a l IH]; intros [|i]; simpl.
  - constructor.
  - constructor.
  - constructor. apply subsequence_refl.
  - constructor. apply IH.
Qed.

(** X14.  No operation but [setBiasIndicators] adds, reorders or relabels
    stored indicators, and none of them makes an outdated indicator active
    again: the collection after [clear], a removal or the reconciliation of
    a transaction descends, element by element, from a subsequence of the
    collection before it, with the same category, phrase, confidence and
    display index. *)
Theorem stored_indicators_descend (stored : list BiasIndicator) (op : Operation) :
  (forall candidates normalize, op <> SetAnnotations candidates normalize) ->
  exists kept,
    subsequence kept stored /\ Forall2 descends (step stored op) kept.
Proof.
  intros N. destruct op as [candidates normalize| |index|position|tr]; cbn [step].
  - now destruct (N candidates normalize).
  - exists []. split; [apply subsequence_nil_l | constructor].
  - unfold removeBiasIndicator. destruct ((0 <=? index) && _); cbn [storage].
    + eexists. split; [apply subsequence_splice | apply descends_all_refl].
    + exists stored. split; [apply subsequence_refl | apply descends_all_refl].
  - rewrite removeBiasIndicatorAtPosition_spec.
    destruct (existsb (covers position) stored); cbn [storage].
    + eexists. split; [apply subsequence_filter | apply descends_all_refl].
    + exists stored. split; [apply subsequence_refl | apply descends_all_refl].
  - unfold apply.
    destruct (getMeta tr);
      [exists stored; split; [apply subsequence_refl | apply descends_all_refl]|].
    destruct (docChanged tr);
      [|exists stored; split; [apply subsequence_refl | apply descends_all_refl]].
    rewrite mapIndicatorPositions_spec. cbn [fst snd].
    destruct (removeEditedIndicators_spec (map (remap (mapping tr)) stored)
                (selection tr)) as [E1 E2].
    rewrite E1, E2, removeInvalidIndicators_spec. cbn [fst snd].
    destruct (_ || _ || _); cbn [fst];
      [|exists stored; split; [apply subsequence_refl | apply descends_all_refl]].
    destruct (selection tr) as [sel|]; cbn [outdated_by].
    + destruct (empty sel).
      * rewrite map_map. apply descends_filter_map. intros a.
        eapply descends_trans; [apply descends_outdate | apply descends_remap].
      * apply descends_filter_map, descends_remap.
    + apply descends_filter_map, descends_remap.
Qed.

Lemma stored_indicators_descend_witness :
  let a :=
    {| bias_indicator_key := "sarcasm"; detected_phrase := "great";
       confidence := None; character_positions := mkSpan 5 10;
       displayIndex := Some 1; outdated := None |} in
  let b :=
    {| bias_indicator_key := "passiveVoice"; detected_phrase := "was made";
       confidence := None; character_positions := mkSpan 12 20;
       displayIndex := Some 2; outdated := None |} in
  exists kept,
    subsequence kept [a; b] /\
    Forall2 descends
      (step [a; b] (Reconcile (edit (fun p => p) (Some (mkSelection 7 7)) 15)))
      kept.
Proof.
  intros a b. apply stored_indicators_descend. discriminate.
Defined.

Lemma adjust_ends next l :
  map (fun a => end_ (character_positions a)) (adjust false next l)
  = map (fun a => end_ (character_positions a)) l.
Proof.
  revert next. induction l as [|a l IH]; intros next; cbn [adjust];
    [reflexivity|].
  destruct (truthy_number (displayIndex a)); simpl; f_equal; apply IH.
Qed.

Lemma sorted_by_ends l l' :
  map (fun a => end_ (character_positions a)) l'
  = map (fun a => end_ (character_positions a)) l ->
  StronglySorted by_end l -> StronglySorted by_end l'.
Proof.
  intros H S. revert l' H.
  induction S as [|a l S IH Ha]; intros [|r l'] H; try discriminate; constructor.
  - apply IH. now injection H.
  - injection H as Hr H. clear - Ha Hr H. revert l' H.
    induction Ha as [|y l Hy _ IH]; intros [|r' l'] H; try discriminate;
      constructor.
    + injection H as Hy' _. unfold by_end in *. lia.
    + apply IH. now injection H.
Qed.

(** X15.  Storing again what is stored changes nothing: a collection whose
    indicators all have a display index and are in the order of their span
    ends is stored exactly as it is by [setBiasIndicators] without
    normalisation - the call by which the application stores a collection
    in which it has marked an indicator outdated.  In particular
    [setBiasIndicators] without normalisation is idempotent. *)
Theorem setBiasIndicators_resubmit (indicators : list BiasIndicator)
    (stored : list BiasIndicator) :
  Forall (fun a => numbered a = true) indicators ->
  StronglySorted by_end indicators ->
  setBiasIndicators indicators (Some false) stored
  = mkOutcome true indicators (Some indicators) /\
  forall candidates before,
    let once := storage (setBiasIndicators candidates (Some false) before) in
    storage (setBiasIndicators once (Some false) once) = once.
Proof.
  intros Hn Hs.
  assert (G : forall l s, Forall (fun a => numbered a = true) l ->
                StronglySorted by_end l ->
                setBiasIndicators l (Some false) s = mkOutcome true l (Some l)).
  { intros l s Hl Hsorted. unfold setBiasIndicators.
    rewrite (sort_by_end_sorted_id _ Hsorted), (adjust_numbered_id _ Hl).
    reflexivity. }
  split; [now apply G|].
  intros candidates before once. rewrite G; [reflexivity| |].
  - unfold once, setBiasIndicators. cbn [storage fold_left].
    apply adjust_numbered. lia.
  - unfold once, setBiasIndicators. cbn [storage fold_left].
    apply (sorted_by_ends (sort_by_end candidates));
      [apply adjust_ends | apply sort_by_end_sorted].
Qed.

Lemma setBiasIndicators_resubmit_witness :
  let a :=
    {| bias_indicator_key := "sarcasm"; detected_phrase := "great";
       confidence := None; character_positions := mkSpan 5 10;
       displayIndex := Some 1; outdated := Some true |} in
  let b :=
    {| bias_indicator_key := "passiveVoice"; detected_phrase := "was made";
       confidence := None; character_positions := mkSpan 12 20;
       displayIndex := Some 2; outdated := None |} in
  setBiasIndicators [a; b] (Some false) [a; b] = mkOutcome true [a; b] (Some [a; b]).
Proof.
  intros a b. apply (setBiasIndicators_resubmit [a; b] [a; b]).
  - repeat constructor.
  - repeat constructor; unfold by_end; simpl; lia.
Defined.

(** ** Display indices that identify *)

Lemma adjust_fresh normalize l :
  fresh l ->
  forall k,
    map displayIndex (adjust normalize (Z.of_nat k) l)
    = map (fun i => Some (Z.of_nat i)) (seq k (length l)).
Proof.
  induction 1 as [|a l Ha _ IH]; intros k; cbn [adjust]; [reflexivity|].
  unfold numbered in Ha. rewrite Ha.
  cbn [map displayIndex with_displayIndex length seq]. f_equal.
  replace (Z.of_nat k + 1) with (Z.of_nat (S k)) by lia. apply IH.
Qed.

Lemma adjust_labelled normalize l :
  Forall (fun a => numbered a = true) l ->
  forall next, map displayIndex (adjust normalize next l) = map displayIndex l.
Proof.
  induction 1 as [|a l Ha _ IH]; intros next; cbn [adjust]; [reflexivity|].
  unfold numbered in Ha. rewrite Ha. cbn [map displayIndex]. now rewrite IH.
Qed.

Lemma NoDup_numbers k n : NoDup (map (fun i => Some (Z.of_nat i)) (seq k n)).
Proof.
  revert k. induction n as [|n IH]; intros k; cbn [seq map]; constructor.
  - intros H. apply in_map_iff in H as (i & E & Hi). apply in_seq in Hi.
    injection E as E. lia.
  - apply IH.
Qed.

Lemma subsequence_incl {A} (l l' : list A) x :
  subsequence l l' -> In x l -> In x l'.
Proof.
  induction 1 as [|y l l' _ IH|y l l' _ IH]; simpl; intros H; [exact H| |auto].
  destruct H; auto.
Qed.

Lemma subsequence_NoDup {A} (l l' : list A) :
  subsequence l l' -> NoDup l' -> NoDup l.
Proof.
  induction 1 as [|y l l' S IH|y l l' S IH]; intros D.
  - constructor.
  - inversion D as [|? ? Hnotin D']; subst. constructor; [|now apply IH].
    intros H. apply Hnotin. now apply (subsequence_incl l l').
  - inversion D; subst. now apply IH.
Qed.

(** X22.  Display indices identify the stored indicators: in a session in
    which no [setBiasIndicators] call mixes candidates that have a display
    index with candidates that lack one - the analysis results come without
    any, a stored collection that is submitted again has one on every
    indicator - no two stored indicators ever have the same display index.
    So a marker number read back by the hover code stands for one stored
    indicator at most. *)
Theorem display_indices_are_distinct (ops : list Operation) :
  Forall unmixed ops ->
  NoDup (map displayIndex (run ops)).
Proof.
  unfold run.
  assert (G : forall stored,
            Forall unmixed ops ->
            NoDup (map displayIndex stored) ->
            NoDup (map displayIndex (fold_left step ops stored))).
  { induction ops as [|op ops IH]; intros stored H D; [exact D|].
    inversion H as [|? ? Hop Hops]; subst. cbn [fold_left]. apply IH; [exact Hops|].
    destruct op as [candidates normalize| |index|position|tr];
      try (refine (subsequence_NoDup _ _ (display_indices_kept stored _ _) D);
           intros; discriminate).
    cbn [step]. unfold setBiasIndicators. cbn [storage fold_left].
    destruct Hop as [F|[L Dc]].
    - assert (F' : fresh (sort_by_end candidates)).
      { apply Forall_forall. intros a Ha. unfold fresh in F.
        rewrite Forall_forall in F. apply F.
        now apply (Permutation_in _ (sort_by_end_perm candidates)). }
      change (0 + 1) with (Z.of_nat 1). rewrite (adjust_fresh _ _ F').
      apply NoDup_numbers.
    - assert (L' : Forall (fun a => numbered a = true) (sort_by_end candidates)).
      { apply Forall_forall. intros a Ha. rewrite Forall_forall in L. apply L.
        now apply (Permutation_in _ (sort_by_end_perm candidates)). }
      rewrite (adjust_labelled _ _ L').
      eapply Permutation_NoDup; [|exact Dc].
      apply Permutation_map, Permutation_sym, sort_by_end_perm. }
  intros H. apply G; [exact H | constructor].
Qed.

Lemma display_indices_are_distinct_witness :
  let first :=
    {| bias_indicator_key := "sarcasm"; detected_phrase := "great";
       confidence := None; character_positions := mkSpan 0 5;
       displayIndex := None; outdated := None |} in
  let second :=
    {| bias_indicator_key := "passiveVoice"; detected_phrase := "was made";
       confidence := None; character_positions := mkSpan 20 28;
       displayIndex := None; outdated := None |} in
  NoDup (map displayIndex
             (run [SetAnnotations [first; second] None;
                   RemoveAtDocumentPosition 3;
                   Reconcile (edit (fun p => p + 1) None 40)])).
Proof.
  intros first second. apply display_indices_are_distinct.
  repeat constructor.
Defined.

End CollectionFacts.

(* ===================================================================== *)
(** * The commands of the two engines                                     *)
(* ===================================================================== *)

Module CommandFacts.
Import Js JsFacts Lifecycle BiasFacts LifecycleFacts Correspondence
       CommandCorrespondence Equivalence LexiconCommands.

Lemma lexicon_remove_loop_spec position pre suffix removed :
  remove_loop position (length pre) (pre ++ suffix) removed
  = (filter (fun t => negb ((start (term_character_positions t) <=? position)
                            && (position <=? end_ (term_character_positions t))))
            pre ++ suffix,
     removed || existsb (fun t => (start (term_character_positions t) <=? position)
                                  && (position <=? end_ (term_character_positions t)))
                        pre).
Proof.
  revert suffix removed. induction pre as [|x pre IH] using rev_ind;
    intros suffix removed.
  - simpl. now rewrite orb_false_r.
  - rewrite length_app. simpl. rewrite Nat.add_1_r. cbn [remove_loop].
    rewrite <- app_assoc. simpl. rewrite nth_error_middle.
    rewrite filter_app, existsb_app. simpl.
    destruct ((start (term_character_positions x) <=? position)
              && (position <=? end_ (term_character_positions x))); simpl.
    + rewrite splice1_app, IH, app_nil_r. f_equal.
      now rewrite orb_true_r, orb_true_r.
    + rewrite IH, <- app_assoc. simpl. now rewrite orb_false_r.
Qed.

Lemma removeLexiconTermAtPosition_spec position stored :
  removeLexiconTermAtPosition position stored
  = let inside t := (start (term_character_positions t) <=? position)
                    && (position <=? end_ (term_character_positions t)) in
    if existsb inside stored
    then let kept := filter (fun t => negb (inside t)) stored in
         mkOutcome true kept (Some kept)
    else mkOutcome false stored None.
Proof.
  unfold removeLexiconTermAtPosition.
  pose proof (lexicon_remove_loop_spec position stored [] false) as H.
  rewrite !app_nil_r in H. rewrite H. cbv zeta. simpl.
  destruct (existsb _ stored); reflexivity.
Qed.

Lemma alike_splice1 i indicators terms :
  Forall2 alike indicators terms ->
  Forall2 alike (splice1 i indicators) (splice1 i terms).
Proof.
  intros H. revert i. induction H as [|a t l l' Hat H IH]; intros [|i]; simpl;
    try constructor; auto.
Qed.

Lemma alike_covers position a t :
  alike a t ->
  covers position a
  = (start (term_character_positions t) <=? position)
    && (position <=? end_ (term_character_positions t)).
Proof.
  intros H. destruct (alike_fields a t H) as [Hs _].
  unfold covers. now rewrite Hs.
Qed.

(** X16.  On collections that are alike - the same spans and outdated
    flags, element by element - the commands of the two engines agree:
    [clear], the removal by index and the removal at a document position
    return the same boolean, leave collections that are alike and notify
    alike collections, or nothing, on both sides. *)
Theorem commands_agree (indicators : list BiasIndicator)
    (terms : list LexiconTerm) :
  Forall2 alike indicators terms ->
  outcomes_agree (Bias.clearBiasIndicators indicators) (clearLexiconTerms terms) /\
  (forall index,
     outcomes_agree (Bias.removeBiasIndicator index indicators)
                    (removeLexiconTerm index terms)) /\
  (forall position,
     outcomes_agree (Bias.removeBiasIndicatorAtPosition position indicators)
                    (removeLexiconTermAtPosition position terms)).
Proof.
  intros H. split; [|split].
  - unfold outcomes_agree. simpl. auto.
  - intros index. unfold Bias.removeBiasIndicator, removeLexiconTerm.
    rewrite (Forall2_length H).
    destruct ((0 <=? index) && (index <? Z.of_nat (length terms)));
      unfold outcomes_agree; cbn [returned storage dispatched].
    + split; [reflexivity|]. split; now apply alike_splice1.
    + auto.
  - intros position.
    rewrite removeBiasIndicatorAtPosition_spec, removeLexiconTermAtPosition_spec.
    cbv zeta.
    rewrite (Forall2_existsb_both alike (covers position) _ _ _
               (alike_covers position) H).
    assert (K : Forall2 alike
                  (filter (fun a => negb (covers position a)) indicators)
                  (filter (fun t => negb
                     ((start (term_character_positions t) <=? position)
                      && (position <=? end_ (term_character_positions t))))
                     terms)).
    { apply Forall2_filter_both; [|exact H].
      intros a t Hat. now rewrite (alike_covers position a t Hat). }
    destruct (existsb _ terms); unfold outcomes_agree;
      cbn [returned storage dispatched]; auto.
Qed.

Lemma commands_agree_witness :
  let indicator :=
    {| bias_indicator_key := "sarcasm"; detected_phrase := "great";
       confidence := None; character_positions := mkSpan 5 10;
       displayIndex := Some 1; outdated := None |} in
  let term :=
    {| word := "Blocker"; definition := "A forensic device";
       usage_example := "the write blocker";
       term_character_positions := mkSpan 5 10;
       term_displayIndex := Some 4; term_outdated := None |} in
  outcomes_agree (Bias.removeBiasIndicatorAtPosition 7 [indicator])
                 (removeLexiconTermAtPosition 7 [term]).
Proof.
  intros indicator term.
  apply (commands_agree [indicator] [term]).
  repeat constructor.
Defined.

End CommandFacts.

(* ===================================================================== *)
(** * From the lexicon service to the stored terms                        *)
(* ===================================================================== *)

Module TermFacts.
Import Js JsFacts Lexicon LexiconService Terms.

Lemma term_insert_perm x l : Permutation (insert_by_start x l) (x :: l).
Proof.
  induction l as [|y l IH]; simpl; [apply Permutation_refl|].
  destruct (_ <=? _); [apply Permutation_refl|].
  eapply Permutation_trans; [apply perm_skip, IH | apply perm_swap].
Qed.

Lemma term_sort_perm l : Permutation (sort_by_start l) l.
Proof.
  induction l as [|x l IH]; simpl; [constructor|].
  eapply Permutation_trans; [apply term_insert_perm | now constructor].
Qed.

Lemma term_insert_sorted x l :
  StronglySorted by_start l -> StronglySorted by_start (insert_by_start x l).
Proof.
  induction 1 as [|y l Hs IH Hy]; simpl.
  - constructor; constructor.
  - destruct (Z.leb_spec (start (term_character_positions x))
                         (start (term_character_positions y))) as [Hle|Hgt].
    + constructor; [now constructor|]. constructor; [exact Hle|].
      eapply Forall_impl; [|exact Hy]. unfold by_start. intros; lia.
    + constructor; [exact IH|].
      apply Forall_forall. intros z Hz.
      apply (Permutation_in _ (term_insert_perm x l)) in Hz as [<-|Hz].
      * unfold by_start. lia.
      * rewrite Forall_forall in Hy. now apply Hy.
Qed.

Lemma term_sort_sorted l : StronglySorted by_start (sort_by_start l).
Proof.
  induction l as [|x l IH]; simpl; [constructor | now apply term_insert_sorted].
Qed.

Lemma term_insert_stable s x l :
  filter (starts_at s) (insert_by_start x l) = filter (starts_at s) (x :: l).
Proof.
  induction l as [|y l IH]; [reflexivity|]. cbn [insert_by_start].
  destruct (Z.leb_spec (start (term_character_positions x))
                       (start (term_character_positions y))) as [Hle|Hgt];
    [reflexivity|].
  cbn [filter] in *. rewrite IH. unfold starts_at.
  destruct (Z.eqb_spec (start (term_character_positions x)) s),
           (Z.eqb_spec (start (term_character_positions y)) s); try reflexivity.
  lia.
Qed.

Lemma term_sort_stable s l :
  filter (starts_at s) (sort_by_start l) = filter (starts_at s) l.
Proof.
  induction l as [|x l IH]; [reflexivity|]. cbn [sort_by_start fold_right].
  fold (sort_by_start l). rewrite term_insert_stable. cbn [filter].
  now rewrite IH.
Qed.

(** ** The stored form of a term *)

Lemma term_adjust_payload next l :
  map word (adjust next l) = map word l /\
  map definition (adjust next l) = map definition l /\
  map usage_example (adjust next l) = map usage_example l /\
  map term_outdated (adjust next l) = map term_outdated l.
Proof.
  revert next. induction l as [|a l IH]; intros next; cbn [adjust];
    [repeat split|].
  destruct (truthy_number (term_displayIndex a));
    [destruct (IH next) as (W & D & U & O)
    |destruct (IH (next + 1)) as (W & D & U & O)];
    cbn [map word definition usage_example term_outdated];
    rewrite W, D, U, O; repeat split.
Qed.

Lemma term_adjust_spans l :
  Forall in_text l ->
  forall next,
    map term_character_positions (adjust next l)
    = map (fun a => mkSpan (start (term_character_positions a) + 1)
                           (end_ (term_character_positions a) + 1)) l.
Proof.
  induction 1 as [|a l Ha _ IH]; intros next; cbn [adjust]; [reflexivity|].
  unfold in_text in Ha.
  pose proof (CollectionFacts.normalized_text_span _ _ Ha) as E.
  destruct (truthy_number (term_displayIndex a));
    cbn [map term_character_positions]; rewrite E, IH; reflexivity.
Qed.

Lemma term_adjust_numbers l :
  Forall (fun a => truthy_number (term_displayIndex a) = false) l ->
  forall k,
    map term_displayIndex (adjust (Z.of_nat k) l)
    = map (fun i => Some (Z.of_nat i)) (seq k (length l)).
Proof.
  induction 1 as [|a l Ha _ IH]; intros k; cbn [adjust]; [reflexivity|].
  rewrite Ha. cbn [map term_displayIndex length seq]. f_equal.
  replace (Z.of_nat k + 1) with (Z.of_nat (S k)) by lia. apply IH.
Qed.

Lemma sorted_by_starts l l' :
  map term_character_positions l'
  = map (fun a => mkSpan (start (term_character_positions a) + 1)
                         (end_ (term_character_positions a) + 1)) l ->
  StronglySorted by_start l -> StronglySorted by_start l'.
Proof.
  intros H S. revert l' H.
  induction S as [|a l S IH Ha]; intros [|r l'] H; try discriminate; constructor.
  - apply IH. now injection H.
  - injection H as Hr H. clear - Ha Hr H. revert l' H.
    induction Ha as [|y l Hy _ IH]; intros [|r' l'] H; try discriminate;
      constructor.
    + injection H as Hy' _. unfold by_start in *. rewrite Hr, Hy'. simpl. lia.
    + apply IH. now injection H.
Qed.

(** X17.  The terms the lexicon service returns are stored in the order of
    the text.  [analyzeLexiconTerms] puts the terms in the order of their
    span starts, terms with equal starts in the order received.  When the
    terms come without display indices and with spans of text offsets
    ([0 <= start < end < 2^53]), [setLexiconTerms] stores them in that
    order, each span moved one position to the right, with words,
    definitions, examples and flags as received, and numbers them
    1, 2, ..., n in that order. *)
Theorem lexicon_terms_in_text_order (data : list LexiconTerm)
    (stored : list LexiconTerm) :
  Forall (fun a => truthy_number (term_displayIndex a) = false) data ->
  Forall in_text data ->
  let sorted := analyzeLexiconTerms data in
  let out := setLexiconTerms sorted stored in
  Permutation sorted data /\
  StronglySorted by_start sorted /\
  (forall s, filter (starts_at s) sorted = filter (starts_at s) data) /\
  returned out = true /\
  dispatched out = Some (storage out) /\
  StronglySorted by_start (storage out) /\
  map term_displayIndex (storage out) = numbers (length data) /\
  map word (storage out) = map word sorted /\
  map definition (storage out) = map definition sorted /\
  map usage_example (storage out) = map usage_example sorted /\
  map term_outdated (storage out) = map term_outdated sorted /\
  map term_character_positions (storage out)
  = map (fun a => mkSpan (start (term_character_positions a) + 1)
                         (end_ (term_character_positions a) + 1)) sorted.
Proof.
  intros Hn Ht sorted out.
  assert (P : Permutation sorted data) by apply term_sort_perm.
  assert (S : StronglySorted by_start sorted) by apply term_sort_sorted.
  assert (Hn' : Forall (fun a => truthy_number (term_displayIndex a) = false) sorted).
  { apply Forall_forall. intros a Ha. rewrite Forall_forall in Hn.
    apply Hn. now apply (Permutation_in _ P). }
  assert (Ht' : Forall in_text sorted).
  { apply Forall_forall. intros a Ha. rewrite Forall_forall in Ht.
    apply Ht. now apply (Permutation_in _ P). }
  assert (E : storage out = adjust (Z.of_nat 1) sorted) by reflexivity.
  destruct (term_adjust_payload (Z.of_nat 1) sorted) as (W & D & U & O).
  pose proof (term_adjust_spans sorted Ht' (Z.of_nat 1)) as Sp.
  split; [exact P|]. split; [exact S|].
  split; [intros s; apply term_sort_stable|].
  split; [reflexivity|]. split; [reflexivity|].
  rewrite E. split; [|split; [|auto 6]].
  - now apply (sorted_by_starts sorted).
  - rewrite (term_adjust_numbers sorted Hn' 1). unfold numbers.
    now rewrite (Permutation_length P).
Qed.

Lemma lexicon_terms_in_text_order_witness :
  let blocker :=
    {| word := "Blocker"; definition := "A forensic device";
       usage_example := "the write blocker";
       term_character_positions := mkSpan 20 27;
       term_displayIndex := None; term_outdated := None |} in
  let image :=
    {| word := "Image"; definition := "A copy of a medium";
       usage_example := "a disk image";
       term_character_positions := mkSpan 0 5;
       term_displayIndex := None; term_outdated := None |} in
  let out := setLexiconTerms (analyzeLexiconTerms [blocker; image]) [] in
  StronglySorted by_start (storage out) /\
  map term_displayIndex (storage out) = numbers (length [blocker; image]) /\
  map word (storage out) = map word (analyzeLexiconTerms [blocker; image]).
Proof.
  intros blocker image out.
  assert (Hn : Forall (fun a => truthy_number (term_displayIndex a) = false)
                      [blocker; image]) by (repeat constructor).
  assert (Ht : Forall in_text [blocker; image])
    by (repeat constructor; unfold in_text; simpl; lia).
  destruct (lexicon_terms_in_text_order [blocker; image] [] Hn Ht)
    as (_ & _ & _ & _ & _ & S & N & W & _).
  split; [exact S|]. split; [exact N | exact W].
Defined.

(** At the limit of the integers that a number holds exactly the shift
    stops: the span [{2^53 - 1, 2^53}] is stored as [{2^53, 2^53}]. *)
Example setLexiconTerms_at_the_limit :
  let term :=
    {| word := "Blocker"; definition := "A forensic device";
       usage_example := "the write blocker";
       term_character_positions := mkSpan (2 ^ 53 - 1) (2 ^ 53);
       term_displayIndex := None; term_outdated := None |} in
  map term_character_positions (storage (setLexiconTerms [term] []))
  = [mkSpan (2 ^ 53) (2 ^ 53)].
Proof. vm_compute. reflexivity. Qed.

End TermFacts.

(* ===================================================================== *)
(** * What is drawn and what is highlighted                               *)
(* ===================================================================== *)

Module RenderingFacts.
Import Js JsFacts Lifecycle BiasFacts LifecycleFacts Rendering Decorations Hover.

Lemma entry_insert_perm x l : Permutation (insert_by_start x l) (x :: l).
Proof.
  induction l as [|y l IH]; simpl; [apply Permutation_refl|].
  destruct (_ <=? _); [apply Permutation_refl|].
  eapply Permutation_trans; [apply perm_skip, IH | apply perm_swap].
Qed.

Lemma entry_sort_perm l : Permutation (sort_by_start l) l.
Proof.
  induction l as [|x l IH]; simpl; [constructor|].
  eapply Permutation_trans; [apply entry_insert_perm | now constructor].
Qed.

Lemma entry_insert_sorted x l :
  StronglySorted entry_by_start l ->
  StronglySorted entry_by_start (insert_by_start x l).
Proof.
  induction 1 as [|y l Hs IH Hy]; simpl.
  - constructor; constructor.
  - destruct (Z.leb_spec (start (character_positions (fst x)))
                         (start (character_positions (fst y)))) as [Hle|Hgt].
    + constructor; [now constructor|]. constructor; [exact Hle|].
      eapply Forall_impl; [|exact Hy]. unfold entry_by_start. intros; lia.
    + constructor; [exact IH|].
      apply Forall_forall. intros z Hz.
      apply (Permutation_in _ (entry_insert_perm x l)) in Hz as [<-|Hz].
      * unfold entry_by_start. lia.
      * rewrite Forall_forall in Hy. now apply Hy.
Qed.

Lemma entry_sort_sorted l : StronglySorted entry_by_start (sort_by_start l).
Proof.
  induction l as [|x l IH]; simpl; [constructor | now apply entry_insert_sorted].
Qed.

Lemma with_index_In l :
  forall index a i,
    In (a, i) (with_index index l) <->
    (index <= i)%nat /\ nth_error l (i - index) = Some a.
Proof.
  induction l as [|x l IH]; intros index a i; cbn [with_index].
  - split; [intros [] | intros [_ H]; destruct (i - index)%nat; discriminate].
  - cbn [In]. rewrite IH. split.
    + intros [E|[Hle Hn]].
      * injection E as -> ->. rewrite Nat.sub_diag. auto.
      * split; [lia|]. replace (i - index)%nat with (S (i - S index)) by lia.
        exact Hn.
    + intros [Hle Hn]. destruct (i - index)%nat as [|k] eqn:E.
      * left. injection Hn as ->. f_equal. lia.
      * right. split; [lia|]. replace (i - S index)%nat with k by lia. exact Hn.
Qed.

Lemma with_index_length l : forall index, length (with_index index l) = length l.
Proof. induction l as [|x l IH]; intros index; simpl; [|rewrite IH]; reflexivity. Qed.

Lemma decorate_length entries :
  length (flat_map decorate entries) = (2 * length entries)%nat.
Proof.
  induction entries as [|[a i] l IH]; [reflexivity|].
  cbn [flat_map decorate app length]. rewrite IH. lia.
Qed.

Lemma createDecorations_entries indicators :
  createDecorations indicators
  = flat_map decorate (sort_by_start (with_index 0 (filter shown indicators))).
Proof. destruct indicators; reflexivity. Qed.

(** X18.  [createDecorations] draws each indicator that is not outdated
    once, and no other: two decorations for each, an inline decoration over
    its span followed by the marker widget at the end of the span, in the
    order of the span starts.  The [data-bias-index] of the inline
    decoration is the place of the indicator among the indicators that are
    not outdated - not its place in the stored collection when an outdated
    indicator precedes it. *)
Theorem createDecorations_spec (indicators : list BiasIndicator) :
  let active := filter shown indicators in
  exists entries,
    createDecorations indicators = flat_map decorate entries /\
    Permutation entries (with_index 0 active) /\
    StronglySorted entry_by_start entries /\
    (forall a i, In (a, i) entries <-> nth_error active i = Some a) /\
    length (createDecorations indicators) = (2 * length active)%nat /\
    (forall pos a,
       In (Widget pos a) (createDecorations indicators) <->
       In a indicators /\ truthy_flag (outdated a) = false /\
       pos = end_ (character_positions a)) /\
    (forall f t i,
       In (Inline f t i) (createDecorations indicators) <->
       exists a, nth_error active i = Some a /\
                 f = start (character_positions a) /\
                 t = end_ (character_positions a)).
Proof.
  intros active.
  set (entries := sort_by_start (with_index 0 active)).
  assert (P : Permutation entries (with_index 0 active)) by apply entry_sort_perm.
  assert (M : forall a i, In (a, i) entries <-> nth_error active i = Some a).
  { intros a i. split.
    - intros H. apply (Permutation_in _ P), with_index_In in H as [_ H].
      now rewrite Nat.sub_0_r in H.
    - intros H. apply (Permutation_in _ (Permutation_sym P)), with_index_In.
      rewrite Nat.sub_0_r. split; [lia | exact H]. }
  exists entries. rewrite createDecorations_entries. fold active. fold entries.
  split; [reflexivity|]. split; [exact P|].
  split; [apply entry_sort_sorted|]. split; [exact M|]. split; [|split].
  - rewrite decorate_length, (Permutation_length P), with_index_length.
    reflexivity.
  - intros pos a. rewrite in_flat_map. split.
    + intros ([b i] & Hb & Hd). cbn [decorate In] in Hd.
      destruct Hd as [Hd|[Hd|[]]]; [discriminate|]. injection Hd as <- <-.
      apply M, nth_error_In, filter_In in Hb as [Hin Hs].
      unfold shown in Hs. apply negb_true_iff in Hs. auto.
    + intros (Hin & Hs & ->).
      assert (Ha : In a active).
      { apply filter_In. split; [exact Hin|]. unfold shown. now rewrite Hs. }
      apply In_nth_error in Ha as (i & Hi).
      exists (a, i). split; [now apply M|]. cbn [decorate In]. auto.
  - intros f t i. rewrite in_flat_map. split.
    + intros ([b k] & Hb & Hd). cbn [decorate In] in Hd.
      destruct Hd as [Hd|[Hd|[]]]; [|discriminate]. injection Hd as <- <- <-.
      exists b. split; [now apply M | auto].
    + intros (a & Ha & -> & ->). exists (a, i). split; [now apply M|].
      cbn [decorate In]. auto.
Qed.

(** ** Hovering and removing *)

Lemma filter_partition {A} (p : A -> bool) l :
  Permutation (filter p l ++ filter (fun x => negb (p x)) l) l.
Proof.
  induction l as [|x l IH]; simpl; [constructor|].
  destruct (p x); simpl.
  - now constructor.
  - eapply Permutation_trans; [apply Permutation_sym, Permutation_middle|].
    now constructor.
Qed.

(** X19.  The indicators whose markers [BiasTextHover] highlights at a
    position are the ones that [removeBiasIndicatorAtPosition] removes at
    that position: the hovered indicators and the collection the command
    leaves make up the stored collection, and the command returns [true]
    exactly when some indicator is hovered.  Outdated indicators count on
    both sides.  A marker with number [d] is highlighted exactly when some
    stored indicator that contains the position has display index [d]. *)
Theorem hovered_indicators_are_removed (position : Z)
    (stored : list BiasIndicator) :
  let hovered := hoveredIndicators position stored in
  let out := Bias.removeBiasIndicatorAtPosition position stored in
  hovered = filter (covers position) stored /\
  Permutation (hovered ++ storage out) stored /\
  (returned out = true <-> hovered <> []) /\
  forall d,
    isHovered hovered d = true <->
    exists a, In a stored /\
              start (character_positions a) <= position
              <= end_ (character_positions a) /\
              displayIndex a = Some d.
Proof.
  intros hovered out.
  assert (E : hovered = filter (covers position) stored) by reflexivity.
  assert (X : existsb (covers position) stored = true <-> hovered <> []).
  { rewrite E. split.
    - intros H N. apply existsb_exists in H as (a & Ha & Hc).
      assert (In a (filter (covers position) stored)) by (apply filter_In; auto).
      rewrite N in H. exact H.
    - intros N. destruct (filter (covers position) stored) as [|a l] eqn:F;
        [congruence|].
      assert (Ha : In a (filter (covers position) stored)) by (rewrite F; now left).
      apply filter_In in Ha. apply existsb_exists. eauto. }
  split; [exact E|]. unfold out. rewrite removeBiasIndicatorAtPosition_spec.
  split; [|split].
  - destruct (existsb (covers position) stored) eqn:C; cbn [storage].
    + rewrite E. apply filter_partition.
    + rewrite E, (CategoryLimiterFacts.filter_nothing (covers position)).
      * apply Permutation_refl.
      * now apply existsb_false_forall.
  - rewrite <- X. destruct (existsb (covers position) stored); cbn [returned];
      split; congruence.
  - intros d. unfold isHovered. rewrite existsb_exists, E. split.
    + intros (a & Ha & Hd). apply filter_In in Ha as [Ha Hc].
      apply covers_iff in Hc. exists a. split; [exact Ha|]. split; [exact Hc|].
      destruct (displayIndex a) as [d'|]; [|discriminate].
      apply Z.eqb_eq in Hd. now subst.
    + intros (a & Ha & Hc & Hd). exists a. split.
      * apply filter_In. split; [exact Ha | now apply covers_iff].
      * rewrite Hd. apply Z.eqb_refl.
Qed.

End RenderingFacts.

(* ===================================================================== *)
(** * Escaping the text of a document                                     *)
(* ===================================================================== *)

Module HtmlFacts.
Import PhraseLocatorFacts PdfExtractor Html.

Lemma five_passes_app l l' : five_passes (l ++ l') = five_passes l ++ five_passes l'.
Proof. unfold five_passes, replace_all. now rewrite !flat_map_app. Qed.

Lemma five_passes_one c : five_passes [c] = entity c.
Proof. each_code_unit c. Qed.

Lemma five_passes_entities l : five_passes l = flat_map entity l.
Proof.
  induction l as [|c l IH]; [reflexivity|].
  change (c :: l) with ([c] ++ l).
  rewrite five_passes_app, five_passes_one, IH. reflexivity.
Qed.

Lemma entity_clean c : forallb (fun x => negb (is_markup x)) (entity c) = true.
Proof. each_code_unit c. Qed.

Lemma entity_prefix c c' rest rest' :
  entity c ++ rest = entity c' ++ rest' -> c = c' /\ rest = rest'.
Proof.
  unfold entity.
  destruct (Ascii.eqb_spec c "&") as [->|N1];
    [|destruct (Ascii.eqb_spec c "<") as [->|N2];
      [|destruct (Ascii.eqb_spec c ">") as [->|N3];
        [|destruct (Ascii.eqb_spec c "034") as [->|N4];
          [|destruct (Ascii.eqb_spec c "'") as [->|N5]]]]];
  (destruct (Ascii.eqb_spec c' "&") as [->|M1];
    [|destruct (Ascii.eqb_spec c' "<") as [->|M2];
      [|destruct (Ascii.eqb_spec c' ">") as [->|M3];
        [|destruct (Ascii.eqb_spec c' "034") as [->|M4];
          [|destruct (Ascii.eqb_spec c' "'") as [->|M5]]]]]);
  cbn [list_ascii_of_string app]; intros H;
  try discriminate H;
  try (injection H as H; split; [reflexivity || congruence | assumption]);
  try (injection H as H1 H2; congruence).
Qed.

Lemma entities_injective l :
  forall l', flat_map entity l = flat_map entity l' -> l = l'.
Proof.
  induction l as [|c l IH]; intros [|c' l'] H.
  - reflexivity.
  - exfalso. cbn [flat_map] in H. revert H. unfold entity.
    repeat match goal with |- context [if ?b then _ else _] => destruct b end;
      discriminate.
  - exfalso. cbn [flat_map] in H. revert H. unfold entity.
    repeat match goal with |- context [if ?b then _ else _] => destruct b end;
      discriminate.
  - cbn [flat_map] in H. apply entity_prefix in H as [-> H].
    f_equal. now apply IH.
Qed.

(** X20.  [escapeHtml]: the five replacements, made one after the other,
    come to replacing each character once - [&], [<], [>], the double quote
    and the apostrophe by their entities, any other character by itself; no
    replacement is escaped a second time.  The escaped text contains none of
    [<], [>], the double quote and the apostrophe, and two texts with the
    same escaped text are equal. *)
Theorem escapeHtml_spec (text : string) :
  list_ascii_of_string (escapeHtml text)
    = flat_map entity (list_ascii_of_string text) /\
  Forall (fun c => is_markup c = false) (list_ascii_of_string (escapeHtml text)) /\
  forall text', escapeHtml text = escapeHtml text' -> text = text'.
Proof.
  assert (E : forall t, list_ascii_of_string (escapeHtml t)
                        = flat_map entity (list_ascii_of_string t)).
  { intros t. unfold escapeHtml. rewrite list_ascii_of_string_of_list_ascii.
    exact (five_passes_entities (list_ascii_of_string t)). }
  split; [apply E|]. split.
  - rewrite E. apply Forall_forall. intros c Hc.
    apply in_flat_map in Hc as (x & _ & Hc).
    pose proof (entity_clean x) as C. rewrite forallb_forall in C.
    apply C in Hc. now apply negb_true_iff in Hc.
  - intros text' H.
    assert (L : list_ascii_of_string text = list_ascii_of_string text').
    { apply entities_injective. rewrite <- !E. now rewrite H. }
    rewrite <- (string_of_list_ascii_of_string text),
            <- (string_of_list_ascii_of_string text').
    now rewrite L.
Qed.

End HtmlFacts.
